(** * mcocRandomMap: quest-map generation core, embedded in Rocq

    A shallow embedding of the generation and staging core of the
    repository (PriorityQueue.ts, helpers.ts, AStar.ts, MapNode.ts and the
    graph-building / staging functions of index.ts, with the computation of
    [run] and the frame logic of [runAnimation]), followed by the properties
    of the specification that concern it and by further properties of the
    sources.

    Modelling conventions.
    - A JavaScript [number] holding a coordinate, an index or a
      [distSinceFight] is an integer ([Z]); a [number] holding a cost, a
      priority or a random draw is a rational ([Q]).  The fight roll and
      the choice of a portrait compute in IEEE-754 doubles (module
      [Double]); the costs of the grid search and the draws of [run] are
      taken with exact arithmetic.
    - An element type that can hold [null] or [undefined] says which of
      its values these are (class [Nullish]).
    - [Point.key()] is the string [x + ',' + y]; it is injective on integer
      coordinates, and a key is represented by the coordinate pair.
    - An object used as a dictionary ([Record<string, _>]) is a [gmap].
    - [MapNode] objects are shared and mutated in place; there is exactly one
      instance per coordinate ([nodeRefs]), so the object graph is a registry
      from keys to node records and a reference is a key.
    - [Math.random()] is an explicit stream of draws with a cursor.
    - Loops that the source does not bound take a fuel argument; running out
      of fuel is an outcome of its own, distinct from a thrown [TypeError]. *)

From Stdlib Require Import ZArith QArith Qround Lia Lqa List SpecFloat.
From stdpp Require Import base option list gmap fin_maps.

Local Open Scope Z_scope.

(** ** Outcomes of partial computations *)

Inductive outcome (A : Type) : Type :=
| Ok (a : A)          (* normal completion with a value *)
| TypeError           (* reading a property of / iterating over [undefined] *)
| OutOfFuel.          (* the fuel of the model ran out: no answer about the source *)
Arguments Ok {A} a.
Arguments TypeError {A}.
Arguments OutOfFuel {A}.

#[global] Instance outcome_eq_dec {A} `{EqDecision A} : EqDecision (outcome A).
Proof. solve_decision. Defined.

#[global] Instance outcome_ret : MRet outcome := fun _ a => Ok a.

#[global] Instance outcome_bind : MBind outcome := fun _ _ f m =>
  match m with
  | Ok a => f a
  | TypeError => TypeError
  | OutOfFuel => OutOfFuel
  end.

(** ** helpers.ts: Point *)

Record Point : Type := mkPoint { x : Z; y : Z }.

Definition Key : Type := (Z * Z)%type.

Definition key (p : Point) : Key := (x p, y p).

Definition equals (p q : Point) : bool := (x p =? x q) && (y p =? y q).

(** The values of an element type that are [null] or [undefined]. *)
Class Nullish (T : Type) : Type := nullish : T -> bool.

(** A coordinate pair, standing for a reference to an object, is neither. *)
#[global] Instance key_nullish : Nullish Key := fun _ => false.

(** An optional value: [None] is [null]. *)
#[global] Instance option_nullish {A} : Nullish (option A) := fun o =>
  match o with
  | None => true
  | Some _ => false
  end.

(** [unique(ary, comparison)].  [uniqAry.find(...)] returns the first
    element that [comparison] relates to [el], or [undefined]; the test
    [== null] holds for [undefined] and also for a found element that is
    itself [null] or [undefined]. *)
Fixpoint unique_acc {T} `{Nullish T} (comparison : T -> T -> bool) (uniqAry ary : list T)
    : list T :=
  match ary with
  | [] => uniqAry
  | el :: rest =>
      if match List.find (fun el2 => comparison el el2) uniqAry with
         | Some found => nullish found
         | None => true
         end
      then unique_acc comparison (uniqAry ++ [el]) rest
      else unique_acc comparison uniqAry rest
  end.

Definition unique {T} `{Nullish T} (ary : list T) (comparison : T -> T -> bool) : list T :=
  unique_acc comparison [] ary.

(** ** PriorityQueue.ts *)

Module PriorityQueue.

Record PQueueEntry (T : Type) : Type := mkEntry { data : T; priority : Q }.
Arguments mkEntry {T} data priority.
Arguments data {T} _.
Arguments priority {T} _.

Record t (T : Type) : Type := mkQueue { queue : list (PQueueEntry T); length : nat }.
Arguments mkQueue {T} queue length.
Arguments queue {T} _.
Arguments length {T} _.

Definition new {T} : t T := mkQueue [] 0%nat.

(** [a > b] on priorities. *)
Definition gtb (a b : Q) : bool := negb (Qle_bool a b).

(** The [for] loop of [insert]: [insertIdx] starts at 0 and is overwritten
by the index [i] of the first entry whose priority is greater than the
new one; when the loop finds none, [insertIdx] is still 0. *)
Fixpoint insertIdx {T} (q : list (PQueueEntry T)) (prio : Q) (i : nat) : nat :=
match q with
| [] => 0%nat
| obj :: rest => if gtb (priority obj) prio then i else insertIdx rest prio (S i)
end.

(** [ary.splice(idx, 0, e)] *)
Definition splice {A} (idx : nat) (e : A) (ary : list A) : list A :=
take idx ary ++ e :: drop idx ary.

Definition insert {T} (pq : t T) (d : T) (prio : Q) : t T :=
let q' := splice (insertIdx (queue pq) prio 0) (mkEntry d prio) (queue pq) in
mkQueue q' (List.length q').

(** [dequeue]: [queue.shift()?.data], [None] for [undefined]. *)
Definition dequeue {T} (pq : t T) : option T * t T :=
match queue pq with
| [] => (None, mkQueue [] 0%nat)
| e :: rest => (Some (data e), mkQueue rest (List.length rest))
end.

Definition peek {T} (pq : t T) : option T :=
match queue pq with
| [] => None
| e :: _ => Some (data e)
end.

(** Repeated [dequeue] until the queue is empty. *)
Fixpoint drain {T} (fuel : nat) (pq : t T) : list T :=
match fuel with
| O => []
| S f =>
match dequeue pq with
| (Some d, pq') => d :: drain f pq'
| (None, _) => []
end
end.

Definition dequeueAll {T} (pq : t T) : list T := drain (length pq) pq.

(** A sequence of [insert] calls on a fresh queue. *)
Definition insertAll {T} (items : list (T * Q)) : t T :=
fold_left (fun pq it => insert pq (fst it) (snd it)) items new.

End PriorityQueue.

(** ** AStar.ts *)

(** [ary[i]] for an integer index: [undefined] outside the array. *)
Definition getIdx {A} (ary : list A) (i : Z) : option A :=
  if i <? 0 then None else ary !! Z.to_nat i.

(** The values [start, start+2, start+4, ...] below [stop]
    ([for (let i = start; i < stop; i += 2)]). *)
Definition stepRange (start stop : Z) : list Z :=
  (fun i => start + 2 * i) <$> seqZ 0 ((stop - start + 1) / 2).

Module AStar.

(** [class Vertex extends Point] *)
Record Vertex : Type := mkVertex { vx : Z; vy : Z; cost : Q }.

Definition vpoint (v : Vertex) : Point := mkPoint (vx v) (vy v).
Definition vkey (v : Vertex) : Key := key (vpoint v).

Record t : Type := mkAStar {
adjacencies : gmap Key (list Vertex);
grid : list (list Vertex)
}.

(** The vertex the constructor stores at [grid[x][y]]: its cost is the
draw of that cell times [(width + height) / 10].  The cells are
filled column by column, so cell [(x, y)] takes draw number
[x * height + y] of the random stream. *)
Definition cell (width height : Z) (rnd : nat -> Q) (x y : Z) : Vertex :=
mkVertex x y (rnd (Z.to_nat (x * height + y)) * inject_Z (width + height) / 10).

Definition offsets : list (Z * Z) := [(1, 1); (-1, 1); (-1, -1); (1, -1)].

Definition inBounds (width height newX newY : Z) : bool :=
(0 <=? newX) && (newX <? width) && (0 <=? newY) && (newY <? height).

(** [generateAdjacencies(n, width, height)]; [lookup newX newY] stands for
[this.grid[newX][newY]], read only under the bounds test. *)
Definition generateAdjacencies (lookup : Z -> Z -> Vertex) (n : Vertex)
(width height : Z) : list Vertex :=
omap (fun off : Z * Z =>
let newX := vx n + off.1 in
let newY := vy n + off.2 in
if inBounds width height newX newY then Some (lookup newX newY) else None)
offsets.

(** One of the two nested loops that fill [adjacencies], starting at
[(from, from)] and stepping by 2 in both directions. *)
Definition fillAdjacencies (lookup : Z -> Z -> Vertex) (width height from : Z)
(adj : gmap Key (list Vertex)) : gmap Key (list Vertex) :=
fold_left (fun adj x =>
fold_left (fun adj y =>
<[vkey (lookup x y) := generateAdjacencies lookup (lookup x y) width height]> adj)
(stepRange from height) adj)
(stepRange from width) adj.

(** [new AStar(width, height)] *)
Definition new (width height : Z) (rnd : nat -> Q) : t :=
let lookup := cell width height rnd in
let grid := (fun x => (fun y => lookup x y) <$> seqZ 0 height) <$> seqZ 0 width in
let adj := fillAdjacencies lookup width height 1
(fillAdjacencies lookup width height 0 ∅) in
mkAStar adj grid.

(** [getVertex(x, y)]: [this.grid[x][y]].  Reading [[y]] of an undefined
column throws; a missing row entry is [undefined]. *)
Definition getVertex (a : t) (x y : Z) : outcome (option Vertex) :=
match getIdx (grid a) x with
| None => TypeError
| Some col => Ok (getIdx col y)
end.

(** [manhattanDistance(a, b)]; [b] may be [undefined], and reading [b.x]
then throws. *)
Definition manhattanDistance (a : Vertex) (b : option Vertex) : outcome Z :=
match b with
| None => TypeError
| Some b => Ok (Z.abs (vx a - vx b) + Z.abs (vy a - vy b))
end.

(** [Math.sqrt(2)] as the double it evaluates to. *)
Definition sqrt2 : Q := 6369051672525773 # 4503599627370496.

Definition ltb (a b : Q) : bool := negb (Qle_bool b a).

(** The mutable locals of [find]. *)
Record search : Type := mkSearch {
frontier : PriorityQueue.t Vertex;
costs : gmap Key Q;
origin : gmap Key (option Vertex)   (* [Some None] is a stored [null] *)
}.

(** Body of [for (let v of this.adjacencies[current.key()])].
[costs[current.key()]] is read again for every neighbour.  It is
always present when the body runs (lemma [search_costs_current]); the
model stops with [OutOfFuel] instead of computing with [NaN] should it
ever be missing. *)
Definition relax (endV : option Vertex) (current : Vertex) (s : search)
(v : Vertex) : outcome search :=
match costs s !! vkey current with
| None => OutOfFuel
| Some c =>
let newCost := (c + cost v)%Q in
let improves :=
match costs s !! vkey v with
| None => true
| Some old => ltb newCost old
end in
if improves then
d ← manhattanDistance v endV;
let prio := (newCost + inject_Z d / sqrt2)%Q in
Ok (mkSearch (PriorityQueue.insert (frontier s) v prio)
(<[vkey v := newCost]> (costs s))
(<[vkey v := Some current]> (origin s)))
else Ok s
end.

Fixpoint relaxAll (endV : option Vertex) (current : Vertex) (s : search)
(vs : list Vertex) : outcome search :=
match vs with
| [] => Ok s
| v :: rest => s' ← relax endV current s v; relaxAll endV current s' rest
end.

(** How the [while] loop of [find] was left: by [break] on the end vertex
(or on an undefined [current]), or because the frontier ran empty. *)
Inductive exit : Type := ByBreak | ByEmpty.

(** [current === endV]: the vertices of one grid are distinct objects
with distinct coordinates, so identity is equality of keys. *)
Definition sameVertex (current : Vertex) (endV : option Vertex) : bool :=
match endV with
| None => false
| Some e => bool_decide (vkey current = vkey e)
end.

(** The [while (frontier.length > 0)] loop. *)
Fixpoint searchLoop (fuel : nat) (a : t) (endV : option Vertex) (s : search)
: outcome (exit * search) :=
match fuel with
| O => OutOfFuel
| S fuel' =>
if (0 <? PriorityQueue.length (frontier s))%nat then
let '(current, fr) := PriorityQueue.dequeue (frontier s) in
let s1 := mkSearch fr (costs s) (origin s) in
match current with
| None => Ok (ByBreak, s1)
| Some current =>
if sameVertex current endV then Ok (ByBreak, s1)
else
match adjacencies a !! vkey current with
| None => TypeError
| Some vs =>
s2 ← relaxAll endV current s1 vs;
searchLoop fuel' a endV s2
end
end
else Ok (ByEmpty, s)
end.

(** The backtrace loop: [while (current != null)]. *)
Fixpoint backtrace (fuel : nat) (origin : gmap Key (option Vertex))
(current : option Vertex) (path : list Vertex) : outcome (list Vertex) :=
match current with
| None => Ok path
| Some c =>
match fuel with
| O => OutOfFuel
| S fuel' =>
backtrace fuel' origin
(match origin !! vkey c with Some o => o | None => None end)
(path ++ [c])
end
end.

(** State of [find] when the [while] loop is entered. *)
Definition initSearch (startV : Vertex) : search :=
mkSearch (PriorityQueue.insert PriorityQueue.new startV 0)
{[vkey startV := 0%Q]}
{[vkey startV := None]}.

(** The first half of [find], up to the end of the [while] loop. *)
Definition runSearch (fuel : nat) (a : t) (start end_ : Point)
: outcome (option Vertex * (exit * search)) :=
startV ← getVertex a (x start) (y start);
endV ← getVertex a (x end_) (y end_);
match startV with
| None => TypeError          (* [startV.key()] on undefined *)
| Some startV =>
r ← searchLoop fuel a endV (initSearch startV);
Ok (endV, r)
end.

(** [find(start, end)] *)
Definition find (fuel : nat) (a : t) (start end_ : Point) : outcome (list Point) :=
'(endV, (_, s)) ← runSearch fuel a start end_;
path ← backtrace fuel (origin s) endV [];
Ok (vpoint <$> rev path).

End AStar.

(** ** Doubles

A JavaScript [number] is an IEEE-754 binary64 value, and [*] and [+]
round to the nearest double, ties to even.  Where a non-integer literal
takes part in the arithmetic the rounding is visible, and the
operations are those of the Standard Library's specification of
binary64 ([SpecFloat], precision 53, maximal exponent 1024). *)

Module Double.

Definition prec : Z := 53.
Definition emax : Z := 1024.

(** [a * b] and [a + b] *)
Definition mul : spec_float -> spec_float -> spec_float := SFmul prec emax.
Definition add : spec_float -> spec_float -> spec_float := SFadd prec emax.

(** An integer as a double: itself below [2^53] (lemma [ofZ_exact]), the
nearest double beyond. *)
Definition ofZ (z : Z) : spec_float := binary_normalize prec emax z 0 false.

(** A draw of [Math.random()] as a double.  A double is a dyadic
rational, [n / 2^k] in lowest terms, and [ofQ] maps it to itself (lemma
[ofQ_exact]). *)
Definition ofQ (q : Q) : spec_float :=
let q := Qred q in
binary_normalize prec emax (Qnum q) (- Z.log2 (Z.pos (Qden q))) false.

(** The exact value of a finite double. *)
Definition toQ (d : spec_float) : Q :=
match d with
| S754_finite s m e =>
let z := if s then Z.neg m else Z.pos m in
match e with
| Z.neg k => z # (2 ^ k)
| _ => inject_Z (z * 2 ^ e)
end
| _ => 0
end.

(** [r < d] for a finite double of exact value [r]; every comparison with
[NaN] is false. *)
Definition lt (r : Q) (d : spec_float) : bool :=
match d with
| S754_infinity s => negb s
| S754_nan => false
| _ => negb (Qle_bool (toQ d) r)
end.

(** [Math.floor(d)] for a finite [d]. *)
Definition floor (d : spec_float) : Z :=
match d with
| S754_finite s m e => Z.shiftl (if s then Z.neg m else Z.pos m) e
| _ => 0
end.

(** The literal [0.1]: the double nearest to 1/10,
[0x1.999999999999ap-4]. *)
Definition tenth : spec_float := S754_finite false 7205759403792794 (-56).

End Double.

(** ** MapNode.ts *)

Module MapNode.

(** [class MapNode extends Point].  [parents] and [children] hold
references to other [MapNode]s, here their keys.  [portrait] is set by
the callback of [getPortrait]; the model records the catalogue index
that was requested for the node. *)
Record t : Type := mkNode {
pos : Point;
distSinceFight : Z;
portrait : option Z;
isBoss : bool;
parents : list Key;
children : list Key
}.

(** [new MapNode(x, y)] *)
Definition new (p : Point) : t := mkNode p (-1) None false [] [].

Definition setDist (d : Z) (n : t) : t :=
mkNode (pos n) d (portrait n) (isBoss n) (parents n) (children n).
Definition setPortrait (i : Z) (n : t) : t :=
mkNode (pos n) (distSinceFight n) (Some i) (isBoss n) (parents n) (children n).
Definition setBoss (b : bool) (n : t) : t :=
mkNode (pos n) (distSinceFight n) (portrait n) b (parents n) (children n).

(** [array.find(mn => mn.equals(k)) == null ? push : nothing] *)
Definition pushNew (k : Key) (ks : list Key) : list Key :=
if existsb (fun k' => bool_decide (k' = k)) ks then ks else ks ++ [k].

Definition addParent (parent : Key) (n : t) : t :=
mkNode (pos n) (distSinceFight n) (portrait n) (isBoss n)
(pushNew parent (parents n)) (children n).

Definition addChild (child : Key) (n : t) : t :=
mkNode (pos n) (distSinceFight n) (portrait n) (isBoss n)
(parents n) (pushNew child (children n)).

Definition getChildren (n : t) : list Key := children n.

End MapNode.

(** The registry of node objects.  A reference that the registry does not
    hold cannot exist in the source; dereferencing it in the model yields
    the freshly constructed node of that coordinate. *)
Definition deref (nodes : gmap Key MapNode.t) (k : Key) : MapNode.t :=
  default (MapNode.new (mkPoint k.1 k.2)) (nodes !! k).

(** The loop [for (let p of this.parents)] of [hasAncestor(key)];
    [recurse p] stands for the call [p.hasAncestor(key)]. *)
Fixpoint anyParent (recurse : Key -> outcome bool) (k : Key) (ps : list Key)
    : outcome bool :=
  match ps with
  | [] => Ok false
  | p :: rest =>
      if bool_decide (p = k) then Ok true
      else
        b ← recurse p;
        if b : bool then Ok true else anyParent recurse k rest
  end.

(** [hasAncestor(key)] on the node referenced by [this].  The recursion
    follows [parents]; it does not return on a cyclic parent relation. *)
Fixpoint hasAncestor_fuel (fuel : nat) (nodes : gmap Key MapNode.t) (this k : Key)
    : outcome bool :=
  match fuel with
  | O => OutOfFuel
  | S fuel' =>
      anyParent (fun p => hasAncestor_fuel fuel' nodes p k) k
                (MapNode.parents (deref nodes this))
  end.

(** The loop [for (let p of this.parents)] of [getAncestors()];
    [recurse p] stands for the call [p.getAncestors()]. *)
Fixpoint collectParents (recurse : Key -> outcome (list Key)) (ps : list Key)
    (ancestorKeys : list Key) : outcome (list Key) :=
  match ps with
  | [] => Ok ancestorKeys
  | p :: rest =>
      up ← recurse p;
      collectParents recurse rest (ancestorKeys ++ p :: up)
  end.

(** [getAncestors()] *)
Fixpoint getAncestors_fuel (fuel : nat) (nodes : gmap Key MapNode.t) (this : Key)
    : outcome (list Key) :=
  match fuel with
  | O => OutOfFuel
  | S fuel' =>
      collectParents (getAncestors_fuel fuel' nodes)
                     (MapNode.parents (deref nodes this)) []
  end.

(** A chain of parents in a registry without cycles visits every node at
    most once, so a recursion depth above the number of nodes is never
    needed (lemmas [hasAncestor_fuel_enough], [getAncestors_fuel_enough]). *)
Definition hasAncestor (nodes : gmap Key MapNode.t) (this k : Key) : outcome bool :=
  hasAncestor_fuel (S (size nodes)) nodes this k.

Definition getAncestors (nodes : gmap Key MapNode.t) (this : Key) : outcome (list Key) :=
  getAncestors_fuel (S (size nodes)) nodes this.

(** ** index.ts: transitions and graph building *)

(** [type Transitions = Record<string, Point[]>] *)
Abbreviation Transitions := (gmap Key (list Point)).

(** [if (ary.find(p => p.equals(q)) == null) ary.push(q)] *)
Definition pushPoint (ary : list Point) (q : Point) : list Point :=
  if existsb (fun p => equals p q) ary then ary else ary ++ [q].

(** One iteration of the loop of [populateTransitions]. *)
Definition populateStep (pathNodes : list Point) (transitions : Transitions) (i : nat)
    : Transitions :=
  match pathNodes !! i with
  | None => transitions
  | Some pi =>
      let transAry := default [] (transitions !! key pi) in
      let transAry :=
        match i with
        | O => transAry
        | S j => match pathNodes !! j with
                 | Some prev => pushPoint transAry prev
                 | None => transAry
                 end
        end in
      let transAry :=
        match pathNodes !! S i with
        | Some next => pushPoint transAry next
        | None => transAry
        end in
      <[key pi := transAry]> transitions
  end.

Definition populateTransitions (pathNodes : list Point) (transitions : Transitions)
    : Transitions :=
  fold_left (populateStep pathNodes) (seq 0 (length pathNodes)) transitions.

(** The loop [for (let p of transitions[startKey])] of [canReachEnd] and
    the two statements after it; [recurse k history] stands for the
    recursive call on [k].  [history] is one array shared by all calls; a
    call returns it next to its answer. *)
Fixpoint eachTransition (recurse : Key -> list Key -> outcome (bool * list Key))
    (ps : list Point) (history : list Key) : outcome (bool * list Key) :=
  match ps with
  | [] => Ok (false, removelast history)         (* [history.pop(); return false] *)
  | p :: rest =>
      if negb (bool_decide (key p ∈ history)) then
        '(b, history') ← recurse (key p) history;
        if b : bool then Ok (true, history') else eachTransition recurse rest history'
      else eachTransition recurse rest history
  end.

(** [canReachEnd(startKey, endKey, transitions, history)]; [fuel] bounds
    the recursion depth. *)
Fixpoint canReachEnd_fuel (fuel : nat) (startKey endKey : Key)
    (transitions : Transitions) (history : list Key) : outcome (bool * list Key) :=
  match fuel with
  | O => OutOfFuel
  | S fuel' =>
      if bool_decide (startKey = endKey) then Ok (true, history)
      else
        let history := history ++ [startKey] in
        match transitions !! startKey with
        | None => TypeError
        | Some ps =>
            eachTransition (fun k h => canReachEnd_fuel fuel' k endKey transitions h)
                           ps history
        end
  end.

(** Every recursive call pushes a key of the table that is not in
    [history] yet, so the depth never exceeds the size of the table by more
    than two (lemma [canReachEnd_fuel_enough]). *)
Definition canReachEnd (startKey endKey : Key) (transitions : Transitions)
    (history : list Key) : outcome (bool * list Key) :=
  canReachEnd_fuel (size transitions + 2) startKey endKey transitions history.

(** The mutable locals of [nodesFromTransitions]. *)
Record build : Type := mkBuild {
  nodeRefs : gmap Key MapNode.t;
  currPoints : list Point
}.

(** [nodeRefs[testPoint.key()] ??= new MapNode(testPoint.x, testPoint.y)] *)
Definition ensureNode (testPoint : Point) (refs : gmap Key MapNode.t)
    : gmap Key MapNode.t :=
  match refs !! key testPoint with
  | Some _ => refs
  | None => <[key testPoint := MapNode.new testPoint]> refs
  end.

(** [testNode.addParent(currNode); currNode.addChild(testNode)] *)
Definition linkNodes (currKey testKey : Key) (refs : gmap Key MapNode.t)
    : gmap Key MapNode.t :=
  let refs := <[testKey := MapNode.addParent currKey (deref refs testKey)]> refs in
  <[currKey := MapNode.addChild testKey (deref refs currKey)]> refs.

(** Body of [for (let testPoint of transPoints)]. *)
Definition linkStep (end_ : Point) (transitions : Transitions) (currKey : Key)
    (b : build) (testPoint : Point) : outcome build :=
  let testKey := key testPoint in
  let refs := ensureNode testPoint (nodeRefs b) in
  isAnc ← hasAncestor refs currKey testKey;
  if isAnc : bool then Ok (mkBuild refs (currPoints b))
  else
    ancestors ← getAncestors refs currKey;
    '(reach, _) ← canReachEnd testKey (key end_) transitions (ancestors ++ [currKey]);
    if reach : bool then
      Ok (mkBuild (linkNodes currKey testKey refs)
            (if equals testPoint end_ then currPoints b else currPoints b ++ [testPoint]))
    else Ok (mkBuild refs (currPoints b)).

Fixpoint linkAll (end_ : Point) (transitions : Transitions) (currKey : Key)
    (b : build) (transPoints : list Point) : outcome build :=
  match transPoints with
  | [] => Ok b
  | testPoint :: rest =>
      b' ← linkStep end_ transitions currKey b testPoint;
      linkAll end_ transitions currKey b' rest
  end.

(** The [while (currPoints.length > 0)] loop. *)
Fixpoint buildLoop (fuel : nat) (end_ : Point) (transitions : Transitions) (b : build)
    : outcome (gmap Key MapNode.t) :=
  match fuel with
  | O => OutOfFuel
  | S fuel' =>
      match currPoints b with
      | [] => Ok (nodeRefs b)
      | currPoint :: rest =>
          match nodeRefs b !! key currPoint with
          | None => Ok (nodeRefs b)            (* [console.error]; [break] *)
          | Some currNode =>
              match transitions !! key (MapNode.pos currNode) with
              | None => TypeError
              | Some transPoints =>
                  b' ← linkAll end_ transitions (key (MapNode.pos currNode))
                         (mkBuild (nodeRefs b) rest) transPoints;
                  buildLoop fuel' end_ transitions b'
              end
          end
      end
  end.

Definition initBuild (start end_ : Point) : build :=
  mkBuild (<[key end_ := MapNode.new end_]> {[key start := MapNode.new start]}) [start].

Definition nodesFromTransitions (fuel : nat) (start end_ : Point)
    (transitions : Transitions) : outcome (gmap Key MapNode.t) :=
  buildLoop fuel end_ transitions (initBuild start end_).

(** ** index.ts: staging *)

(** [interface PathSegment { n1, n2 }], the two ends being node references. *)
Record PathSegment : Type := mkSegment { n1 : Key; n2 : Key }.

(** [interface AnimationSteps { paths, nodes }] *)
Record AnimationSteps : Type := mkSteps {
  paths : list (list PathSegment);
  nodes : list (list Key)
}.

(** [containsPath(paths, path)] *)
Definition sameSegment (path p : PathSegment) : bool :=
  (bool_decide (n1 p = n1 path) && bool_decide (n2 p = n2 path))
  || (bool_decide (n2 p = n1 path) && bool_decide (n1 p = n2 path)).

Definition containsPath (paths : list PathSegment) (path : PathSegment) : bool :=
  negb (length (List.filter (sameSegment path) paths) =? 0)%nat.

(** Lines 387-390: the child joins [childNodes] unless some committed
    step already shows it or [childNodes] holds it. *)
Definition addChildNode (shown childNodes : list Key) (childNode : Key) : list Key :=
  if negb (existsb (fun mn => bool_decide (mn = childNode)) shown)
     && negb (bool_decide (childNode ∈ childNodes))
  then childNodes ++ [childNode] else childNodes.

(** Lines 392-400: the segment joins [currentPaths] unless a committed
    step or [currentPaths] already holds it or its reverse. *)
Definition addPath (shown currentPaths : list PathSegment) (p : PathSegment)
    : list PathSegment :=
  if negb (containsPath shown p) && negb (containsPath currentPaths p)
  then currentPaths ++ [p] else currentPaths.

Section Staging.

(** [Math.random()]: the [i]-th call returns the double of exact value
[rnd i]. *)
Variable rnd : nat -> Q.
(** [portraitPaths.length], from the portrait catalogue (not part of the
modelled sources). *)
Variable numPortraits : Z.

(** The registry together with the cursor of the random stream. *)
Record world : Type := mkWorld {
registry : gmap Key MapNode.t;
cursor : nat
}.

Definition update (k : Key) (f : MapNode.t -> MapNode.t) (w : world) : world :=
mkWorld (<[k := f (deref (registry w) k)]> (registry w)) (cursor w).

(** [getPortrait(p => node.portrait = p)]: one draw selects the index. *)
Definition getPortrait (k : Key) (w : world) : world :=
let idx := Double.floor (Double.mul (Double.ofQ (rnd (cursor w))) (Double.ofZ numPortraits)) in
mkWorld (<[k := MapNode.setPortrait idx (deref (registry w) k)]> (registry w))
(S (cursor w)).

(** The fight roll of lines 402-419 for one (currentNode, childNode) pair. *)
Definition rollFight (currentNode childNode : Key) (w : world) : world :=
let cur := MapNode.distSinceFight (deref (registry w) currentNode) in
let chl := MapNode.distSinceFight (deref (registry w) childNode) in
if (chl =? -1) || (cur + 1 <? chl) then
let r := rnd (cursor w) in
let w := mkWorld (registry w) (S (cursor w)) in
if Double.lt r (Double.add (Double.mul Double.tenth (Double.ofZ cur)) Double.tenth) then
getPortrait childNode (update childNode (MapNode.setDist 0) w)
else
update childNode (MapNode.setDist (Z.max (cur + 1) 1)) w
else w.

(** State of the callback of [currentNodes.map]: what the loop body has
accumulated for the step under construction. *)
Record sweep : Type := mkSweep {
sworld : world;
spaths : list PathSegment          (* [currentPaths] *)
}.

(** Body of [for (let childNode of currentNode.getChildren())]. *)
Definition visitChild (steps : AnimationSteps) (currentNode : Key)
(acc : sweep * list Key) (childNode : Key) : sweep * list Key :=
let '(s, childNodes) := acc in
(mkSweep (rollFight currentNode childNode (sworld s))
(addPath (concat (paths steps)) (spaths s) (mkSegment currentNode childNode)),
addChildNode (concat (nodes steps)) childNodes childNode).

(** The callback of [currentNodes.map]. *)
Definition visitNode (steps : AnimationSteps) (s : sweep) (currentNode : Key)
: sweep * list Key :=
fold_left (visitChild steps currentNode)
(MapNode.getChildren (deref (registry (sworld s)) currentNode))
(s, []).

(** [currentNodes.map(...)]: the callbacks run in order and share the
side effects; the result is the list of their return values. *)
Fixpoint mapNodes (steps : AnimationSteps) (s : sweep) (currentNodes : list Key)
: sweep * list (list Key) :=
match currentNodes with
| [] => (s, [])
| currentNode :: rest =>
let '(s1, childNodes) := visitNode steps s currentNode in
let '(s2, others) := mapNodes steps s1 rest in
(s2, childNodes :: others)
end.

(** The [while (currentNodes.length > 0 || currentPaths.length > 0)] loop. *)
Fixpoint stageLoop (fuel : nat) (steps : AnimationSteps) (w : world)
(currentNodes : list Key) (currentPaths : list PathSegment)
: outcome (AnimationSteps * world) :=
match fuel with
| O => OutOfFuel
| S fuel' =>
if (0 <? length currentNodes)%nat || (0 <? length currentPaths)%nat then
let steps := mkSteps (paths steps ++ [currentPaths]) (nodes steps ++ [currentNodes]) in
let '(s, mapped) := mapNodes steps (mkSweep w []) currentNodes in
let currentNodes := unique (concat mapped) (fun a b => bool_decide (a = b)) in
stageLoop fuel' steps (sworld s) currentNodes (spaths s)
else Ok (steps, w)
end.

(** The registry after the lines that prepare [startNode] and [endNode]
(lines 347-353); the portrait of the end node takes the first draw. *)
Definition prepare (start end_ : Point) (nodes : gmap Key MapNode.t) : world :=
let w := update (key start) (MapNode.setDist 1) (mkWorld nodes 0) in
let w := update (key end_) (MapNode.setDist 0) w in
let w := update (key end_) (MapNode.setBoss true) w in
getPortrait (key end_) w.

(** The part of [buildAnimationSteps] that follows the call of
[nodesFromTransitions].  Writing a field of [nodes[start.key()]] or
[nodes[end.key()]] throws when the registry has no such node. *)
Definition stage (fuel : nat) (start end_ : Point) (nodes : gmap Key MapNode.t)
: outcome (AnimationSteps * world) :=
match nodes !! key start, nodes !! key end_ with
| Some _, Some _ =>
stageLoop fuel (mkSteps [] []) (prepare start end_ nodes) [key start] []
| _, _ => TypeError
end.

(** [buildAnimationSteps(start, end, transitions)] *)
Definition buildAnimationSteps (fuel : nat) (start end_ : Point)
(transitions : Transitions) : outcome (AnimationSteps * world) :=
nodes ← nodesFromTransitions fuel start end_ transitions;
stage fuel start end_ nodes.

End Staging.

(** ** Notions used to state the properties *)

(** Reading the fields of the node a key refers to. *)
Definition childrenOf (reg : gmap Key MapNode.t) (k : Key) : list Key :=
  MapNode.children (deref reg k).
Definition parentsOf (reg : gmap Key MapNode.t) (k : Key) : list Key :=
  MapNode.parents (deref reg k).
Definition distOf (reg : gmap Key MapNode.t) (k : Key) : Z :=
  MapNode.distSinceFight (deref reg k).
Definition bossOf (reg : gmap Key MapNode.t) (k : Key) : bool :=
  MapNode.isBoss (deref reg k).
Definition portraitOf (reg : gmap Key MapNode.t) (k : Key) : option Z :=
  MapNode.portrait (deref reg k).

(** Two queue scenarios: increasing priorities, and equal priorities. *)
Definition twoIncreasing : PriorityQueue.t nat :=
  PriorityQueue.insertAll [(1%nat, 1%Q); (2%nat, 2%Q)].
Definition twoEqual : PriorityQueue.t nat :=
  PriorityQueue.insertAll [(1%nat, 5%Q); (2%nat, 5%Q)].

(** A node is reachable from [start] through child links. *)
Inductive reach (G : Key -> list Key) (start : Key) : Key -> Prop :=
| reach_start : reach G start start
| reach_child u v : reach G start u -> v ∈ G u -> reach G start v.

(** References lead to nodes of the registry (in the source a reference
    always designates an existing object). *)
Definition closed (reg : gmap Key MapNode.t) : Prop :=
  forall k c, is_Some (reg !! k) -> c ∈ childrenOf reg k -> is_Some (reg !! c).

(** The (currentNode, childNode) pairs that one sweep over [batch] visits,
    in the order of the visits. *)
Definition pairsOf (G : Key -> list Key) (batch : list Key) : list (Key * Key) :=
  c ← batch; (fun ch => (c, ch)) <$> G c.

Definition segmentOf (p : Key * Key) : PathSegment := mkSegment p.1 p.2.

(** The world after the fight rolls of a sequence of visits. *)
Definition worldAfter (rnd : nat -> Q) (numPortraits : Z) (w : world)
    (visits : list (Key * Key)) : world :=
  fold_left (fun w p => rollFight rnd numPortraits p.1 p.2 w) visits w.

(** How many segments of a list are the edge [p], in either direction. *)
Definition occurrences (p : PathSegment) (ps : list PathSegment) : nat :=
  length (List.filter (sameSegment p) ps).

(** The steps computed by the staging loop do not depend on the fields the
    loop mutates; [stagePure] is that loop reduced to the child links [G]
    (lemma [stageLoop_pure] relates the two). *)
Definition nextNodes (G : Key -> list Key) (shown currentNodes : list Key) : list Key :=
  unique (concat ((fun c => fold_left (addChildNode shown) (G c) []) <$> currentNodes))
         (fun a b => bool_decide (a = b)).

Definition nextPaths (G : Key -> list Key) (shown : list PathSegment)
    (currentNodes : list Key) : list PathSegment :=
  fold_left (addPath shown) (segmentOf <$> pairsOf G currentNodes) [].

Fixpoint stagePure (fuel : nat) (G : Key -> list Key) (steps : AnimationSteps)
    (currentNodes : list Key) (currentPaths : list PathSegment) : option AnimationSteps :=
  match fuel with
  | O => None
  | S fuel' =>
      if (0 <? length currentNodes)%nat || (0 <? length currentPaths)%nat then
        let steps := mkSteps (paths steps ++ [currentPaths]) (nodes steps ++ [currentNodes]) in
        stagePure fuel' G steps
          (nextNodes G (concat (nodes steps)) currentNodes)
          (nextPaths G (concat (paths steps)) currentNodes)
      else Some steps
  end.

(** Every node of a batch after the first has a parent in the batch just
    before it. *)
Definition levelled (G : Key -> list Key) (batches : list (list Key)) : Prop :=
  forall i b v, batches !! S i = Some b -> v ∈ b ->
    exists bu u, batches !! i = Some bu /\ u ∈ bu /\ v ∈ G u.

(** What holds whenever the staging loop tests its condition: [steps] are
    the committed steps, [cur] and [cps] the step under construction. *)
Record stageInv (G : Key -> list Key) (start : Key) (steps : AnimationSteps)
    (cur : list Key) (cps : list PathSegment) : Prop := mkStageInv {
  inv_nodup : NoDup (concat (nodes steps) ++ cur);
  inv_reach : forall k, k ∈ concat (nodes steps) ++ cur -> reach G start k;
  inv_start : start ∈ concat (nodes steps) ++ cur;
  inv_closed : forall u v, u ∈ concat (nodes steps) -> v ∈ G u ->
                 v ∈ concat (nodes steps) ++ cur;
  inv_levelled : levelled G (nodes steps ++ [cur]);
  inv_next : forall i b u v, nodes steps !! i = Some b -> u ∈ b -> v ∈ G u ->
               exists j b', (j <= S i)%nat /\ (nodes steps ++ [cur]) !! j = Some b' /\ v ∈ b';
  inv_once : forall q, (occurrences q (concat (paths steps) ++ cps) <= 1)%nat;
  inv_edges : forall u v, u ∈ concat (nodes steps) -> v ∈ G u ->
                (0 < occurrences (mkSegment u v) (concat (paths steps) ++ cps))%nat;
  inv_sound : forall p, p ∈ concat (paths steps) ++ cps ->
                n1 p ∈ concat (nodes steps) /\ n2 p ∈ G (n1 p)
}.

(** What the finished steps satisfy. *)
Record staged (G : Key -> list Key) (start : Key) (steps : AnimationSteps) : Prop :=
  mkStaged {
  st_nodup : NoDup (concat (nodes steps));
  st_reach : forall k, k ∈ concat (nodes steps) <-> reach G start k;
  st_edges : forall u v, reach G start u -> v ∈ G u ->
               occurrences (mkSegment u v) (concat (paths steps)) = 1%nat;
  st_sound : forall p, p ∈ concat (paths steps) ->
               reach G start (n1 p) /\ n2 p ∈ G (n1 p);
  st_levelled : levelled G (nodes steps);
  st_next : forall i b u v, nodes steps !! i = Some b -> u ∈ b -> v ∈ G u ->
              exists j b', (j <= S i)%nat /\ nodes steps !! j = Some b' /\ v ∈ b'
}.

(** An upper bound on the number of iterations the staging loop still
    makes, [N] bounding the number of reachable nodes. *)
Definition sweepsLeft (N : nat) (steps : AnimationSteps) (cur : list Key)
    (cps : list PathSegment) : nat :=
  match cur, cps with
  | [], [] => 0
  | [], _ :: _ => 1
  | _ :: _, _ => N - length (concat (nodes steps) ++ cur) + 2
  end.

(** ** Concrete scenarios *)

(** The chain of specification scenario 6. *)
Definition chainStart : Point := mkPoint 0 0.
Definition chainEnd : Point := mkPoint 2 2.
Definition chainTransitions : Transitions :=
  <[(2, 2) := [mkPoint 1 1]]>
    (<[(1, 1) := [mkPoint 0 0; mkPoint 2 2]]>
       {[(0, 0) := [mkPoint 1 1]]}).
Definition chainSteps : AnimationSteps :=
  mkSteps [[]; [mkSegment (0, 0) (1, 1)]; [mkSegment (1, 1) (2, 2)]]
          [[(0, 0)]; [(1, 1)]; [(2, 2)]].

(** The registry that graph building yields for the chain. *)
Definition chainNodes : gmap Key MapNode.t :=
  <[(2, 2) := MapNode.mkNode chainEnd (-1) None false [(1, 1)] []]>
    (<[(1, 1) := MapNode.mkNode (mkPoint 1 1) (-1) None false [(0, 0)] [(2, 2)]]>
       {[(0, 0) := MapNode.mkNode chainStart (-1) None false [] [(1, 1)]]}).

(** A main path of four moves and a sub path of two moves between the same
    two points, merged into one table as [run] does. *)
Definition detourStart : Point := mkPoint 0 2.
Definition detourEnd : Point := mkPoint 2 2.
Definition detourMain : list Point :=
  [mkPoint 0 2; mkPoint 1 3; mkPoint 2 4; mkPoint 3 3; mkPoint 2 2].
Definition detourSub : list Point := [mkPoint 0 2; mkPoint 1 1; mkPoint 2 2].
Definition detourTransitions : Transitions :=
  populateTransitions detourSub (populateTransitions detourMain ∅).

(** A random source whose every draw is 0. *)
Definition zeroDraws : nat -> Q := fun _ => 0%Q.

(** The child of an edge lies in a later batch than its parent. *)
Definition childAfterParent (reg : gmap Key MapNode.t) (steps : AnimationSteps) : Prop :=
  forall u v i j bi bj,
    v ∈ childrenOf reg u ->
    nodes steps !! i = Some bi -> u ∈ bi ->
    nodes steps !! j = Some bj -> v ∈ bj ->
    (i < j)%nat.

(** ** Notions used for the fight rolls *)

(** Every node is as its constructor leaves it: unresolved and no boss. *)
Definition fresh (reg : gmap Key MapNode.t) : Prop :=
  forall k n, reg !! k = Some n ->
    MapNode.distSinceFight n = -1 /\ MapNode.isBoss n = false.

(** A sequence of visits in which every visiting node is one of [B] or was
    the child of an earlier visit. *)
Inductive ordered : list Key -> list (Key * Key) -> Prop :=
| ordered_nil B : ordered B []
| ordered_cons B c ch vs : c ∈ B -> ordered (ch :: B) vs -> ordered B ((c, ch) :: vs).

(** No [distSinceFight] is below -1, and the nodes of [B] are resolved. *)
Definition resolved (w : world) (B : list Key) : Prop :=
  (forall k, -1 <= distOf (registry w) k)
  /\ (forall k, k ∈ B -> 0 <= distOf (registry w) k).

(** ** Notions used for reachability in a transition table *)

(** Every point a table lists has an entry of its own, as in every table
    that [populateTransitions] fills. *)
Definition wellFormed (T : Transitions) : Prop :=
  forall k ps p, T !! k = Some ps -> p ∈ ps -> is_Some (T !! key p).

(** [follows T k l e]: starting at [k], the table allows to enter the keys
    of [l] one after the other, and the last key entered is [e] ([k] itself
    when [l] is empty). *)
Fixpoint follows (T : Transitions) (k : Key) (l : list Key) (e : Key) : Prop :=
  match l with
  | [] => k = e
  | k' :: l' => (exists ps p, T !! k = Some ps /\ p ∈ ps /\ key p = k') /\ follows T k' l' e
  end.

(** A path from [s] to [e] that enters no key of [avoid]. *)
Definition route (T : Transitions) (avoid : list Key) (s e : Key) : Prop :=
  exists l, follows T s l e /\ Forall (fun k => k ∉ avoid) l.

(** What the depth-first search of [canReachEnd] finds: a path that never
    enters a key of the history as it stands when the key is entered. *)
Inductive found (T : Transitions) (e : Key) : list Key -> Key -> Prop :=
| found_end h : found T e h e
| found_step h s ps p :
    s ≠ e -> T !! s = Some ps -> p ∈ ps -> key p ∉ h ++ [s] ->
    found T e (h ++ [s]) (key p) -> found T e h s.

(** The number of keys of the table that [history] does not hold. *)
Definition unvisited (T : Transitions) (history : list Key) : nat :=
  size (dom T ∖ list_to_set history).

(** ** Notions used for the grid search *)

(** The [length] field of the frontier agrees with its array, and the end
    vertex, once it has an [origin] entry, waits in the frontier. *)
Definition tracked (endV : option AStar.Vertex) (s : AStar.search) : Prop :=
  PriorityQueue.length (AStar.frontier s) = length (PriorityQueue.queue (AStar.frontier s))
  /\ forall ev, endV = Some ev -> is_Some (AStar.origin s !! AStar.vkey ev) ->
       exists en, en ∈ PriorityQueue.queue (AStar.frontier s)
                  /\ AStar.vkey (PriorityQueue.data en) = AStar.vkey ev.

(** A grid one column wide: its even cells have no diagonal neighbour. *)
Definition narrowGrid : AStar.t := AStar.new 1 3 zeroDraws.

(** ** Notions used for graph building *)

(** [a] is an ancestor of [c] along the parent lists [P]. *)
Inductive anc (P : Key -> list Key) : Key -> Key -> Prop :=
| anc_parent a c : a ∈ P c -> anc P a c
| anc_step a p c : p ∈ P c -> anc P a p -> anc P a c.

(** Every chain of parents that starts at [k] has at most [n] nodes. *)
Fixpoint heightLe (n : nat) (P : Key -> list Key) (k : Key) : Prop :=
  match n with
  | O => False
  | S n' => Forall (heightLe n' P) (P k)
  end.

(** No point of the table is listed as its own neighbour. *)
Definition noSelf (T : Transitions) : Prop :=
  forall k ps p, T !! k = Some ps -> p ∈ ps -> key p ≠ k.

(** The table that [run] fills from a list of paths. *)
Definition tableOf (pathsNodes : list (list Point)) : Transitions :=
  fold_left (fun T pathNodes => populateTransitions pathNodes T) pathsNodes ∅.

(** What holds of the registry throughout graph building, for the table
    [T] and the end key [e]. *)
Record graphInv (T : Transitions) (e : Key) (reg : gmap Key MapNode.t) : Prop :=
  mkGraphInv {
  gi_sym : forall p c, c ∈ childrenOf reg p <-> p ∈ parentsOf reg c;
  gi_acyclic : forall k, ~ anc (parentsOf reg) k k;
  gi_closed : forall p c, c ∈ childrenOf reg p -> is_Some (reg !! p) /\ is_Some (reg !! c);
  gi_edges : forall p c, c ∈ childrenOf reg p ->
               (exists ps pt, T !! p = Some ps /\ pt ∈ ps /\ key pt = c) /\ route T [] c e;
  gi_keys : forall k n, reg !! k = Some n -> key (MapNode.pos n) = k;
  gi_fresh : fresh reg
}.

(** Every point the table lists has an entry, or is one of [pending]. *)
Definition listedKnown (pending : list Key) (T : Transitions) : Prop :=
  forall k ps p, T !! k = Some ps -> p ∈ ps -> is_Some (T !! key p) \/ key p ∈ pending.

(** ** Notions used for the termination of graph building *)

(** The largest number of neighbours that an entry of the table lists. *)
Definition maxDegree (T : Transitions) : nat :=
  max_list ((fun kv : Key * list Point => length kv.2) <$> map_to_list T).

(** [l] continues a chain of child links [C] that has reached [u]. *)
Fixpoint chainFrom (C : Key -> list Key) (u : Key) (l : list Key) : Prop :=
  match l with
  | [] => True
  | v :: l' => v ∈ C u /\ chainFrom C v l'
  end.

(** A trail of a queued point [z]: the keys of a chain of child links from
    [start] to [z] that visits no key twice.  Every entry of the work queue
    has one, namely the way it was discovered. *)
Definition trailOf (T : Transitions) (reg : gmap Key MapNode.t) (start z : Key)
    (trail : list Key) : Prop :=
  (exists l, trail = start :: l /\ chainFrom (childrenOf reg) start l)
  /\ last trail = Some z
  /\ NoDup trail
  /\ forall k, k ∈ trail -> is_Some (T !! k) /\ is_Some (reg !! k).

(** The work that a queue entry can still cause: an entry with a trail of
    [n] keys can push at most [maxDegree] entries, with trails of [n + 1]
    keys, and no trail has more keys than the table. *)
Definition trailWeight (T : Transitions) (trail : list Key) : nat :=
  S (maxDegree T) ^ (size T - length trail).

Definition queueWeight (T : Transitions) (trails : list (list Key)) : nat :=
  sum_list_with (trailWeight T) trails.

(** ** Notions used for the paths of the grid search *)

(** A vertex of the grid that has an adjacency list: it is the vertex the
    constructor stored for its coordinates, inside the grid, and its
    coordinates are both even or both odd. *)
Definition gridVertex (W H : Z) (rnd : nat -> Q) (v : AStar.Vertex) : Prop :=
  v = AStar.cell W H rnd (AStar.vx v) (AStar.vy v)
  /\ 0 <= AStar.vx v < W /\ 0 <= AStar.vy v < H
  /\ Z.even (AStar.vx v + AStar.vy v) = true.

Definition inGrid (W H : Z) (p : Point) : Prop := 0 <= x p < W /\ 0 <= y p < H.

(** [q] is one diagonal move away from [p]. *)
Definition diagonal (p q : Point) : Prop :=
  Z.abs (x q - x p) = 1 /\ Z.abs (y q - y p) = 1.

(** Every point lies in the grid and every two consecutive points are one
    diagonal move apart. *)
Fixpoint diagonalPath (W H : Z) (l : list Point) : Prop :=
  match l with
  | [] => True
  | p :: rest =>
      inGrid W H p
      /\ match rest with [] => True | q :: _ => diagonal p q end
      /\ diagonalPath W H rest
  end.

(** [k] leads back to the start key [s] in [n] steps along [origin]. *)
Inductive chained (origin : gmap Key (option AStar.Vertex)) (s : Key) : nat -> Key -> Prop :=
| chained_start : chained origin s 0 s
| chained_step n k u :
    k ≠ s -> origin !! k = Some (Some u) -> chained origin s n (AStar.vkey u) ->
    chained origin s (S n) k.

(** A rational that is a whole multiple of [1 / D]. *)
Definition costUnit (D : positive) (c : Q) : Prop :=
  exists n : Z, (c * inject_Z (Zpos D) == inject_Z n)%Q.

(** The keys of all cells of the grid, and a common denominator of their
    costs. *)
Definition cells (W H : Z) : list Key :=
  cx ← seqZ 0 W; (fun cy => (cx, cy)) <$> seqZ 0 H.

Definition denominator (W H : Z) (rnd : nat -> Q) : positive :=
  foldr (fun k d => (Qden (AStar.cost (AStar.cell W H rnd k.1 k.2)) * d)%positive)
        1%positive (cells W H).

(** The two components of the measure that decreases whenever the search
    records a cost: the number of cells without a cost, and the sum of the
    recorded costs in units of [1 / D]. *)
Definition unknown (costs : gmap Key Q) (ks : list Key) : nat :=
  sum_list_with (fun k => match costs !! k with None => 1 | Some _ => 0 end)%nat ks.

Definition scaled (D : positive) (costs : gmap Key Q) (ks : list Key) : nat :=
  sum_list_with
    (fun k => match costs !! k with
              | Some c => Z.to_nat (Qfloor (c * inject_Z (Zpos D)))
              | None => 0%nat
              end) ks.

(** What holds of the locals of [find] throughout the search from the
    vertex [sv] in the grid [new W H rnd]. *)
Record searchInv (W H : Z) (rnd : nat -> Q) (sv : AStar.Vertex) (s : AStar.search) : Prop :=
  mkSearchInv {
  si_length : PriorityQueue.length (AStar.frontier s)
              = length (PriorityQueue.queue (AStar.frontier s));
  si_queue : forall en, en ∈ PriorityQueue.queue (AStar.frontier s) ->
               gridVertex W H rnd (PriorityQueue.data en)
               /\ is_Some (AStar.costs s !! AStar.vkey (PriorityQueue.data en));
  si_start : AStar.costs s !! AStar.vkey sv = Some 0%Q
             /\ AStar.origin s !! AStar.vkey sv = Some None;
  si_dom : forall k, is_Some (AStar.costs s !! k) <-> is_Some (AStar.origin s !! k);
  si_costs : forall k c, AStar.costs s !! k = Some c ->
               (0 <= c)%Q /\ costUnit (denominator W H rnd) c
               /\ (exists v, gridVertex W H rnd v /\ AStar.vkey v = k)
               /\ exists n, chained (AStar.origin s) (AStar.vkey sv) n k;
  si_origin : forall k u, AStar.origin s !! k = Some (Some u) ->
                gridVertex W H rnd u
                /\ (exists v, v ∈ AStar.generateAdjacencies (AStar.cell W H rnd) u W H
                              /\ AStar.vkey v = k)
                /\ exists cu ck, AStar.costs s !! AStar.vkey u = Some cu
                                 /\ AStar.costs s !! k = Some ck /\ (cu <= ck)%Q
}.

(** Every vertex with a recorded cost waits in the frontier, or all its
    neighbours have a recorded cost, or it is one of [exc]. *)
Definition frontierClosed (W H : Z) (rnd : nat -> Q) (exc : list Key) (s : AStar.search)
    : Prop :=
  forall v, gridVertex W H rnd v -> is_Some (AStar.costs s !! AStar.vkey v) ->
    AStar.vkey v ∈ exc
    \/ (exists en, en ∈ PriorityQueue.queue (AStar.frontier s)
                   /\ AStar.vkey (PriorityQueue.data en) = AStar.vkey v)
    \/ (forall u, u ∈ AStar.generateAdjacencies (AStar.cell W H rnd) v W H ->
          is_Some (AStar.costs s !! AStar.vkey u)).

(** The measure of a search state, ordered lexicographically. *)
Definition lexlt (m m' : nat * nat) : Prop :=
  (m.1 < m'.1)%nat \/ (m.1 = m'.1 /\ (m.2 < m'.2)%nat).

Definition searchMeasure (W H : Z) (rnd : nat -> Q) (s : AStar.search) : nat * nat :=
  (unknown (AStar.costs s) (cells W H),
   scaled (denominator W H rnd) (AStar.costs s) (cells W H)).

(** A set of cells that contains, with every cell, the cells one diagonal
    move away inside the grid. *)
Definition diagClosed (W H : Z) (C : Z -> Z -> Prop) : Prop :=
  forall cx cy dx dy, C cx cy -> (dx = 1 \/ dx = -1) -> (dy = 1 \/ dy = -1) ->
    0 <= cx + dx < W -> 0 <= cy + dy < H -> C (cx + dx) (cy + dy).

(** ** helpers.ts: evensInRange *)

(** [evensInRange(start, end)] on integers.  [Math.floor] of a half is the
    floor division, and [%] is the remainder that takes the sign of the
    dividend.  The integer arithmetic is that of the doubles as long as
    every intermediate value stays below [2^53]: for [start] and [end] of
    magnitude at most [2^51], far beyond the size of a map. *)
Definition evensInRange (start end_ : Z) : Z := (end_ - start + 2 - Z.rem start 2) / 2.

(** The even integers from [start] to [end_], both included. *)
Definition evensBetween (start end_ : Z) : list Z :=
  List.filter Z.even (seqZ start (end_ - start + 1)).

(** ** PriorityQueue.ts: ordered queues *)

(** A queue whose priorities never decrease from the head on. *)
Fixpoint ascending {T} (q : list (PriorityQueue.PQueueEntry T)) : Prop :=
  match q with
  | [] => True
  | e :: rest =>
      Forall (fun e' => (PriorityQueue.priority e <= PriorityQueue.priority e')%Q) rest
      /\ ascending rest
  end.

(** ** index.ts: the points that [run] searches between *)

(** The start point of the main path (lines 272-278); [r] is the draw of
    [Math.random()].  [nodesHigh / 2] is a division of numbers. *)
Definition mainStart (nodesHigh : Z) (r : Q) : Point :=
  let half := Qceiling (inject_Z nodesHigh / 2) in
  mkPoint 0
    (Qceiling (inject_Z half / 2) * 2
     + Qfloor (r * inject_Z (evensInRange half (nodesHigh - 1))) * 2).

(** The end point of the main path (lines 279-284). *)
Definition mainEnd (nodesWide nodesHigh : Z) (r : Q) : Point :=
  mkPoint (nodesWide - 1)
    (Qfloor (r * inject_Z (evensInRange 0 (Qfloor (inject_Z (nodesHigh - 1) / 2)))) * 2
     + (if Z.rem nodesWide 2 =? 0 then 1 else 0)).

(** The indices of the two ends of the sub path in a main path of [len]
    points (lines 289-293). *)
Definition subStartIdx (len : Z) (r : Q) : Z := Qfloor (r * inject_Z len).

Definition subEndIdx (len subStart : Z) (r : Q) : Z :=
  let offset := Qfloor (r * inject_Z (len - 30)) + 15 in
  Z.rem (subStart + offset) len.

(** A draw of [Math.random()]: at least 0 and less than 1. *)
Definition isDraw (r : Q) : Prop := (0 <= r)%Q /\ (r < 1)%Q.

(** ** index.ts: run *)

(** The part of [run] that computes the steps to animate (lines 250-305);
    the canvases are not modelled, [nodesWide] and [nodesHigh] are what
    lines 250-253 compute from their sizes.  [Math.random()] is called once
    by [drawBackground], then once per cell by the constructor of the grid,
    then for the two ends of the main path, for the two ends of the sub
    path, and last by [buildAnimationSteps].  Reading [.x] of a point that
    [path[i]] does not hold throws. *)
Definition run (fuel : nat) (numPortraits nodesWide nodesHigh : Z) (rnd : nat -> Q)
    : outcome (AnimationSteps * world) :=
  let cells := (Z.to_nat nodesWide * Z.to_nat nodesHigh)%nat in
  let as_ := AStar.new nodesWide nodesHigh (fun i => rnd (1 + i)%nat) in
  path ← AStar.find fuel as_
            (mainStart nodesHigh (rnd (1 + cells)%nat))
            (mainEnd nodesWide nodesHigh (rnd (2 + cells)%nat));
  let len := Z.of_nat (length path) in
  let subStartIdx := subStartIdx len (rnd (3 + cells)%nat) in
  let subEndIdx := subEndIdx len subStartIdx (rnd (4 + cells)%nat) in
  match getIdx path subStartIdx, getIdx path subEndIdx with
  | Some subStart, Some subEnd =>
      subPath ← AStar.find fuel as_ subStart subEnd;
      let transitions := populateTransitions subPath (populateTransitions path ∅) in
      match head path, last path with
      | Some start, Some end_ =>
          buildAnimationSteps (fun i => rnd (5 + cells + i)%nat) numPortraits
            fuel start end_ transitions
      | _, _ => TypeError
      end
  | _, _ => TypeError
  end.

(** ** Notions used for the recursion over parents *)

(** A set of nodes in which every node has a parent and all parents of its
    nodes lie: a chain of parents that starts in it never ends. *)
Definition rootless (reg : gmap Key MapNode.t) (S : list Key) : Prop :=
  Forall (fun a => parentsOf reg a ≠ [] /\ Forall (fun p => p ∈ S) (parentsOf reg a)) S.

(** Two nodes that are each other's parent. *)
Definition loopNodes : gmap Key MapNode.t :=
  <[(1, 1) := MapNode.mkNode (mkPoint 1 1) (-1) None false [(0, 0)] [(0, 0)]]>
    {[(0, 0) := MapNode.mkNode (mkPoint 0 0) (-1) None false [(1, 1)] [(1, 1)]]}.

(** ** Notions used for the contents of a transition table *)

(** The entry of [k1] lists a point with key [k2]. *)
Definition listed (T : Transitions) (k1 k2 : Key) : Prop :=
  exists ps pt, T !! k1 = Some ps /\ pt ∈ ps /\ key pt = k2.

(** Points with the keys [k1] and [k2] follow one another in [pathNodes],
    in either order. *)
Definition adjacentIn (pathNodes : list Point) (k1 k2 : Key) : Prop :=
  exists i p q, pathNodes !! i = Some p /\ pathNodes !! S i = Some q
    /\ ((key p = k1 /\ key q = k2) \/ (key p = k2 /\ key q = k1)).

(** What the first [n] iterations of the loop of [populateTransitions] add
    to the entry of [k1]: the neighbours of the occurrences of [k1] among
    the first [n] points. *)
Definition addedBy (pathNodes : list Point) (n : nat) (k1 k2 : Key) : Prop :=
  exists i p q, (i < n)%nat /\ pathNodes !! i = Some p /\ key p = k1 /\ key q = k2
    /\ (pathNodes !! S i = Some q \/ exists j, i = S j /\ pathNodes !! j = Some q).

(** ** Notions used for the two ends of the graph *)

(** What holds of the parent and child lists throughout graph building
    from the start key [s] to the end key [e]: no list holds a key twice,
    the start node has no parent, every node that has a parent descends
    from the start node, and the end node has no child. *)
Record rooted (s e : Key) (refs : gmap Key MapNode.t) : Prop := mkRooted {
  ro_nodup : forall k, NoDup (childrenOf refs k) /\ NoDup (parentsOf refs k);
  ro_root : parentsOf refs s = [];
  ro_desc : forall c, parentsOf refs c ≠ [] -> anc (parentsOf refs) s c;
  ro_sink : s ≠ e -> childrenOf refs e = []
}.

(** A key that waits in [currPoints], or is being resolved: it is the
    start key or has a parent, and it is not the end key (unless that is
    the start key). *)
Definition pendingOk (s e : Key) (refs : gmap Key MapNode.t) (q : Key) : Prop :=
  (q = s \/ parentsOf refs q ≠ []) /\ (s ≠ e -> q ≠ e).

(** ** Notions used for the range of [distSinceFight] *)

(** No [distSinceFight] is below -1 or above 9, and the nodes of [B] are
    resolved. *)
Definition bounded (w : world) (B : list Key) : Prop :=
  (forall k, -1 <= distOf (registry w) k <= 9)
  /\ (forall k, k ∈ B -> 0 <= distOf (registry w) k).

(** ** helpers.ts: lerp *)

(** [lerp(a, b, ratio)], on rationals. *)
Definition lerp (a b ratio : Q) : Q := (a + ratio * (b - a))%Q.

(** ** index.ts: runAnimation *)

(** [msPerStep] and [nodeFadeTime]. *)
Definition msPerStep : Q := 1000.
Definition nodeFadeTime : Q := 250.

(** [Math.min] on rationals. *)
Definition minQ (a b : Q) : Q := if Qle_bool a b then a else b.

(** The locals of [runAnimation] that its callback [animStep] updates. *)
Record animation : Type := mkAnimation {
  animStart : option Q;           (* [None] until the first frame *)
  lastStepCommitted : Z
}.

(** What one frame draws.  The canvases are not modelled; a frame is
    recorded by the steps it commits to the permanent canvases, the step it
    animates with [prcComplete] and [alpha], and the call of [onComplete]. *)
Inductive drawn : Type :=
| Committed (step : Z)
| Animated (step : Z) (prcComplete alpha : Q)
| Completed.

(** The loop [for (let step = lastStepCommitted+1; step < stepNum; step++)]:
    iterating over [steps.paths[step]] or [steps.nodes[step]] throws when
    the array has no such batch. *)
Fixpoint commitAll (steps : AnimationSteps) (idxs : list Z) : outcome (list drawn) :=
  match idxs with
  | [] => Ok []
  | step :: rest =>
      match getIdx (paths steps) step, getIdx (nodes steps) step with
      | Some _, Some _ => r ← commitAll steps rest; Ok (Committed step :: r)
      | _, _ => TypeError
      end
  end.

(** One call of [animStep(time)]: the new locals, what the frame draws, and
    whether another frame is requested. *)
Definition animStep (steps : AnimationSteps) (a : animation) (time : Q)
    : outcome (animation * list drawn * bool) :=
  let start := default time (animStart a) in              (* [animStart ??= time] *)
  let n := Z.of_nat (length (nodes steps)) in
  let stepNum := Z.min (Qfloor ((time - start) / msPerStep)) n in
  let prcComplete := ((time - start - inject_Z stepNum * msPerStep) / msPerStep)%Q in
  '(committed, last) ←
    (if bool_decide (stepNum ≠ lastStepCommitted a + 1) then
       c ← commitAll steps
             (seqZ (lastStepCommitted a + 1) (stepNum - (lastStepCommitted a + 1)));
       Ok (c, stepNum - 1)
     else Ok ([], lastStepCommitted a));
  let a' := mkAnimation (Some start) last in
  if stepNum <? n then
    match getIdx (paths steps) stepNum, getIdx (nodes steps) stepNum with
    | Some _, Some _ =>
        let remainingMs := (inject_Z (stepNum + 1) * msPerStep - (time - start))%Q in
        let alpha := lerp 0 1 ((nodeFadeTime - minQ remainingMs nodeFadeTime) / nodeFadeTime) in
        Ok (a', committed ++ [Animated stepNum prcComplete alpha], true)
    | _, _ => TypeError
    end
  else Ok (a', committed ++ [Completed], false).

(** The frames that follow one another through [requestAnimationFrame],
    [frames] being the times the browser passes to them. *)
Fixpoint animate (steps : AnimationSteps) (a : animation) (frames : list Q)
    : outcome (list drawn) :=
  match frames with
  | [] => Ok []
  | time :: rest =>
      '(a', evs, again) ← animStep steps a time;
      if again : bool then r ← animate steps a' rest; Ok (evs ++ r) else Ok evs
  end.

(** [runAnimation(steps, onComplete)] *)
Definition runAnimation (steps : AnimationSteps) (frames : list Q) : outcome (list drawn) :=
  animate steps (mkAnimation None (-1)) frames.

(** A well-formed record of an animation of [n] steps of which the first
    [m] are committed: steps are committed one after the other; a frame
    animates the first step that is not committed, part of the way; and
    [onComplete] is called last, when all steps are committed. *)
Fixpoint replay (n m : Z) (evs : list drawn) : Prop :=
  match evs with
  | [] => True
  | Committed step :: rest => step = m /\ m < n /\ replay n (m + 1) rest
  | Animated step prcComplete alpha :: rest =>
      step = m /\ m < n
      /\ (0 <= prcComplete)%Q /\ (prcComplete < 1)%Q
      /\ (0 <= alpha)%Q /\ (alpha < 1)%Q
      /\ replay n m rest
  | Completed :: rest => m = n /\ rest = []
  end.

(** Times that never decrease. *)
Fixpoint nondecreasing (frames : list Q) : Prop :=
  match frames with
  | [] => True
  | t :: rest => Forall (fun t' => (t <= t')%Q) rest /\ nondecreasing rest
  end.

(** * Properties *)

(** ** PriorityQueue *)

Section PriorityQueueFacts.
Import PriorityQueue.
Context {T : Type}.

(** When no entry has a greater priority, the loop leaves [insertIdx] at
its initial value. *)
Lemma insertIdx_none (q : list (PQueueEntry T)) prio i :
Forall (fun e => gtb (priority e) prio = false) q -> insertIdx q prio i = 0%nat.
Proof.
intros H. revert i. induction H as [|e q He _ IH]; intros i; simpl; [done|].
rewrite He. apply IH.
Qed.

(** Such an entry is therefore placed at the head of the queue. *)
Lemma insert_front (pq : t T) d prio :
Forall (fun e => gtb (priority e) prio = false) (queue pq) ->
queue (insert pq d prio) = mkEntry d prio :: queue pq.
Proof.
intros H. unfold insert, splice. simpl. rewrite (insertIdx_none _ _ _ H).
by rewrite take_0, drop_0.
Qed.

(** [insert] adds exactly one entry and keeps the others in their order. *)
Lemma insert_split (pq : t T) d prio :
exists l1 l2, queue pq = l1 ++ l2 /\ queue (insert pq d prio) = l1 ++ mkEntry d prio :: l2.
Proof.
exists (take (insertIdx (queue pq) prio 0) (queue pq)),
(drop (insertIdx (queue pq) prio 0) (queue pq)).
split; [by rewrite take_drop | done].
Qed.

Lemma insert_length (pq : t T) d prio :
length (insert pq d prio) = List.length (queue (insert pq d prio)).
Proof. done. Qed.

Lemma insert_elem (pq : t T) d prio e :
e ∈ queue (insert pq d prio) <-> e = mkEntry d prio \/ e ∈ queue pq.
Proof.
destruct (insert_split pq d prio) as (l1 & l2 & -> & ->).
rewrite !elem_of_app, elem_of_cons. tauto.
Qed.

End PriorityQueueFacts.

(** C1 (the code departs from it).  Items inserted with priorities 1 and
    then 2 are dequeued as 2, 1: the priorities come out in decreasing
    order.  Items inserted with one and the same priority are dequeued in
    the reverse of their insertion order.  Both follow from [insert_front]:
    an item that no queued entry exceeds is spliced in at index 0. *)
Theorem PriorityQueue_dequeue_order_broken :
  PriorityQueue.dequeueAll twoIncreasing = [2%nat; 1%nat]
  /\ PriorityQueue.dequeueAll twoEqual = [2%nat; 1%nat].
Proof. split; reflexivity. Qed.

(** ** The registry *)

Lemma deref_insert_eq (reg : gmap Key MapNode.t) k n : deref (<[k := n]> reg) k = n.
Proof. unfold deref. by rewrite lookup_insert_eq. Qed.

Lemma deref_insert_ne (reg : gmap Key MapNode.t) k k' n :
  k ≠ k' -> deref (<[k := n]> reg) k' = deref reg k'.
Proof. intros H. unfold deref. by rewrite lookup_insert_ne. Qed.

Lemma deref_lookup (reg : gmap Key MapNode.t) k n : reg !! k = Some n -> deref reg k = n.
Proof. intros H. unfold deref. by rewrite H. Qed.

Lemma ltb_lt (a b : Q) : AStar.ltb a b = true <-> (a < b)%Q.
Proof.
  unfold AStar.ltb. rewrite negb_true_iff, <- not_true_iff_false, Qle_bool_iff.
  split; [apply Qnot_le_lt | apply Qlt_not_le].
Qed.

Lemma ltb_ge (a b : Q) : AStar.ltb a b = false <-> (b <= a)%Q.
Proof.
  unfold AStar.ltb. rewrite negb_false_iff. apply Qle_bool_iff.
Qed.

(** ** The fight roll *)

(** ** Doubles *)

(** The literal [0.1] is the quotient of 1 by 10, rounded. *)
Lemma tenth_nearest :
  SFdiv Double.prec Double.emax (Double.ofZ 1) (Double.ofZ 10) = Double.tenth.
Proof. by vm_compute. Qed.

(** The number of binary digits of a mantissa. *)
Lemma digits2_size p : digits2_pos p = Pos.size p.
Proof. induction p; simpl; congruence. Qed.

Lemma digits2_iter p d : digits2_pos (Pos.iter xO p d) = (digits2_pos p + d)%positive.
Proof.
  induction d using Pos.peano_ind.
  - simpl. lia.
  - rewrite Pos.iter_succ. simpl. rewrite IHd. lia.
Qed.

Lemma iter_xO p d : Z.pos (Pos.iter xO p d) = Z.pos p * 2 ^ Z.pos d.
Proof.
  induction d using Pos.peano_ind.
  - simpl. lia.
  - rewrite Pos.iter_succ, Pos2Z.inj_xO, IHd, Pos2Z.inj_succ, Z.pow_succ_r by lia. lia.
Qed.

Lemma digits2_bound p : Z.pos p < 2 ^ 53 -> Z.pos (digits2_pos p) <= 53.
Proof.
  intros Hp. rewrite digits2_size.
  pose proof (Pos.size_le p) as Hle.
  destruct (Z_le_gt_dec (Z.pos (Pos.size p)) 53) as [|Hgt]; [done|].
  assert (2 ^ 54 <= 2 ^ Z.pos (Pos.size p)) as H1 by (apply Z.pow_le_mono_r; lia).
  assert (2 ^ Z.pos (Pos.size p) <= Z.pos p~0) as H2.
  { rewrite <- Pos2Z.inj_pow. apply Pos2Z.pos_le_pos. exact Hle. }
  rewrite Pos2Z.inj_xO in H2. lia.
Qed.

(** Rounding a mantissa of at most 53 bits with an exponent in range
    changes nothing but the representation. *)
Lemma binary_round_exact sx mx ex :
  Z.pos mx < 2 ^ 53 -> -1074 <= ex -> Z.pos (digits2_pos mx) + ex <= 1024 ->
  exists m' e', binary_round Double.prec Double.emax sx mx ex = S754_finite sx m' e'
                /\ e' <= ex /\ Z.pos m' = Z.pos mx * 2 ^ (ex - e').
Proof.
  intros Hmx Hex Hmax. pose proof (digits2_bound mx Hmx) as Hd.
  unfold binary_round, Double.prec, Double.emax.
  set (f := fexp 53 1024 (Z.pos (digits2_pos mx) + ex)).
  assert (f = Z.max (Z.pos (digits2_pos mx) + ex - 53) (-1074)) as Hf by reflexivity.
  assert (f <= ex) as Hfe by lia.
  assert (exists mz, shl_align mx ex f = (mz, f) /\ Z.pos mz = Z.pos mx * 2 ^ (ex - f)
                     /\ Z.pos (digits2_pos mz) = Z.pos (digits2_pos mx) + (ex - f))
    as (mz & -> & Hmz & Hdz).
  { unfold shl_align. destruct (f - ex) as [|p|p] eqn:Hfx; [|lia|].
    - exists mx. assert (f = ex) as -> by lia. rewrite Z.sub_diag. split_and!; [done|lia|lia].
    - exists (Pos.iter xO mx p). replace (ex - f) with (Z.pos p) by lia.
      split_and!; [done|apply iter_xO|]. rewrite digits2_iter. lia. }
  unfold binary_round_aux, shr_fexp. cbn [Zdigits2 shr_record_of_loc].
  assert (fexp 53 1024 (Z.pos (digits2_pos mz) + f) - f = 0) as ->.
  { rewrite Hdz. replace (Z.pos (digits2_pos mx) + (ex - f) + f)
      with (Z.pos (digits2_pos mx) + ex) by lia. fold f. lia. }
  cbn [shr shr_m loc_of_shr_record round_nearest_even Zdigits2 shr_record_of_loc].
  assert (fexp 53 1024 (Z.pos (digits2_pos mz) + f) - f = 0) as ->.
  { rewrite Hdz. replace (Z.pos (digits2_pos mx) + (ex - f) + f)
      with (Z.pos (digits2_pos mx) + ex) by lia. fold f. lia. }
  cbn [shr shr_m].
  assert ((f <=? 1024 - 53) = true) as -> by (apply Z.leb_le; lia).
  exists mz, f. done.
Qed.

(** A divisor of a power of two is a power of two. *)
Lemma pow2_divisor j : 0 <= j -> forall b, 0 < b -> (b | 2 ^ j) -> exists i, 0 <= i <= j /\ b = 2 ^ i.
Proof.
  intros Hj. pattern j. apply natlike_ind; [| |exact Hj]; clear j Hj.
  - intros b Hb Hdiv. exists 0. split; [lia|]. simpl in Hdiv.
    apply Z.divide_1_r_nonneg in Hdiv; lia.
  - intros j Hj IH b Hb Hdiv. rewrite Z.pow_succ_r in Hdiv by done.
    destruct (Z.even b) eqn:He.
    + apply Z.even_spec in He as [c ->].
      apply Z.mul_divide_cancel_l in Hdiv; [|lia].
      destruct (IH c ltac:(lia) Hdiv) as (i & Hi & ->).
      exists (Z.succ i). split; [lia|]. by rewrite Z.pow_succ_r by lia.
    + assert (Z.gcd b 2 = 1) as Hg.
      { rewrite <- Z.negb_odd in He. apply negb_false_iff in He.
        apply Z.odd_spec in He as [c ->].
        rewrite Z.gcd_comm. replace (2 * c + 1) with (1 + c * 2) by lia.
        rewrite Z.gcd_add_mult_diag_r. apply Z.gcd_1_r. }
      apply Z.gauss in Hdiv; [|done].
      destruct (IH b Hb Hdiv) as (i & Hi & ->). exists i. split; [lia|done].
Qed.

(** The value of a double whose mantissa was shifted to a lower exponent. *)
Lemma toQ_finite s m mx e i :
  e <= - i -> 0 <= i -> Z.pos m = Z.pos mx * 2 ^ (- i - e) ->
  Double.toQ (S754_finite s m e) == (if s then Z.neg mx else Z.pos mx) # Z.to_pos (2 ^ i).
Proof.
  intros He Hi Hm. unfold Double.toQ.
  assert (0 < 2 ^ i) as Hpos by (apply Z.pow_pos_nonneg; lia).
  assert ((if s then Z.neg m else Z.pos m)
          = (if s then Z.neg mx else Z.pos mx) * 2 ^ (- i - e)) as ->.
  { destruct s; [|done]. rewrite <- !Pos2Z.opp_pos, Hm. lia. }
  destruct e as [|k|k].
  - assert (i = 0) as -> by lia. unfold Qeq, inject_Z. cbn [Qnum Qden].
    change (- 0 - 0) with 0. change (2 ^ 0) with 1. change (Z.to_pos 1) with 1%positive. lia.
  - lia.
  - unfold Qeq. cbn [Qnum Qden]. rewrite Z2Pos.id by done. rewrite Pos2Z.inj_pow.
    replace (- i - Z.neg k) with (Z.pos k - i) by lia.
    rewrite <- Z.mul_assoc, <- Z.pow_add_r by lia.
    replace (Z.pos k - i + i) with (Z.pos k) by lia. done.
Qed.

(** A double with a significand below [2^53] and a denominator of at
    most [2^1074] is read as itself. *)
Lemma ofQ_exact (q : Q) (n j : Z) :
  Z.abs n < 2 ^ 53 -> 0 <= j <= 1074 -> (q * inject_Z (2 ^ j) == inject_Z n)%Q ->
  (Double.toQ (Double.ofQ q) == q)%Q.
Proof.
  intros Hn Hj Hq. unfold Double.ofQ.
  apply Qeq_trans with (Qred q); [|apply Qred_correct].
  assert (Qred q * inject_Z (2 ^ j) == inject_Z n)%Q as Hq'
    by (rewrite Qred_correct; exact Hq).
  clear Hq.
  assert (Z.gcd (Qnum (Qred q)) (Z.pos (Qden (Qred q))) = 1) as Hg.
  { apply gcd_Qred. }
  destruct (Qred q) as [a b]. cbn [Qnum Qden] in *.
  assert (0 < 2 ^ j) as Hpj by (apply Z.pow_pos_nonneg; lia).
  assert (a * 2 ^ j = n * Z.pos b) as Hab.
  { unfold Qeq, Qmult, inject_Z in Hq'. cbn in Hq'. lia. }
  destruct (pow2_divisor j ltac:(lia) (Z.pos b) ltac:(lia)) as (i & Hi & Hb).
  { apply (Z.gauss _ a); [|by rewrite Z.gcd_comm]. exists n. lia. }
  assert (0 < 2 ^ i) as Hpi by (apply Z.pow_pos_nonneg; lia).
  assert (Z.abs a <= Z.abs n) as Han.
  { assert (2 ^ i <= 2 ^ j) by (apply Z.pow_le_mono_r; lia). nia. }
  rewrite Hb, Z.log2_pow2 by lia.
  assert (b = Z.to_pos (2 ^ i)) as -> by lia.
  unfold binary_normalize. destruct a as [|mx|mx].
  - done.
  - destruct (binary_round_exact false mx (- i)) as (m' & e' & -> & He' & Hm'); [lia|lia|..].
    { pose proof (digits2_bound mx ltac:(lia)). lia. }
    apply (toQ_finite false); [lia|lia|done].
  - destruct (binary_round_exact true mx (- i)) as (m' & e' & -> & He' & Hm'); [lia|lia|..].
    { pose proof (digits2_bound mx ltac:(lia)). lia. }
    apply (toQ_finite true); [lia|lia|done].
Qed.

(** A safe integer is a double. *)
Lemma ofZ_exact (z : Z) : Z.abs z < 2 ^ 53 -> (Double.toQ (Double.ofZ z) == inject_Z z)%Q.
Proof.
  intros Hz. unfold Double.ofZ, binary_normalize. destruct z as [|mx|mx].
  - done.
  - destruct (binary_round_exact false mx 0) as (m' & e' & -> & He' & Hm'); [lia|lia|..].
    { pose proof (digits2_bound mx ltac:(lia)). lia. }
    apply (toQ_finite false _ _ _ 0); [lia|lia|done].
  - destruct (binary_round_exact true mx 0) as (m' & e' & -> & He' & Hm'); [lia|lia|..].
    { pose proof (digits2_bound mx ltac:(lia)). lia. }
    apply (toQ_finite true _ _ _ 0); [lia|lia|done].
Qed.

(** [0.1*d + 0.1] for the distances 0 to 9: the doubles printed as 0.1,
    0.2, 0.30000000000000004, 0.4, 0.5, 0.6, 0.7000000000000001, 0.8, 0.9
    and 1.  Those for 2 and 6 lie above 3/10 and 7/10, the others are the
    doubles nearest to (d+1)/10. *)
Lemma chance_values :
  (fun d => Qred (Double.toQ (Double.add (Double.mul Double.tenth (Double.ofZ d))
                                Double.tenth))) <$> seqZ 0 10
  = [ 3602879701896397 # 36028797018963968;
      3602879701896397 # 18014398509481984;
      1351079888211149 # 4503599627370496;
      3602879701896397 # 9007199254740992;
      1 # 2;
      5404319552844595 # 9007199254740992;
      6305039478318695 # 9007199254740992;
      3602879701896397 # 4503599627370496;
      8106479329266893 # 9007199254740992;
      1 ]%Q.
Proof. by vm_compute. Qed.

Section RollFight.
Variable rnd : nat -> Q.
Variable numPortraits : Z.

Local Abbreviation roll := (rollFight rnd numPortraits).

(** [0.1*d + 0.1] in doubles. *)
Local Abbreviation chance d :=
(Double.add (Double.mul Double.tenth (Double.ofZ d)) Double.tenth).

(** [Math.floor(r * portraitPaths.length)] in doubles. *)
Local Abbreviation pick r :=
(Double.floor (Double.mul (Double.ofQ r) (Double.ofZ numPortraits))).

(** The guard of the roll fails: nothing at all is changed, and no draw
is consumed. *)
Lemma rollFight_skip cur ch w :
distOf (registry w) ch ≠ -1 ->
distOf (registry w) ch <= distOf (registry w) cur + 1 ->
roll cur ch w = w.
Proof.
intros Hne Hle. unfold rollFight, distOf in *.
destruct (Z.eqb_spec (MapNode.distSinceFight (deref (registry w) ch)) (-1)); [done|].
destruct (Z.ltb_spec (MapNode.distSinceFight (deref (registry w) cur) + 1)
(MapNode.distSinceFight (deref (registry w) ch))); [lia|done].
Qed.

(** A roll touches no node other than the child. *)
Lemma rollFight_other cur ch w k :
k ≠ ch -> deref (registry (roll cur ch w)) k = deref (registry w) k.
Proof.
intros Hk. unfold rollFight.
destruct (_ || _); [|done].
destruct (Double.lt _ _); simpl; by rewrite ?deref_insert_ne.
Qed.

(** The guard holds: the draw decides between a fight, with a portrait
chosen by the next draw, and one more step since the last fight. *)
Lemma rollFight_drawn cur ch w :
distOf (registry w) ch = -1 \/ distOf (registry w) cur + 1 < distOf (registry w) ch ->
(Double.lt (rnd (cursor w)) (chance (distOf (registry w) cur)) = true ->
distOf (registry (roll cur ch w)) ch = 0
/\ portraitOf (registry (roll cur ch w)) ch = Some (pick (rnd (S (cursor w)))))
/\ (Double.lt (rnd (cursor w)) (chance (distOf (registry w) cur)) = false ->
distOf (registry (roll cur ch w)) ch = Z.max (distOf (registry w) cur + 1) 1
/\ portraitOf (registry (roll cur ch w)) ch = portraitOf (registry w) ch).
Proof.
intros Hguard. unfold rollFight, distOf in *.
set (pd := MapNode.distSinceFight (deref (registry w) cur)) in *.
set (cd := MapNode.distSinceFight (deref (registry w) ch)) in *.
assert ((cd =? -1) || (pd + 1 <? cd) = true) as ->.
{ apply orb_true_iff. destruct Hguard; [left; lia | right; lia]. }
split; intros Hr; rewrite Hr.
- unfold portraitOf, getPortrait, update. simpl. rewrite !deref_insert_eq. done.
- unfold portraitOf, update. simpl. rewrite !deref_insert_eq. done.
Qed.

(** C8.  One relaxation of a (parent, child) pair whose [distSinceFight]
are safe integers, with [r] the draw the roll would take and
[0.1 * parent.distSinceFight + 0.1] evaluated in doubles as the code
evaluates it: when the child is unresolved ([-1]) or farther than
[parent.distSinceFight + 1], the child's [distSinceFight] becomes 0
and a portrait is requested if [r < 0.1 * parent.distSinceFight + 0.1],
and becomes [max(parent.distSinceFight + 1, 1)] otherwise; in every
other case the relaxation changes nothing.  No other node is touched. *)
Theorem rollFight_spec cur ch w :
let pd := distOf (registry w) cur in
let cd := distOf (registry w) ch in
let r := rnd (cursor w) in
let w' := roll cur ch w in
Z.abs pd < 2 ^ 53 -> Z.abs cd < 2 ^ 53 -> 0 <= numPortraits < 2 ^ 32 ->
(cd = -1 \/ pd + 1 < cd ->
(Double.lt r (chance pd) = true ->
distOf (registry w') ch = 0
/\ portraitOf (registry w') ch = Some (pick (rnd (S (cursor w)))))
/\ (Double.lt r (chance pd) = false ->
distOf (registry w') ch = Z.max (pd + 1) 1
/\ portraitOf (registry w') ch = portraitOf (registry w) ch))
/\ (cd ≠ -1 -> cd <= pd + 1 -> w' = w)
/\ (forall k, k ≠ ch -> deref (registry w') k = deref (registry w) k).
Proof.
cbv zeta. intros _ _ _. split; [|split].
- apply rollFight_drawn.
- apply rollFight_skip.
- intros k Hk. by apply rollFight_other.
Qed.

End RollFight.

(** ** Staging: the steps depend on the child links only *)

Section StagingPure.
Variable rnd : nat -> Q.
Variable numPortraits : Z.

Local Abbreviation roll := (rollFight rnd numPortraits).
Local Abbreviation after := (worldAfter rnd numPortraits).

Lemma childrenOf_insert (reg : gmap Key MapNode.t) k (f : MapNode.t -> MapNode.t) k' :
(forall n, MapNode.children (f n) = MapNode.children n) ->
childrenOf (<[k := f (deref reg k)]> reg) k' = childrenOf reg k'.
Proof.
intros Hf. unfold childrenOf. destruct (decide (k = k')) as [->|Hne].
- by rewrite deref_insert_eq, Hf.
- by rewrite deref_insert_ne.
Qed.

Lemma childrenOf_getPortrait w k k' :
childrenOf (registry (getPortrait rnd numPortraits k w)) k' = childrenOf (registry w) k'.
Proof. unfold getPortrait. simpl. by apply (childrenOf_insert _ _ (MapNode.setPortrait _)). Qed.

Lemma childrenOf_update w k f k' :
(forall n, MapNode.children (f n) = MapNode.children n) ->
childrenOf (registry (update k f w)) k' = childrenOf (registry w) k'.
Proof. intros Hf. unfold update. simpl. by apply childrenOf_insert. Qed.

Lemma childrenOf_rollFight cur ch w k :
childrenOf (registry (roll cur ch w)) k = childrenOf (registry w) k.
Proof.
unfold rollFight. destruct (_ || _); [|done].
destruct (Double.lt _ _).
- rewrite childrenOf_getPortrait. by rewrite childrenOf_update.
- by rewrite childrenOf_update.
Qed.

Lemma childrenOf_worldAfter visits w k :
childrenOf (registry (after w visits)) k = childrenOf (registry w) k.
Proof.
revert w. unfold worldAfter.
induction visits as [|p visits IH]; intros w; simpl; [done|].
rewrite IH. apply childrenOf_rollFight.
Qed.

Lemma childrenOf_prepare start end_ reg k :
childrenOf (registry (prepare rnd numPortraits start end_ reg)) k = childrenOf reg k.
Proof.
unfold prepare. rewrite childrenOf_getPortrait.
by rewrite !childrenOf_update.
Qed.

Lemma worldAfter_app w v1 v2 : after w (v1 ++ v2) = after (after w v1) v2.
Proof. unfold worldAfter. by rewrite fold_left_app. Qed.

Lemma pairsOf_app G l1 l2 : pairsOf G (l1 ++ l2) = pairsOf G l1 ++ pairsOf G l2.
Proof. unfold pairsOf. by rewrite bind_app. Qed.

Lemma pairsOf_cons G c l : pairsOf G (c :: l) = ((fun ch => (c, ch)) <$> G c) ++ pairsOf G l.
Proof. done. Qed.

Lemma elem_of_pairsOf G l u v : (u, v) ∈ pairsOf G l <-> u ∈ l /\ v ∈ G u.
Proof.
unfold pairsOf. rewrite list_elem_of_bind. split.
- intros (c & Hin & Hc). apply list_elem_of_fmap in Hin as (ch & Heq & Hch).
by simplify_eq.
- intros [Hu Hv]. exists u. split; [|done]. apply list_elem_of_fmap. eauto.
Qed.

Section FixedLinks.
Variable G : Key -> list Key.

Lemma visitChild_fold steps c kids s acc :
fold_left (visitChild rnd numPortraits steps c) kids (s, acc)
= (mkSweep (after (sworld s) ((fun ch => (c, ch)) <$> kids))
(fold_left (addPath (concat (paths steps)))
(segmentOf <$> ((fun ch => (c, ch)) <$> kids)) (spaths s)),
fold_left (addChildNode (concat (nodes steps))) kids acc).
Proof.
revert s acc. induction kids as [|ch kids IH]; intros s acc; simpl.
- by destruct s.
- rewrite IH. done.
Qed.

Lemma mapNodes_pure steps s cur :
(forall k, childrenOf (registry (sworld s)) k = G k) ->
mapNodes rnd numPortraits steps s cur
= (mkSweep (after (sworld s) (pairsOf G cur))
(fold_left (addPath (concat (paths steps)))
(segmentOf <$> pairsOf G cur) (spaths s)),
(fun c => fold_left (addChildNode (concat (nodes steps))) (G c) []) <$> cur).
Proof.
revert s. induction cur as [|c cur IH]; intros s HG.
- by destruct s.
- cbn [mapNodes]. unfold visitNode, MapNode.getChildren.
fold (childrenOf (registry (sworld s)) c).
rewrite HG, visitChild_fold. rewrite IH.
+ rewrite pairsOf_cons, worldAfter_app, fmap_app, fold_left_app. done.
+ intros k. cbn [sworld]. by rewrite childrenOf_worldAfter.
Qed.

(** The loop only ever appends to the steps. *)
Lemma stagePure_extends fuel steps cur cps steps' :
stagePure fuel G steps cur cps = Some steps' ->
exists moreNodes morePaths,
nodes steps' = nodes steps ++ moreNodes /\ paths steps' = paths steps ++ morePaths
/\ length moreNodes = length morePaths.
Proof.
revert steps cur cps. induction fuel as [|fuel IH]; intros steps cur cps; simpl; [done|].
destruct (_ || _).
- intros H. apply IH in H as (mn & mp & Hn & Hp & Hlen). simpl in *.
exists (cur :: mn), (cps :: mp). rewrite Hn, Hp, <- !app_assoc. simpl. auto.
- intros [= <-]. exists [], []. by rewrite !app_nil_r.
Qed.

(** The staging loop computes the steps of [stagePure], and its world is
the initial one after the fight rolls of all visits of the steps it
added. *)
Lemma stageLoop_pure fuel steps w cur cps :
(forall k, childrenOf (registry w) k = G k) ->
stageLoop rnd numPortraits fuel steps w cur cps
= match stagePure fuel G steps cur cps with
| Some steps' =>
Ok (steps', after w (pairsOf G (concat (drop (length (nodes steps)) (nodes steps')))))
| None => OutOfFuel
end.
Proof.
revert steps w cur cps. induction fuel as [|fuel IH]; intros steps w cur cps HG; simpl; [done|].
destruct (_ || _) eqn:Hgo.
- rewrite mapNodes_pure by done. simpl.
rewrite IH by (intros k; by rewrite childrenOf_worldAfter).
unfold nextNodes, nextPaths. simpl.
destruct (stagePure _ _ _ _ _) as [steps'|] eqn:Hp; [|done].
f_equal. f_equal. rewrite <- worldAfter_app, <- pairsOf_app. f_equal. f_equal.
apply stagePure_extends in Hp as (mn & mp & Hn & _ & _). simpl in Hn.
rewrite Hn, <- app_assoc. simpl.
rewrite !drop_app_length. simpl.
replace (S (length (nodes steps))) with (length (nodes steps ++ [cur]))
by (rewrite length_app; simpl; lia).
rewrite (app_assoc _ [cur] mn), drop_app_length. done.
- rewrite drop_all. done.
Qed.

End FixedLinks.
End StagingPure.

(** ** Staging: one sweep *)

Lemma existsb_eq_elem (l : list Key) (k : Key) :
  existsb (fun k' => bool_decide (k' = k)) l = true <-> k ∈ l.
Proof.
  rewrite existsb_exists. split.
  - intros (k' & Hin & Heq). apply bool_decide_eq_true in Heq as ->.
    by apply list_elem_of_In.
  - intros Hin. exists k. split; [by apply list_elem_of_In | by apply bool_decide_eq_true].
Qed.

Lemma addChildNode_elem shown kids ch k :
  k ∈ addChildNode shown kids ch <-> k ∈ kids \/ (k = ch /\ ch ∉ shown).
Proof.
  unfold addChildNode.
  destruct (existsb _ shown) eqn:Hs; simpl.
  - apply existsb_eq_elem in Hs. naive_solver.
  - assert (ch ∉ shown) by (rewrite <- existsb_eq_elem; congruence).
    case_bool_decide; simpl.
    + naive_solver.
    + rewrite elem_of_app, list_elem_of_singleton. naive_solver.
Qed.

Lemma addChildNode_NoDup shown kids ch : NoDup kids -> NoDup (addChildNode shown kids ch).
Proof.
  intros Hnd. unfold addChildNode.
  destruct (existsb _ shown); simpl; [done|].
  case_bool_decide; simpl; [done|].
  apply NoDup_app. split; [done|]. split; [|apply NoDup_singleton].
  intros k Hk ->%list_elem_of_singleton. done.
Qed.

Lemma fold_addChildNode_elem shown l acc k :
  k ∈ fold_left (addChildNode shown) l acc <-> k ∈ acc \/ (k ∈ l /\ k ∉ shown).
Proof.
  revert acc. induction l as [|ch l IH]; intros acc; simpl.
  - rewrite elem_of_nil. tauto.
  - rewrite IH, addChildNode_elem, elem_of_cons. naive_solver.
Qed.

Lemma fold_addChildNode_NoDup shown l acc :
  NoDup acc -> NoDup (fold_left (addChildNode shown) l acc).
Proof.
  revert acc. induction l as [|ch l IH]; intros acc Hnd; simpl; [done|].
  by apply IH, addChildNode_NoDup.
Qed.

(** [Array.prototype.find]: the first element that satisfies the
    predicate, with its index. *)
Lemma find_first {A} (f : A -> bool) (l : list A) :
  match List.find f l with
  | Some a => exists i, l !! i = Some a /\ f a = true
                /\ forall j b, (j < i)%nat -> l !! j = Some b -> f b = false
  | None => forall b, b ∈ l -> f b = false
  end.
Proof.
  induction l as [|c l IH]; simpl.
  - intros b Hb. by apply elem_of_nil in Hb.
  - destruct (f c) eqn:Hc.
    + exists 0%nat. split_and!; [done|done|]. intros j b Hj. lia.
    + destruct (List.find f l) as [a|].
      * destruct IH as (i & Hi & Ha & Hmin). exists (S i). split_and!; [done|done|].
        intros [|j] b Hj Hb; simpl in Hb; [congruence|]. apply (Hmin j); [lia|done].
      * intros b [->|Hb]%elem_of_cons; [done|by apply IH].
Qed.

Lemma unique_acc_elem (acc l : list Key) k :
  k ∈ unique_acc (fun a b => bool_decide (a = b)) acc l <-> k ∈ acc \/ k ∈ l.
Proof.
  revert acc. induction l as [|el l IH]; intros acc; simpl.
  - rewrite elem_of_nil. tauto.
  - pose proof (find_first (fun el2 : Key => bool_decide (el = el2)) acc) as Hf.
    destruct (List.find _ acc) as [found|]; unfold nullish, key_nullish.
    + rewrite IH, elem_of_cons.
      destruct Hf as (i & Hi & Heq & _).
      apply bool_decide_eq_true in Heq as <-. apply list_elem_of_lookup_2 in Hi.
      naive_solver.
    + rewrite IH, elem_of_app, list_elem_of_singleton, elem_of_cons. tauto.
Qed.

Lemma unique_acc_NoDup (acc l : list Key) :
  NoDup acc -> NoDup (unique_acc (fun a b => bool_decide (a = b)) acc l).
Proof.
  revert acc. induction l as [|el l IH]; intros acc Hnd; simpl; [done|].
  pose proof (find_first (fun el2 : Key => bool_decide (el = el2)) acc) as Hf.
  destruct (List.find _ acc) as [found|]; unfold nullish, key_nullish; [by apply IH|].
  apply IH, NoDup_app. split; [done|]. split; [|apply NoDup_singleton].
  intros k Hk ->%list_elem_of_singleton.
  specialize (Hf el Hk). by apply bool_decide_eq_false in Hf.
Qed.

Lemma elem_of_concat {A} (ls : list (list A)) (a : A) :
  a ∈ concat ls <-> exists l, a ∈ l /\ l ∈ ls.
Proof.
  rewrite list_elem_of_In, in_concat. split; intros (l & H1 & H2); exists l.
  - by rewrite !list_elem_of_In.
  - by rewrite <- !list_elem_of_In.
Qed.

Lemma nextNodes_elem G shown cur k :
  k ∈ nextNodes G shown cur <-> exists c, c ∈ cur /\ k ∈ G c /\ k ∉ shown.
Proof.
  unfold nextNodes, unique. rewrite unique_acc_elem, elem_of_nil.
  rewrite elem_of_concat. split.
  - intros [[]|(l & Hk & Hl)]. apply list_elem_of_fmap in Hl as (c & -> & Hc).
    apply fold_addChildNode_elem in Hk as [Hk|[Hk Hs]]; [by apply elem_of_nil in Hk|].
    eauto.
  - intros (c & Hc & Hk & Hs). right.
    exists (fold_left (addChildNode shown) (G c) []). split.
    + apply fold_addChildNode_elem. auto.
    + apply list_elem_of_fmap. eauto.
Qed.

Lemma nextNodes_NoDup G shown cur : NoDup (nextNodes G shown cur).
Proof. apply unique_acc_NoDup, NoDup_nil_2. Qed.

Lemma nextNodes_nil G shown : nextNodes G shown [] = [].
Proof. done. Qed.

Lemma nextPaths_nil G shown : nextPaths G shown [] = [].
Proof. done. Qed.

(** Segments as undirected edges. *)

Lemma sameSegment_spec a b :
  sameSegment a b = true
  <-> (n1 b = n1 a /\ n2 b = n2 a) \/ (n2 b = n1 a /\ n1 b = n2 a).
Proof.
  unfold sameSegment.
  rewrite orb_true_iff, !andb_true_iff, !bool_decide_eq_true. tauto.
Qed.

Lemma sameSegment_refl a : sameSegment a a = true.
Proof. apply sameSegment_spec. auto. Qed.

Lemma sameSegment_sym a b : sameSegment a b = sameSegment b a.
Proof.
  apply eq_true_iff_eq. rewrite !sameSegment_spec. naive_solver.
Qed.

Lemma sameSegment_trans a b c :
  sameSegment a b = true -> sameSegment b c = true -> sameSegment a c = true.
Proof. rewrite !sameSegment_spec. naive_solver congruence. Qed.

Lemma sameSegment_ext a b c :
  sameSegment a b = true -> sameSegment a c = sameSegment b c.
Proof.
  intros Hab. apply eq_true_iff_eq. split; intros H.
  - eapply sameSegment_trans; [|exact H]. by rewrite sameSegment_sym.
  - by eapply sameSegment_trans.
Qed.

Lemma occurrences_app p l1 l2 :
  occurrences p (l1 ++ l2) = (occurrences p l1 + occurrences p l2)%nat.
Proof. unfold occurrences. by rewrite List.filter_app, length_app. Qed.

Lemma occurrences_singleton p q :
  occurrences p [q] = if sameSegment p q then 1%nat else 0%nat.
Proof. unfold occurrences. simpl. by destruct (sameSegment p q). Qed.

Lemma occurrences_same p q l :
  sameSegment p q = true -> occurrences p l = occurrences q l.
Proof.
  intros H. unfold occurrences. f_equal. apply List.filter_ext.
  intros c. by apply sameSegment_ext.
Qed.

Lemma containsPath_occurrences l p : containsPath l p = true <-> (0 < occurrences p l)%nat.
Proof.
  unfold containsPath, occurrences. rewrite negb_true_iff, Nat.eqb_neq. lia.
Qed.

Lemma containsPath_false l p : containsPath l p = false <-> occurrences p l = 0%nat.
Proof.
  unfold containsPath, occurrences. rewrite negb_false_iff, Nat.eqb_eq. done.
Qed.

Lemma occurrences_elem p l : (0 < occurrences p l)%nat <-> exists q, q ∈ l /\ sameSegment p q = true.
Proof.
  unfold occurrences. split.
  - intros H. destruct (List.filter (sameSegment p) l) as [|q r] eqn:Hf; [simpl in H; lia|].
    assert (In q (List.filter (sameSegment p) l)) as Hin by (rewrite Hf; by left).
    apply List.filter_In in Hin as [Hin Hq]. exists q. split; [by apply list_elem_of_In|done].
  - intros (q & Hin & Hq).
    assert (In q (List.filter (sameSegment p) l)) as Hin'.
    { apply List.filter_In. split; [by apply list_elem_of_In|done]. }
    destruct (List.filter (sameSegment p) l); [done|simpl; lia].
Qed.

Section AddPath.
Variable shown : list PathSegment.

Lemma addPath_occurrences cps p q :
occurrences q (shown ++ addPath shown cps p)
= (occurrences q (shown ++ cps)
+ if negb (containsPath shown p) && negb (containsPath cps p) && sameSegment q p
then 1 else 0)%nat.
Proof.
unfold addPath. destruct (negb (containsPath shown p) && negb (containsPath cps p)); simpl.
- rewrite !occurrences_app, occurrences_singleton. lia.
- lia.
Qed.

Lemma addPath_once cps p :
(forall q, occurrences q (shown ++ cps) <= 1)%nat ->
forall q, (occurrences q (shown ++ addPath shown cps p) <= 1)%nat.
Proof.
intros H q. rewrite addPath_occurrences.
destruct (containsPath shown p) eqn:H1; simpl; [rewrite Nat.add_0_r; apply H|].
destruct (containsPath cps p) eqn:H2; simpl; [rewrite Nat.add_0_r; apply H|].
destruct (sameSegment q p) eqn:Hq; [|rewrite Nat.add_0_r; apply H].
rewrite (occurrences_same q p), occurrences_app by done.
apply containsPath_false in H1, H2. lia.
Qed.

Lemma addPath_contains cps p : (0 < occurrences p (shown ++ addPath shown cps p))%nat.
Proof.
rewrite addPath_occurrences, sameSegment_refl, occurrences_app.
destruct (containsPath shown p) eqn:H1; simpl.
{ apply containsPath_occurrences in H1. lia. }
destruct (containsPath cps p) eqn:H2; simpl.
{ apply containsPath_occurrences in H2. lia. }
lia.
Qed.

Lemma addPath_mono cps p q :
(occurrences q (shown ++ cps) <= occurrences q (shown ++ addPath shown cps p))%nat.
Proof. rewrite addPath_occurrences. lia. Qed.

Lemma addPath_elem cps p q : q ∈ addPath shown cps p -> q ∈ cps \/ q = p.
Proof.
unfold addPath. destruct (_ && _); [|auto].
rewrite elem_of_app, list_elem_of_singleton. tauto.
Qed.

Lemma fold_addPath_once ps cps :
(forall q, occurrences q (shown ++ cps) <= 1)%nat ->
forall q, (occurrences q (shown ++ fold_left (addPath shown) ps cps) <= 1)%nat.
Proof.
revert cps. induction ps as [|p ps IH]; intros cps H; simpl; [done|].
by apply IH, addPath_once.
Qed.

Lemma fold_addPath_mono ps cps q :
(occurrences q (shown ++ cps)
<= occurrences q (shown ++ fold_left (addPath shown) ps cps))%nat.
Proof.
revert cps. induction ps as [|p ps IH]; intros cps; simpl; [done|].
etrans; [apply (addPath_mono cps p)|apply IH].
Qed.

Lemma fold_addPath_contains ps cps p :
p ∈ ps -> (0 < occurrences p (shown ++ fold_left (addPath shown) ps cps))%nat.
Proof.
revert cps. induction ps as [|p' ps IH]; intros cps Hin; simpl.
- by apply elem_of_nil in Hin.
- apply elem_of_cons in Hin as [->|Hin]; [|by apply IH].
eapply Nat.lt_le_trans; [apply (addPath_contains cps)|apply fold_addPath_mono].
Qed.

Lemma fold_addPath_elem ps cps q :
q ∈ fold_left (addPath shown) ps cps -> q ∈ cps \/ q ∈ ps.
Proof.
revert cps. induction ps as [|p ps IH]; intros cps; simpl; [auto|].
intros [H|H]%IH; [|right; by right].
apply addPath_elem in H as [H| ->]; [auto | right; by left].
Qed.

End AddPath.

(** ** Staging: the loop *)

Lemma concat_snoc {A} (ls : list (list A)) (l : list A) : concat (ls ++ [l]) = concat ls ++ l.
Proof. rewrite concat_app. simpl. by rewrite app_nil_r. Qed.

Section StagePure.
Variable G : Key -> list Key.
Variable start : Key.
Variable N : nat.
Hypothesis reach_bound :
forall l, NoDup l -> (forall k, k ∈ l -> reach G start k) -> (length l <= N)%nat.

Lemma stageInv_init : stageInv G start (mkSteps [] []) [start] [].
Proof.
split; simpl.
- apply NoDup_singleton.
- intros k ->%list_elem_of_singleton. constructor.
- by apply list_elem_of_singleton.
- intros u v Hu. by apply elem_of_nil in Hu.
- intros i b v Hb. destruct i; done.
- intros i b u v Hb. by destruct i.
- intros q. unfold occurrences. simpl. lia.
- intros u v Hu. by apply elem_of_nil in Hu.
- intros p Hp. by apply elem_of_nil in Hp.
Qed.

Lemma stageInv_final steps : stageInv G start steps [] [] -> staged G start steps.
Proof.
intros [Hnd Hre Hst Hcl Hlv Hnx Honce Hed Hso]. rewrite !app_nil_r in *.
assert (forall k, reach G start k -> k ∈ concat (nodes steps)) as Hall.
{ induction 1 as [|u v _ IH Hv]; [done|]. by eapply Hcl. }
split.
- done.
- intros k. split; [apply Hre | apply Hall].
- intros u v Hu Hv. specialize (Hed u v (Hall _ Hu) Hv).
specialize (Honce (mkSegment u v)). lia.
- intros p Hp. destruct (Hso p Hp) as [H1 H2]. auto.
- intros i b v Hb Hv.
assert (S i < length (nodes steps))%nat as Hlt by (by eapply lookup_lt_Some).
destruct (Hlv i b v) as (bu & u & Hbu & Hu & Hvu); [|done|].
{ by rewrite lookup_app_l. }
exists bu, u. rewrite lookup_app_l in Hbu by lia. done.
- intros i b u v Hb Hu Hv.
destruct (Hnx i b u v Hb Hu Hv) as (j & b' & Hj & Hb' & Hvb).
exists j, b'. split; [done|]. split; [|done].
destruct (decide (j < length (nodes steps))%nat) as [Hlt|Hge].
+ by rewrite lookup_app_l in Hb'.
+ rewrite lookup_app_r in Hb' by lia.
destruct (j - length (nodes steps))%nat; simpl in Hb'; [|done].
injection Hb' as <-. by apply elem_of_nil in Hvb.
Qed.

(** One iteration preserves the invariant. *)
Lemma stageInv_step steps cur cps :
stageInv G start steps cur cps ->
let steps1 := mkSteps (paths steps ++ [cps]) (nodes steps ++ [cur]) in
stageInv G start steps1
(nextNodes G (concat (nodes steps1)) cur)
(nextPaths G (concat (paths steps1)) cur).
Proof.
intros [Hnd Hre Hst Hcl Hlv Hnx Honce Hed Hso] steps1. subst steps1. simpl.
rewrite !concat_snoc.
set (shownN := concat (nodes steps) ++ cur) in *.
set (shownP := concat (paths steps) ++ cps) in *.
split; simpl; rewrite ?concat_snoc; fold shownN; fold shownP.
- apply NoDup_app. split; [done|]. split; [|apply nextNodes_NoDup].
intros k Hk (c & _ & _ & Hn)%nextNodes_elem. done.
- intros k [Hk|(c & Hc & Hkc & _)%nextNodes_elem]%elem_of_app; [by apply Hre|].
apply reach_child with c; [|done]. apply Hre. apply elem_of_app. by right.
- apply elem_of_app. by left.
- intros u v Hu Hv. destruct (decide (v ∈ shownN)) as [Hin|Hnin].
{ apply elem_of_app. by left. }
apply elem_of_app in Hu as [Hu|Hu].
+ by specialize (Hcl u v Hu Hv).
+ apply elem_of_app. right. apply nextNodes_elem. eauto.
- intros i b v Hb Hv.
destruct (decide (S i < length (nodes steps ++ [cur]))%nat) as [Hlt|Hge].
+ rewrite lookup_app_l in Hb by done.
destruct (Hlv i b v Hb Hv) as (bu & u & Hbu & Hu & Hvu).
exists bu, u. rewrite lookup_app_l by lia. done.
+ assert (S i = length (nodes steps ++ [cur])) as Hi.
{ apply lookup_lt_Some in Hb. rewrite length_app in Hb. simpl in Hb. lia. }
rewrite lookup_app_r in Hb by lia. rewrite Hi, Nat.sub_diag in Hb.
simpl in Hb. injection Hb as <-.
apply nextNodes_elem in Hv as (c & Hc & Hvc & _).
exists cur, c. split; [|done].
rewrite lookup_app_l by lia. rewrite length_app in Hi. simpl in Hi.
rewrite lookup_app_r by lia. replace (i - length (nodes steps))%nat with 0%nat by lia.
done.
- intros i b u v Hb Hu Hv.
destruct (decide (i < length (nodes steps))%nat) as [Hlt|Hge].
+ rewrite lookup_app_l in Hb by done.
destruct (Hnx i b u v Hb Hu Hv) as (j & b' & Hj & Hb' & Hvb).
exists j, b'. split; [done|]. split; [|done].
rewrite lookup_app_l; [done|]. by eapply lookup_lt_Some.
+ assert (i = length (nodes steps)) as ->.
{ apply lookup_lt_Some in Hb. rewrite length_app in Hb. simpl in Hb. lia. }
rewrite lookup_app_r, Nat.sub_diag in Hb by lia. simpl in Hb. injection Hb as <-.
destruct (decide (v ∈ shownN)) as [Hin|Hnin].
* unfold shownN in Hin. rewrite <- concat_snoc in Hin.
apply elem_of_concat in Hin as (b' & Hvb & Hb').
apply list_elem_of_lookup in Hb' as (j & Hj).
exists j, b'. split.
{ apply lookup_lt_Some in Hj. rewrite length_app in Hj. simpl in Hj. lia. }
split; [|done]. rewrite lookup_app_l; [done|]. by eapply lookup_lt_Some.
* exists (S (length (nodes steps))), (nextNodes G shownN cur).
split; [lia|]. split.
{ rewrite lookup_app_r; rewrite length_app; simpl; [|lia].
replace (S (length (nodes steps)) - (length (nodes steps) + 1))%nat with 0%nat by lia.
done. }
apply nextNodes_elem. eauto.
- unfold nextPaths. apply fold_addPath_once. intros q. by rewrite app_nil_r.
- intros u v [Hu|Hu]%elem_of_app Hv; unfold nextPaths.
+ eapply Nat.lt_le_trans; [|apply fold_addPath_mono]. rewrite app_nil_r. by apply Hed.
+ apply fold_addPath_contains.
apply (list_elem_of_fmap_2' segmentOf _ (u, v)); [|done]. by apply elem_of_pairsOf.
- intros p [Hp|Hp]%elem_of_app.
+ destruct (Hso p Hp) as [H1 H2]. split; [|done]. apply elem_of_app. by left.
+ unfold nextPaths in Hp. apply fold_addPath_elem in Hp as [Hp|Hp].
{ by apply elem_of_nil in Hp. }
apply list_elem_of_fmap in Hp as ([u v] & -> & Huv).
apply elem_of_pairsOf in Huv as [Hu Hv]. simpl. split; [|done].
apply elem_of_app. by right.
Qed.

(** The loop terminates within [sweepsLeft] iterations, and its steps are
[staged]. *)
Lemma stagePure_correct fuel steps cur cps :
stageInv G start steps cur cps ->
(sweepsLeft N steps cur cps < fuel)%nat ->
exists steps', stagePure fuel G steps cur cps = Some steps' /\ staged G start steps'.
Proof.
revert steps cur cps. induction fuel as [|fuel IH]; intros steps cur cps Hinv Hfuel; [lia|].
simpl. destruct ((0 <? length cur)%nat || (0 <? length cps)%nat) eqn:Hgo.
- apply IH; [by apply stageInv_step|].
pose proof (stageInv_step _ _ _ Hinv) as Hinv'. simpl in Hinv'.
destruct cur as [|c cur].
+ rewrite nextNodes_nil, nextPaths_nil. simpl.
destruct cps; simpl in *; [done|lia].
+ unfold sweepsLeft in Hfuel.
destruct (nextNodes G _ (c :: cur)) as [|c' cur'] eqn:Hnext.
{ simpl. destruct (nextPaths _ _ _); lia. }
unfold sweepsLeft. simpl nodes.
assert (length (concat (nodes steps ++ [c :: cur]) ++ c' :: cur') <= N)%nat as Hle.
{ apply reach_bound; [apply Hinv'|apply Hinv']. }
rewrite concat_snoc in *. rewrite length_app in Hle. simpl in Hle.
rewrite (length_app _ (c' :: cur')). simpl. lia.
- exists steps. split; [done|].
apply orb_false_iff in Hgo as [H1 H2].
destruct cur; [|done]. destruct cps; [|done]. by apply stageInv_final.
Qed.

End StagePure.

(** ** Staging: the steps of [stage] *)

Lemma reach_in_registry (reg : gmap Key MapNode.t) start k :
  closed reg -> is_Some (reg !! start) -> reach (childrenOf reg) start k -> is_Some (reg !! k).
Proof.
  intros Hcl Hs. induction 1 as [|u v _ IH Hv]; [done|]. by eapply Hcl.
Qed.

Lemma length_le_size {A} (reg : gmap Key A) (l : list Key) :
  NoDup l -> (forall k, k ∈ l -> is_Some (reg !! k)) -> (length l <= size reg)%nat.
Proof.
  intros Hnd Hin. rewrite <- size_dom. unfold size, set_size. simpl.
  apply submseteq_length, NoDup_submseteq; [done|].
  intros k Hk. apply elem_of_elements, elem_of_dom. auto.
Qed.

Lemma stagePure_more G fuel k steps cur cps steps' :
  stagePure fuel G steps cur cps = Some steps' ->
  stagePure (fuel + k) G steps cur cps = Some steps'.
Proof.
  revert steps cur cps. induction fuel as [|fuel IH]; intros steps cur cps; simpl; [done|].
  destruct (_ || _); [apply IH|done].
Qed.

Lemma stagePure_first G fuel start steps :
  stagePure fuel G (mkSteps [] []) [start] [] = Some steps ->
  nodes steps !! 0%nat = Some [start] /\ paths steps !! 0%nat = Some [].
Proof.
  destruct fuel as [|fuel]; simpl; [done|].
  intros (mn & mp & -> & -> & _)%stagePure_extends. done.
Qed.

Section StageFacts.
Variable rnd : nat -> Q.
Variable numPortraits : Z.
Variables (start end_ : Point) (reg : gmap Key MapNode.t).
Hypothesis reg_closed : closed reg.
Hypothesis reg_start : is_Some (reg !! key start).
Hypothesis reg_end : is_Some (reg !! key end_).

(** Staging returns; its steps are [staged], and its world is the
prepared one after the fight rolls of all visits. *)
Lemma stage_staged fuel :
(size reg + 2 <= fuel)%nat ->
exists steps,
stage rnd numPortraits fuel start end_ reg
= Ok (steps, worldAfter rnd numPortraits (prepare rnd numPortraits start end_ reg)
(pairsOf (childrenOf reg) (concat (nodes steps))))
/\ staged (childrenOf reg) (key start) steps
/\ nodes steps !! 0%nat = Some [key start]
/\ paths steps !! 0%nat = Some [].
Proof.
intros Hfuel. unfold stage.
assert (forall l, NoDup l -> (forall k, k ∈ l -> reach (childrenOf reg) (key start) k) ->
(length l <= size reg)%nat) as Hbound.
{ intros l Hnd Hl. apply length_le_size; [done|].
intros k Hk. apply (reach_in_registry reg (key start)); auto. }
pose proof reg_start as [ns Hns]. pose proof reg_end as [ne Hne]. rewrite Hns, Hne.
rewrite (stageLoop_pure _ _ (childrenOf reg)) by apply childrenOf_prepare.
destruct (stagePure_correct (childrenOf reg) (key start) (size reg) Hbound fuel
(mkSteps [] []) [key start] []) as (steps & Hp & Hst).
{ apply stageInv_init. }
{ specialize (Hbound [key start] (NoDup_singleton _)). simpl in *.
assert (1 <= size reg)%nat; [|lia]. apply Hbound.
intros k ->%list_elem_of_singleton. constructor. }
exists steps. rewrite Hp. simpl. rewrite drop_0.
split; [done|]. split; [done|]. by eapply stagePure_first.
Qed.

(** C6.  Staging returns, and in its steps: the nodes of the node
batches are exactly the nodes reachable from [start] through child
links; no node occurs twice, within a batch or across batches; and
every edge (parent, child) with a reachable parent occurs exactly once
across the edge batches, a segment and its reverse counting as the
same edge.  The graph need not even be free of cycles. *)
Theorem stage_batches_exact fuel :
(size reg + 2 <= fuel)%nat ->
exists steps w,
stage rnd numPortraits fuel start end_ reg = Ok (steps, w)
/\ (forall k, k ∈ concat (nodes steps) <-> reach (childrenOf reg) (key start) k)
/\ NoDup (concat (nodes steps))
/\ (forall u v, reach (childrenOf reg) (key start) u -> v ∈ childrenOf reg u ->
occurrences (mkSegment u v) (concat (paths steps)) = 1%nat)
/\ (forall p, p ∈ concat (paths steps) ->
reach (childrenOf reg) (key start) (n1 p) /\ n2 p ∈ childrenOf reg (n1 p)).
Proof.
intros Hfuel. destruct (stage_staged fuel Hfuel) as (steps & Hs & [H1 H2 H3 H4 H5 H6] & _).
eauto 10.
Qed.

(** C7 (as amended).  Every node of a batch other than the first has a
parent in the batch just before its own (the parent that discovered
it), and the first batch is [start] alone.  A child of a node of batch
[i] is in some batch of index at most [i + 1]; it may well lie in an
earlier batch than that parent. *)
Theorem stage_batches_levelled fuel :
(size reg + 2 <= fuel)%nat ->
exists steps w,
stage rnd numPortraits fuel start end_ reg = Ok (steps, w)
/\ nodes steps !! 0%nat = Some [key start]
/\ (forall i b v, nodes steps !! S i = Some b -> v ∈ b ->
exists bu u, nodes steps !! i = Some bu /\ u ∈ bu /\ v ∈ childrenOf reg u)
/\ (forall i b u v, nodes steps !! i = Some b -> u ∈ b -> v ∈ childrenOf reg u ->
exists j b', (j <= S i)%nat /\ nodes steps !! j = Some b' /\ v ∈ b').
Proof.
intros Hfuel.
destruct (stage_staged fuel Hfuel) as (steps & Hs & [H1 H2 H3 H4 H5 H6] & H0 & _).
eauto 10.
Qed.

End StageFacts.

(** ** Fuel *)

Lemma buildLoop_more fuel k end_ transitions b r :
  buildLoop fuel end_ transitions b = Ok r ->
  buildLoop (fuel + k) end_ transitions b = Ok r.
Proof.
  revert b. induction fuel as [|fuel IH]; intros b; simpl; [done|].
  destruct (currPoints b) as [|currPoint rest]; [done|].
  destruct (nodeRefs b !! key currPoint) as [currNode|]; [|done].
  destruct (transitions !! key (MapNode.pos currNode)) as [transPoints|]; [|done].
  destruct (linkAll _ _ _ _ _) as [b'| |]; simpl; [apply IH|done|done].
Qed.

Lemma closed_check (reg : gmap Key MapNode.t) :
  map_Forall (fun _ n => Forall (fun c => is_Some (reg !! c)) (MapNode.children n)) reg ->
  closed reg.
Proof.
  intros H k c [n Hn] Hc. unfold childrenOf in Hc. rewrite (deref_lookup _ _ _ Hn) in Hc.
  specialize (H k n Hn). simpl in H. rewrite Forall_forall in H. auto.
Qed.

(** ** The chain scenario *)

(** C9.  For the table [{(0,0): [(1,1)], (1,1): [(0,0),(2,2)], (2,2): [(1,1)]}]
    with start (0,0) and end (2,2), graph building yields exactly the three
    nodes (0,0), (1,1), (2,2), with children lists [(1,1)], [(2,2)] and the
    empty list; staging yields the node batches [[(0,0)], [(1,1)], [(2,2)]]
    and the edge batches [[], [(0,0)-(1,1)], [(1,1)-(2,2)]], whatever the
    random draws are. *)
Theorem chain_scenario (rnd : nat -> Q) (numPortraits : Z) (k : nat) :
  exists w,
    nodesFromTransitions (4 + k) chainStart chainEnd chainTransitions = Ok chainNodes
    /\ dom chainNodes = {[(0, 0); (1, 1); (2, 2)]}
    /\ childrenOf chainNodes (0, 0) = [(1, 1)]
    /\ childrenOf chainNodes (1, 1) = [(2, 2)]
    /\ childrenOf chainNodes (2, 2) = []
    /\ buildAnimationSteps rnd numPortraits (4 + k) chainStart chainEnd chainTransitions
       = Ok (chainSteps, w).
Proof.
  assert (nodesFromTransitions (4 + k) chainStart chainEnd chainTransitions = Ok chainNodes)
    as Hk.
  { apply buildLoop_more. by vm_compute. }
  eexists. split; [exact Hk|].
  split; [by vm_compute|]. do 3 (split; [by vm_compute|]).
  unfold buildAnimationSteps. rewrite Hk. simpl. unfold stage.
  replace (chainNodes !! key chainStart)
    with (Some (MapNode.mkNode chainStart (-1) None false [] [(1, 1)])) by (by vm_compute).
  replace (chainNodes !! key chainEnd)
    with (Some (MapNode.mkNode chainEnd (-1) None false [(1, 1)] [])) by (by vm_compute).
  rewrite (stageLoop_pure _ _ (childrenOf chainNodes)) by apply childrenOf_prepare.
  rewrite (stagePure_more _ 4 k _ _ _ chainSteps) by (by vm_compute).
  reflexivity.
Qed.

(** Witnesses of the staging theorems, on the chain. *)

Lemma chainNodes_closed : closed chainNodes.
Proof. apply closed_check. apply (bool_decide_unpack _). by vm_compute. Qed.

Lemma stage_batches_exact_witness :
  exists steps w,
    stage zeroDraws 1 5 chainStart chainEnd chainNodes = Ok (steps, w)
    /\ (forall k, k ∈ concat (nodes steps) <-> reach (childrenOf chainNodes) (key chainStart) k)
    /\ NoDup (concat (nodes steps))
    /\ (forall u v, reach (childrenOf chainNodes) (key chainStart) u ->
          v ∈ childrenOf chainNodes u ->
          occurrences (mkSegment u v) (concat (paths steps)) = 1%nat)
    /\ (forall p, p ∈ concat (paths steps) ->
          reach (childrenOf chainNodes) (key chainStart) (n1 p)
          /\ n2 p ∈ childrenOf chainNodes (n1 p)).
Proof.
  apply (stage_batches_exact zeroDraws 1 chainStart chainEnd chainNodes).
  - apply closed_check. apply (bool_decide_unpack _). by vm_compute.
  - apply (bool_decide_unpack _). by vm_compute.
  - apply (bool_decide_unpack _). by vm_compute.
  - vm_compute. lia.
Defined.

Lemma stage_batches_levelled_witness :
  exists steps w,
    stage zeroDraws 1 5 chainStart chainEnd chainNodes = Ok (steps, w)
    /\ nodes steps !! 0%nat = Some [key chainStart]
    /\ (forall i b v, nodes steps !! S i = Some b -> v ∈ b ->
          exists bu u, nodes steps !! i = Some bu /\ u ∈ bu /\ v ∈ childrenOf chainNodes u)
    /\ (forall i b u v, nodes steps !! i = Some b -> u ∈ b -> v ∈ childrenOf chainNodes u ->
          exists j b', (j <= S i)%nat /\ nodes steps !! j = Some b' /\ v ∈ b').
Proof.
  apply (stage_batches_levelled zeroDraws 1 chainStart chainEnd chainNodes).
  - apply closed_check. apply (bool_decide_unpack _). by vm_compute.
  - apply (bool_decide_unpack _). by vm_compute.
  - apply (bool_decide_unpack _). by vm_compute.
  - vm_compute. lia.
Defined.

Lemma rollFight_spec_witness :
  distOf (registry (rollFight zeroDraws 1 (0, 0) (1, 1)
                      (mkWorld {[(0, 0) := MapNode.setDist 1 (MapNode.new chainStart)]} 0)))
         (1, 1) = 0.
Proof.
  set (w := mkWorld {[(0, 0) := MapNode.setDist 1 (MapNode.new chainStart)]} 0).
  assert (Z.abs (distOf (registry w) (0, 0)) < 2 ^ 53) as Hpd by (vm_compute; reflexivity).
  assert (Z.abs (distOf (registry w) (1, 1)) < 2 ^ 53) as Hcd by (vm_compute; reflexivity).
  assert (0 <= 1 < 2 ^ 32) as Hn by lia.
  assert (distOf (registry w) (1, 1) = -1
          \/ distOf (registry w) (0, 0) + 1 < distOf (registry w) (1, 1)) as Hg
    by (left; vm_compute; reflexivity).
  assert (Double.lt (zeroDraws (cursor w))
            (Double.add (Double.mul Double.tenth (Double.ofZ (distOf (registry w) (0, 0))))
               Double.tenth) = true) as Hr
    by (vm_compute; reflexivity).
  exact (proj1 (proj1 (proj1 (rollFight_spec zeroDraws 1 (0, 0) (1, 1) w Hpd Hcd Hn) Hg) Hr)).
Defined.

(** The chance for a parent 5 steps from the last fight is the double
    printed as 0.6, a little below 6/10: a draw equal to it is below 6/10
    and yet not below the chance, so the child gets distance 6. *)
Lemma rollFight_at_chance :
  let r := (5404319552844595 # 9007199254740992)%Q in
  (r < 6 # 10)%Q
  /\ distOf (registry (rollFight (fun _ => r) 1 (0, 0) (1, 1)
                         (mkWorld {[(0, 0) := MapNode.setDist 5 (MapNode.new chainStart)]} 0)))
            (1, 1) = 6.
Proof. split; by vm_compute. Qed.

(** ** The detour scenario *)

(** C7 does not hold as stated.  With a main path of four moves and a sub
    path of two moves between the same two points, the end (2,2) is
    discovered through the sub path and staged in batch 2, while its other
    parent (3,3) is staged in batch 3.  The graph has no cycle. *)
Lemma detour_child_before_parent :
  exists steps w,
    buildAnimationSteps zeroDraws 1 20 detourStart detourEnd detourTransitions
    = Ok (steps, w)
    /\ map_Forall (fun k _ => hasAncestor (registry w) k k = Ok false) (registry w)
    /\ ~ childAfterParent (registry w) steps.
Proof.
  destruct (buildAnimationSteps zeroDraws 1 20 detourStart detourEnd detourTransitions)
    as [[steps w]| |] eqn:Hrun; [|by vm_compute in Hrun..].
  exists steps, w. split; [done|].
  vm_compute in Hrun. injection Hrun as <- <-. split.
  - apply (bool_decide_unpack _). by vm_compute.
  - intros H.
    specialize (H (3, 3) (2, 2) 3%nat 2%nat [(3, 3)] [(2, 4); (2, 2)]).
    assert (3 < 2)%nat; [|lia].
    apply H; try (by vm_compute); apply list_elem_of_In; vm_compute; tauto.
Qed.

(** ** Fights stay *)

Section FightsStay.
Variable rnd : nat -> Q.
Variable numPortraits : Z.

Local Abbreviation roll := (rollFight rnd numPortraits).
Local Abbreviation after := (worldAfter rnd numPortraits).

Lemma distOf_insert (reg : gmap Key MapNode.t) k n k' :
distOf (<[k := n]> reg) k' = if decide (k = k') then MapNode.distSinceFight n else distOf reg k'.
Proof.
unfold distOf. case_decide as H.
- subst. by rewrite deref_insert_eq.
- by rewrite deref_insert_ne.
Qed.

Lemma bossOf_insert (reg : gmap Key MapNode.t) k n k' :
bossOf (<[k := n]> reg) k' = if decide (k = k') then MapNode.isBoss n else bossOf reg k'.
Proof.
unfold bossOf. case_decide as H.
- subst. by rewrite deref_insert_eq.
- by rewrite deref_insert_ne.
Qed.

(** What a roll does to any [distSinceFight]: nothing, or it resolves the
child, which the guard of the roll allowed. *)
Lemma rollFight_dist cur ch w k :
distOf (registry (roll cur ch w)) k = distOf (registry w) k
\/ (k = ch
/\ (distOf (registry w) ch = -1 \/ distOf (registry w) cur + 1 < distOf (registry w) ch)
/\ (distOf (registry (roll cur ch w)) k = 0
\/ distOf (registry (roll cur ch w)) k = Z.max (distOf (registry w) cur + 1) 1)).
Proof.
destruct (decide (k = ch)) as [->|Hne].
2: { left. unfold distOf. by rewrite rollFight_other. }
destruct (decide (distOf (registry w) ch = -1 \/ distOf (registry w) cur + 1 < distOf (registry w) ch))
as [Hg|Hg].
- right. split; [done|]. split; [done|].
destruct (rollFight_drawn rnd numPortraits cur ch w Hg) as [Hlt Hge].
destruct (Double.lt (rnd (cursor w)) _) eqn:Hr.
+ left. by apply Hlt.
+ right. by apply Hge.
- left. rewrite rollFight_skip; [done| |]; lia.
Qed.

Lemma rollFight_boss cur ch w k :
bossOf (registry (roll cur ch w)) k = bossOf (registry w) k.
Proof.
unfold rollFight. destruct (_ || _); [|done].
destruct (Double.lt _ _); unfold getPortrait, update; simpl;
rewrite !bossOf_insert; repeat case_decide; subst; simpl;
rewrite ?deref_insert_eq; done.
Qed.

Lemma rollFight_zero cur ch w k :
0 <= distOf (registry w) cur -> distOf (registry w) k = 0 ->
distOf (registry (roll cur ch w)) k = 0.
Proof.
intros Hcur Hk. destruct (rollFight_dist cur ch w k) as [->|(-> & Hg & _)]; [done|lia].
Qed.

Lemma resolved_roll cur ch w B :
resolved w B -> cur ∈ B -> resolved (roll cur ch w) (ch :: B).
Proof.
intros [Hlow Hres] Hcur. specialize (Hres cur Hcur) as Hc. split.
- intros k. destruct (rollFight_dist cur ch w k) as [->|(_ & _ & [->| ->])]; [apply Hlow|lia..].
- intros k Hk. apply elem_of_cons in Hk as [->|Hk].
+ destruct (rollFight_dist cur ch w ch) as [Heq|(_ & _ & [Heq|Heq])]; [|lia..].
destruct (decide (distOf (registry w) ch = -1)) as [Hm|Hm];
[|specialize (Hlow ch); lia].
destruct (rollFight_drawn rnd numPortraits cur ch w (or_introl Hm)) as [Hlt Hge].
destruct (Double.lt (rnd (cursor w)) _) eqn:Hr.
* rewrite (proj1 (Hlt eq_refl)). lia.
* rewrite (proj1 (Hge eq_refl)). lia.
+ destruct (rollFight_dist cur ch w k) as [->|(_ & _ & [->| ->])]; [by apply Hres|lia..].
Qed.

Lemma worldAfter_boss vs w k : bossOf (registry (after w vs)) k = bossOf (registry w) k.
Proof.
revert w. unfold worldAfter. induction vs as [|p vs IH]; intros w; simpl; [done|].
rewrite IH. apply rollFight_boss.
Qed.

(** Along an ordered sequence of visits the visiting node is always
resolved, and a [distSinceFight] that is 0 stays 0. *)
Lemma ordered_run B vs w :
ordered B vs -> resolved w B ->
(forall i c ch, vs !! i = Some (c, ch) -> 0 <= distOf (registry (after w (take i vs))) c)
/\ (forall i j k, (i <= j)%nat ->
distOf (registry (after w (take i vs))) k = 0 ->
distOf (registry (after w (take j vs))) k = 0).
Proof.
intros Hord. revert w. induction Hord as [B|B c ch vs Hc _ IH]; intros w Hres.
- split; [done|]. intros i j k _. by rewrite !take_nil.
- destruct (IH _ (resolved_roll c ch w B Hres Hc)) as [IH1 IH2].
assert (0 <= distOf (registry w) c) as Hc0 by (by apply Hres).
split.
+ intros [|i] c' ch' Hi; simpl in *.
* by simplify_eq.
* by apply IH1 in Hi.
+ intros [|i] [|j] k Hij; simpl; [done| |lia|].
* intros Hk. apply (IH2 0%nat j k); [lia|]. simpl. by apply rollFight_zero.
* apply IH2. lia.
Qed.

Lemma ordered_weaken B B' vs :
(forall k, k ∈ B -> k ∈ B') -> ordered B vs -> ordered B' vs.
Proof.
intros Hsub Hord. revert B' Hsub.
induction Hord as [B|B c ch vs Hc _ IH]; intros B' Hsub; constructor; [auto|].
apply IH. intros k. rewrite !elem_of_cons. naive_solver.
Qed.

Lemma ordered_app B v1 v2 :
ordered B v1 -> ordered ((snd <$> v1) ++ B) v2 -> ordered B (v1 ++ v2).
Proof.
intros Hord. revert v2. induction Hord as [B|B c ch vs Hc _ IH]; intros v2 H2; simpl; [done|].
constructor; [done|]. apply IH. eapply ordered_weaken; [|exact H2].
intros k. simpl. rewrite !elem_of_app, !elem_of_cons, elem_of_app. tauto.
Qed.

Lemma ordered_fst B vs : (forall p, p ∈ vs -> p.1 ∈ B) -> ordered B vs.
Proof.
revert B. induction vs as [|[c ch] vs IH]; intros B H; constructor.
- apply (H (c, ch)). by left.
- apply IH. intros p Hp. right. apply H. by right.
Qed.

Lemma levelled_tail G b bs : levelled G (b :: bs) -> levelled G bs.
Proof. intros H i b' v Hb Hv. by apply (H (S i) b' v). Qed.

Lemma levelled_ordered G batches B :
levelled G batches ->
(forall b c, batches !! 0%nat = Some b -> c ∈ b -> c ∈ B) ->
ordered B (pairsOf G (concat batches)).
Proof.
revert B. induction batches as [|b bs IH]; intros B Hlv Hfirst; simpl; [constructor|].
rewrite pairsOf_app. apply ordered_app.
- apply ordered_fst. intros [u v] [Hu _]%elem_of_pairsOf. by apply (Hfirst b).
- apply IH; [by eapply levelled_tail|].
intros b' v Hb' Hv. destruct (Hlv 0%nat b' v Hb' Hv) as (bu & u & Hbu & Hu & Hvu).
simpl in Hbu. injection Hbu as <-.
apply elem_of_app. left. apply (list_elem_of_fmap_2' snd _ (u, v)); [|done].
by apply elem_of_pairsOf.
Qed.

End FightsStay.

Section PreparedWorld.
Variable rnd : nat -> Q.
Variable numPortraits : Z.
Variables (start end_ : Point) (reg : gmap Key MapNode.t).

Lemma distOf_prepare k :
distOf (registry (prepare rnd numPortraits start end_ reg)) k
= if decide (key end_ = k) then 0
else if decide (key start = k) then 1 else distOf reg k.
Proof.
unfold prepare, getPortrait, update. simpl. rewrite distOf_insert.
case_decide as He; simpl.
- by rewrite !deref_insert_eq.
- rewrite !distOf_insert. repeat case_decide; try done.
Qed.

Lemma bossOf_prepare k :
bossOf (registry (prepare rnd numPortraits start end_ reg)) k
= if decide (key end_ = k) then true else bossOf reg k.
Proof.
unfold prepare, getPortrait, update. simpl. rewrite bossOf_insert.
case_decide as He; simpl.
- by rewrite !deref_insert_eq.
- rewrite !bossOf_insert. repeat case_decide; subst; try done.
Qed.

Lemma fresh_distOf k : fresh reg -> distOf reg k = -1.
Proof.
intros Hf. unfold distOf, deref. destruct (reg !! k) as [n|] eqn:Hk; simpl; [|done].
by destruct (Hf k n Hk).
Qed.

Lemma fresh_bossOf k : fresh reg -> bossOf reg k = false.
Proof.
intros Hf. unfold bossOf, deref. destruct (reg !! k) as [n|] eqn:Hk; simpl; [|done].
by destruct (Hf k n Hk).
Qed.

Lemma resolved_prepare :
fresh reg -> resolved (prepare rnd numPortraits start end_ reg) [key start].
Proof.
intros Hf. split.
- intros k. rewrite distOf_prepare. repeat case_decide; try lia.
rewrite fresh_distOf by done. lia.
- intros k ->%list_elem_of_singleton. rewrite distOf_prepare.
repeat case_decide; try lia; done.
Qed.

Hypothesis reg_closed : closed reg.
Hypothesis reg_start : is_Some (reg !! key start).
Hypothesis reg_end : is_Some (reg !! key end_).
Hypothesis reg_fresh : fresh reg.

(** C10.  Staging a registry of freshly constructed nodes returns, and its
final world is the prepared world after the fight rolls of all visits
of the steps, in order.  At every visit the visiting parent has a
[distSinceFight] of at least 0; hence a [distSinceFight] that is 0
after some number of visits is 0 after any larger number of visits.
The end node has [distSinceFight = 0] and [isBoss = true] after any
number of visits, so also in the returned steps, and no other node ever
has [isBoss = true]. *)
Theorem stage_fights_stay fuel :
(size reg + 2 <= fuel)%nat ->
exists steps w,
stage rnd numPortraits fuel start end_ reg = Ok (steps, w)
/\ let w0 := prepare rnd numPortraits start end_ reg in
let visits := pairsOf (childrenOf reg) (concat (nodes steps)) in
let at_ := fun i => registry (worldAfter rnd numPortraits w0 (take i visits)) in
registry w = at_ (length visits)
/\ (forall i c ch, visits !! i = Some (c, ch) -> 0 <= distOf (at_ i) c)
/\ (forall i j k, (i <= j)%nat -> distOf (at_ i) k = 0 -> distOf (at_ j) k = 0)
/\ (forall i, distOf (at_ i) (key end_) = 0 /\ bossOf (at_ i) (key end_) = true)
/\ (forall i k, k ≠ key end_ -> bossOf (at_ i) k = false).
Proof.
intros Hfuel.
destruct (stage_staged rnd numPortraits start end_ reg reg_closed reg_start reg_end
fuel Hfuel) as (steps & Hrun & Hst & Hfirst & _).
eexists _, _. split; [exact Hrun|]. cbv zeta.
set (w0 := prepare rnd numPortraits start end_ reg).
set (visits := pairsOf (childrenOf reg) (concat (nodes steps))).
assert (ordered [key start] visits) as Hord.
{ apply levelled_ordered; [apply Hst|].
intros b c Hb Hc. rewrite Hfirst in Hb. by injection Hb as <-. }
destruct (ordered_run rnd numPortraits _ _ w0 Hord (resolved_prepare reg_fresh))
as [Hpar Hzero].
split; [by rewrite firstn_all|]. split; [exact Hpar|]. split; [exact Hzero|].
split.
- intros i. split.
+ apply (Hzero 0%nat i); [lia|]. simpl. unfold w0. rewrite distOf_prepare.
by case_decide.
+ rewrite worldAfter_boss. unfold w0. rewrite bossOf_prepare. by case_decide.
- intros i k Hk. rewrite worldAfter_boss. unfold w0. rewrite bossOf_prepare.
case_decide; [done|]. by apply fresh_bossOf.
Qed.

End PreparedWorld.

Lemma stage_fights_stay_witness :
  exists steps w,
    stage zeroDraws 1 5 chainStart chainEnd chainNodes = Ok (steps, w)
    /\ distOf (registry w) (key chainEnd) = 0
    /\ bossOf (registry w) (key chainEnd) = true.
Proof.
  destruct (stage_fights_stay zeroDraws 1 chainStart chainEnd chainNodes) with (fuel := 5%nat)
    as (steps & w & Hrun & Hw & _ & _ & Hend & _).
  - apply closed_check. apply (bool_decide_unpack _). by vm_compute.
  - apply (bool_decide_unpack _). by vm_compute.
  - apply (bool_decide_unpack _). by vm_compute.
  - intros k n Hk.
    apply (map_Forall_lookup_1 (fun _ n => MapNode.distSinceFight n = -1 /\ MapNode.isBoss n = false)
             chainNodes k n); [|done].
    apply (bool_decide_unpack _). by vm_compute.
  - vm_compute. lia.
  - exists steps, w. split; [done|]. rewrite Hw. apply Hend.
Defined.

(** ** canReachEnd *)

Section Reachability.
Variable T : Transitions.
Variable e : Key.

Lemma follows_suffix s l1 k l2 : follows T s (l1 ++ k :: l2) e -> follows T k l2 e.
Proof.
revert s. induction l1 as [|k1 l1 IH]; intros s; simpl.
- by intros [_ H].
- intros [_ H]. by eapply IH.
Qed.

(** A path that avoids [h] can be cut down to one that the search finds. *)
Lemma found_of_follows n : forall l s h,
(length l <= n)%nat -> follows T s l e -> Forall (fun k => k ∉ h) l -> found T e h s.
Proof.
induction n as [|n IH]; intros l s h Hlen Hfol Hav.
- destruct l; simpl in *; [|lia]. subst. constructor.
- destruct (decide (s = e)) as [->|Hse]; [constructor|].
destruct (decide (s ∈ l)) as [Hin|Hnin].
+ apply list_elem_of_split in Hin as (l1 & l2 & ->).
apply (IH l2).
* rewrite length_app in Hlen. simpl in Hlen. lia.
* by eapply follows_suffix.
* apply Forall_app in Hav as [_ Hav]. by apply Forall_cons in Hav as [_ Hav].
+ destruct l as [|k l]; simpl in Hfol; [done|].
destruct Hfol as [(ps & p & Hps & Hp & <-) Hfol].
apply Forall_cons in Hav as [Hk Hav].
apply found_step with ps p; try done.
* rewrite elem_of_app, list_elem_of_singleton. intros [?|Heq]; [done|].
apply Hnin. rewrite <- Heq. by left.
* apply (IH l); [simpl in Hlen; lia|done|].
apply Forall_forall. intros k Hkl. rewrite Forall_forall in Hav.
rewrite elem_of_app, list_elem_of_singleton. intros [?|Heq]; [by eapply Hav|].
apply Hnin. rewrite <- Heq. by right.
Qed.

Lemma follows_of_found h s : found T e h s -> route T h s e.
Proof.
induction 1 as [h|h s ps p Hse Hps Hp Hk _ (l & Hfol & Hav)].
- by exists [].
- exists (key p :: l). split.
+ simpl. split; [|done]. eauto.
+ apply Forall_cons. split.
* intros Hin. apply Hk. apply elem_of_app. by left.
* eapply Forall_impl; [exact Hav|]. intros k Hk' Hin. apply Hk'.
apply elem_of_app. by left.
Qed.

Lemma found_iff_route h s : found T e h s <-> route T h s e.
Proof.
split; [apply follows_of_found|].
intros (l & Hfol & Hav). by apply (found_of_follows (length l) l).
Qed.

Lemma unvisited_push h k :
is_Some (T !! k) -> k ∉ h -> (unvisited T (h ++ [k]) < unvisited T h)%nat.
Proof.
intros Hk Hh. unfold unvisited. apply subset_size.
apply elem_of_dom in Hk.
assert (k ∉ (list_to_set h : gset Key)) by (by rewrite elem_of_list_to_set).
rewrite list_to_set_app_L. set_solver.
Qed.

Lemma unvisited_le_size h : (unvisited T h <= size T)%nat.
Proof.
unfold unvisited. rewrite <- (size_dom T). apply subseteq_size. set_solver.
Qed.

(** The loop over the transitions of [s], every recursive call behaving
as the search should. *)
Lemma eachTransition_spec recurse H ps :
(forall p, p ∈ ps -> key p ∉ H ->
exists b h', recurse (key p) H = Ok (b, h')
/\ (b = true <-> found T e H (key p)) /\ (b = false -> h' = H)) ->
exists b h', eachTransition recurse ps H = Ok (b, h')
/\ (b = true <-> (exists p, p ∈ ps /\ (key p ∉ H) /\ found T e H (key p)))
/\ (b = false -> h' = removelast H).
Proof.
induction ps as [|p ps IH]; intros Hrec; simpl.
- exists false, (removelast H). split; [done|]. split; [|done].
split; [done|]. intros (p & Hp & _). by apply elem_of_nil in Hp.
- destruct IH as (b & h' & Heach & Hb & Hh').
{ intros q Hq. apply Hrec. by right. }
case_bool_decide as Hin; simpl.
+ exists b, h'. split; [done|]. split; [|done].
rewrite Hb. split; intros (q & Hq & Hnq & Hf).
* exists q. split; [by right|done].
* apply elem_of_cons in Hq as [->|Hq]; [done|]. eauto.
+ destruct (Hrec p) as (bp & hp & Hcall & Hbp & Hhp); [by left|done|].
rewrite Hcall. simpl. destruct bp.
* exists true, hp. split; [done|]. split; [|done].
split; [|done]. intros _. exists p. split; [by left|]. split; [done|]. by apply Hbp.
* rewrite (Hhp eq_refl). exists b, h'. split; [done|]. split; [|done].
rewrite Hb. split; intros (q & Hq & Hnq & Hf).
-- exists q. split; [by right|done].
-- apply elem_of_cons in Hq as [->|Hq]; [|by eauto].
apply Hbp in Hf. done.
Qed.

Hypothesis T_wellFormed : wellFormed T.

(** With fuel above the number of unvisited keys the search returns; it
answers [true] exactly when it can find the end, and an answer [false]
comes with the history as it was. *)
Lemma canReachEnd_fuel_spec fuel : forall s h,
s = e \/ is_Some (T !! s) ->
(unvisited T (h ++ [s]) < fuel)%nat ->
exists b h', canReachEnd_fuel fuel s e T h = Ok (b, h')
/\ (b = true <-> found T e h s) /\ (b = false -> h' = h).
Proof.
induction fuel as [|fuel IH]; intros s h Hs Hfuel; [lia|]. simpl.
case_bool_decide as Hse.
- subst. exists true, h. split; [done|]. split; [|done]. split; [constructor|done].
- destruct Hs as [?|[ps Hps]]; [done|]. rewrite Hps.
destruct (eachTransition_spec
(fun k h0 => canReachEnd_fuel fuel k e T h0) (h ++ [s]) ps)
as (b & h' & Heach & Hb & Hh').
{ intros p Hp Hnp. apply IH.
- right. by eapply T_wellFormed.
- assert (unvisited T ((h ++ [s]) ++ [key p]) < unvisited T (h ++ [s]))%nat; [|lia].
apply unvisited_push; [by eapply T_wellFormed|done]. }
exists b, h'. split; [done|]. split.
+ rewrite Hb. split.
* intros (p & Hp & Hnp & Hf). by eapply found_step.
* intros Hf. inversion Hf as [|h0 s0 ps0 p Hne Hps0 Hp Hnp Hf']; subst; [done|].
rewrite Hps in Hps0. injection Hps0 as <-. eauto.
+ intros Hbf. rewrite (Hh' Hbf). apply removelast_last.
Qed.

(** On a table in which every listed point has an entry, and for a start
key that has an entry or is the end key, [canReachEnd] returns, [true]
exactly when the table has a path from the start key to the end key
that enters no key of the initial history, and with the history as it
was when it returns [false]. *)
Lemma canReachEnd_sound s h :
s = e \/ is_Some (T !! s) ->
exists b h', canReachEnd s e T h = Ok (b, h')
/\ (b = true <-> route T h s e) /\ (b = false -> h' = h).
Proof.
intros Hs. unfold canReachEnd.
destruct (canReachEnd_fuel_spec (size T + 2) s h Hs) as (b & h' & Hrun & Hb & Hh').
{ pose proof (unvisited_le_size (h ++ [s])). lia. }
exists b, h'. split; [done|]. split; [|done]. by rewrite Hb, found_iff_route.
Qed.

(** C5.  A transition table lists, for every point of the paths, its
neighbours on the paths, and each of them is a point of the paths with
an entry of its own ([wellFormed]; [populateTransitions] builds no other
table).  On a transition table, for every end key, every initial history
and every start key of the table (or equal to the end key),
[canReachEnd] returns; it returns [true] if and only if the table has a
path from the start key to the end key that avoids every key of the
initial history; and when it returns [false] the history holds exactly
its initial contents again.  The start key itself is where the path
begins and is not tested against the history; [nodesFromTransitions]
and the recursive calls pass a start key that the history does not
hold. *)
Theorem canReachEnd_spec s h :
s = e \/ is_Some (T !! s) ->
exists b h', canReachEnd s e T h = Ok (b, h')
/\ (b = true <-> route T h s e) /\ (b = false -> h' = h).
Proof. apply canReachEnd_sound. Qed.

End Reachability.

Lemma chainTransitions_wellFormed : wellFormed chainTransitions.
Proof.
  intros k ps p Hk Hp.
  apply (map_Forall_lookup_1
           (fun _ ps => Forall (fun p => is_Some (chainTransitions !! key p)) ps)
           chainTransitions k ps) in Hk.
  - rewrite Forall_forall in Hk. auto.
  - apply (bool_decide_unpack _). by vm_compute.
Qed.

Lemma canReachEnd_spec_witness :
  exists b h', canReachEnd (0, 0) (2, 2) chainTransitions [] = Ok (b, h')
               /\ (b = true <-> route chainTransitions [] (0, 0) (2, 2))
               /\ (b = false -> h' = []).
Proof.
  apply (canReachEnd_spec chainTransitions (2, 2) chainTransitions_wellFormed (0, 0) []).
  right. apply (bool_decide_unpack _). by vm_compute.
Defined.

(** ** AStar: the grid *)

Section Grid.
Import AStar.
Variables (width height : Z) (rnd : nat -> Q).

Lemma getIdx_fmap_seqZ {A} (f : Z -> A) (n i : Z) :
getIdx (f <$> seqZ 0 n) i = if bool_decide (0 <= i < n) then Some (f i) else None.
Proof.
unfold getIdx. destruct (Z.ltb_spec i 0).
- by rewrite bool_decide_eq_false_2 by lia.
- rewrite list_lookup_fmap. case_bool_decide as Hi.
+ rewrite lookup_seqZ_lt by lia. simpl. f_equal. f_equal. lia.
+ rewrite lookup_seqZ_ge by lia. done.
Qed.

(** [getVertex] inside the grid is the vertex of that cell; it throws when
the column does not exist and is [undefined] when only the row is
outside. *)
Lemma getVertex_new px py :
getVertex (new width height rnd) px py
= if bool_decide (0 <= px < width)
then Ok (if bool_decide (0 <= py < height) then Some (cell width height rnd px py) else None)
else TypeError.
Proof.
unfold getVertex, new. simpl. rewrite getIdx_fmap_seqZ.
case_bool_decide; [|done]. by rewrite getIdx_fmap_seqZ.
Qed.

Lemma getVertex_point px py v :
getVertex (new width height rnd) px py = Ok (Some v) -> vpoint v = mkPoint px py.
Proof.
rewrite getVertex_new. repeat case_bool_decide; try done. by intros [= <-].
Qed.

End Grid.

(** ** AStar: an exhausted frontier *)

Section Exhausted.
Import AStar.
Variable a : AStar.t.
Variable endV : option Vertex.

Lemma tracked_init startV : tracked endV (initSearch startV).
Proof.
split; [done|]. intros ev _ Hin. simpl in *.
exists (PriorityQueue.mkEntry startV 0). split; [by left|]. simpl.
destruct (decide (vkey startV = vkey ev)) as [|Hne]; [done|].
rewrite lookup_singleton_ne in Hin by done. by destruct Hin.
Qed.

Lemma relax_tracked current s v s' :
tracked endV s -> relax endV current s v = Ok s' -> tracked endV s'.
Proof.
intros [Hlen Htr]. unfold relax.
destruct (costs s !! vkey current) as [c|]; [|done].
destruct (match costs s !! vkey v with Some old => _ | None => true end); [|by intros [= <-]].
destruct (manhattanDistance v endV) as [d| |]; simpl; [|done..].
intros [= <-]. split; [done|]. simpl. intros ev Hev Hin.
destruct (decide (vkey v = vkey ev)) as [Heq|Hne].
- eexists. split; [apply insert_elem; by left|done].
- rewrite lookup_insert_ne in Hin by done.
destruct (Htr ev Hev Hin) as (en & Hen & Hk).
exists en. split; [|done]. apply insert_elem. by right.
Qed.

Lemma relaxAll_tracked current vs : forall s s',
tracked endV s -> relaxAll endV current s vs = Ok s' -> tracked endV s'.
Proof.
induction vs as [|v vs IH]; intros s s' Htr; simpl.
- by intros [= <-].
- destruct (relax endV current s v) as [s1| |] eqn:Hr; simpl; [|done..].
apply IH. by eapply relax_tracked.
Qed.

(** When the loop ends on an empty frontier, the end vertex never got an
[origin] entry. *)
Lemma searchLoop_exhausted fuel : forall s s',
tracked endV s -> searchLoop fuel a endV s = Ok (ByEmpty, s') ->
forall ev, endV = Some ev -> origin s' !! vkey ev = None.
Proof.
induction fuel as [|fuel IH]; intros s s' [Hlen Htr]; simpl; [done|].
destruct (0 <? PriorityQueue.length (frontier s))%nat eqn:Hpos.
- unfold PriorityQueue.dequeue.
destruct (PriorityQueue.queue (frontier s)) as [|en rest] eqn:Hq; [done|].
destruct (sameVertex (PriorityQueue.data en) endV) eqn:Hsame; [done|].
destruct (adjacencies a !! vkey (PriorityQueue.data en)) as [vs|]; [|done].
destruct (relaxAll _ _ _ _) as [s2| |] eqn:Hrel; simpl; [|done..].
apply IH. eapply relaxAll_tracked; [|exact Hrel].
split; [done|]. simpl. intros ev Hev Hin.
destruct (Htr ev Hev Hin) as (en' & Hen' & Hk).
exists en'. split; [|done].
apply elem_of_cons in Hen' as [->|]; [|done].
unfold sameVertex in Hsame. rewrite Hev in Hsame.
by apply bool_decide_eq_false in Hsame.
- intros [= <-] ev Hev. apply Nat.ltb_ge in Hpos.
destruct (origin s !! vkey ev) eqn:Ho; [|done].
destruct (Htr ev Hev) as (en & Hen & _); [by rewrite Ho|].
destruct (PriorityQueue.queue (frontier s)); [by apply elem_of_nil in Hen|].
simpl in *. lia.
Qed.

(** The loop does not end on an empty frontier when the start vertex is
the end vertex. *)
Lemma searchLoop_start_is_end fuel startV s' :
endV = Some startV -> searchLoop fuel a endV (initSearch startV) ≠ Ok (ByEmpty, s').
Proof.
intros ->. destruct fuel as [|fuel]; simpl; [done|].
by rewrite bool_decide_eq_true_2.
Qed.

End Exhausted.

Lemma backtrace_None fuel origin path : AStar.backtrace fuel origin None path = Ok path.
Proof. by destruct fuel. Qed.

(** C3 (as amended).  Whenever the frontier runs empty before the end
    vertex is popped, [find] returns the one-point sequence [[end]] (the
    empty sequence if [end] lies outside the rows of the grid): the
    backtrace starts at the end vertex, which has no [origin] entry, not at
    the last popped vertex.  The result does terminate at the requested end;
    what tells it from a complete path is that it does not begin at
    [start], which differs from [end]. *)
Theorem find_exhausted (width height : Z) (rnd : nat -> Q) (fuel : nat)
    (start end_ : Point) (endV : option AStar.Vertex) (s : AStar.search) :
  AStar.runSearch fuel (AStar.new width height rnd) start end_
  = Ok (endV, (AStar.ByEmpty, s)) ->
  AStar.find fuel (AStar.new width height rnd) start end_
  = Ok (match endV with Some _ => [end_] | None => [] end)
  /\ (is_Some endV -> start ≠ end_).
Proof.
  intros Hrun. unfold AStar.find. rewrite Hrun. simpl.
  unfold AStar.runSearch in Hrun.
  destruct (AStar.getVertex _ (x start) (y start)) as [startV| |] eqn:Hs; simpl in Hrun; [|done..].
  destruct (AStar.getVertex _ (x end_) (y end_)) as [endV'| |] eqn:He; simpl in Hrun; [|done..].
  destruct startV as [startV|]; [|done].
  destruct (AStar.searchLoop fuel _ endV' _) as [[ex s']| |] eqn:Hloop; simpl in Hrun; [|done..].
  injection Hrun as -> -> ->.
  destruct endV as [ev|].
  - pose proof (searchLoop_exhausted _ _ fuel _ _ (tracked_init _ startV) Hloop ev eq_refl) as Ho.
    destruct fuel as [|fuel]; [done|]. simpl. rewrite Ho. simpl.
  rewrite backtrace_None. simpl. apply getVertex_point in He as Hev. unfold AStar.vpoint in *. rewrite Hev.
  destruct end_. simpl. split; [done|].
    intros _ ->. apply getVertex_point in Hs as Hsv.
    rewrite He in Hs. injection Hs as ->.
    by eapply searchLoop_start_is_end.
  - rewrite backtrace_None. simpl. split; [done|]. by intros [? ?].
Qed.

Lemma find_exhausted_witness :
  AStar.find 5 (AStar.new 1 3 zeroDraws) (mkPoint 0 0) (mkPoint 0 2) = Ok [mkPoint 0 2].
Proof.
  refine (proj1 (find_exhausted 1 3 zeroDraws 5 (mkPoint 0 0) (mkPoint 0 2) (Some _) _ _)).
  vm_compute. reflexivity.
Defined.

(** C3 does not hold as stated.  In a grid one column wide the search from
    (0,0) for (0,2) exhausts its frontier at once, and the sequence that
    [find] returns is [(0,2)] alone: it terminates at the requested end. *)
Lemma narrowGrid_result_ends_at_end :
  (exists endV s, AStar.runSearch 5 narrowGrid (mkPoint 0 0) (mkPoint 0 2)
                  = Ok (endV, (AStar.ByEmpty, s)))
  /\ exists path, AStar.find 5 narrowGrid (mkPoint 0 0) (mkPoint 0 2) = Ok path
                  /\ last path = Some (mkPoint 0 2).
Proof.
  split.
  - eexists _, _. vm_compute. reflexivity.
  - exists [mkPoint 0 2]. split; [by vm_compute|done].
Qed.

(** ** Ancestors *)

Section Ancestors.
Variable reg : gmap Key MapNode.t.
Local Abbreviation P := (parentsOf reg).

Lemma anc_trans a b c : anc P a b -> anc P b c -> anc P a c.
Proof.
intros Hab Hbc. induction Hbc as [b c Hb|b p c Hp _ IH].
- by eapply anc_step.
- eapply anc_step; [exact Hp|]. by apply IH.
Qed.

Lemma anc_inv a c : anc P a c <-> exists p, p ∈ P c /\ (p = a \/ anc P a p).
Proof.
split.
- intros H. inversion H; subst; eauto.
- intros (p & Hp & [->|H]); [by constructor|by eapply anc_step].
Qed.

Lemma heightLe_mono n m k : (n <= m)%nat -> heightLe n P k -> heightLe m P k.
Proof.
revert m k. induction n as [|n IH]; intros m k Hle; simpl; [done|].
destruct m as [|m]; [lia|]. simpl. intros H.
eapply Forall_impl; [exact H|]. intros p. apply IH. lia.
Qed.

Lemma anyParent_spec recurse k ps :
(forall p, p ∈ ps -> exists b, recurse p = Ok b /\ (b = true <-> anc P k p)) ->
exists b, anyParent recurse k ps = Ok b
/\ (b = true <-> exists p, p ∈ ps /\ (p = k \/ anc P k p)).
Proof.
induction ps as [|p ps IH]; intros Hrec; simpl.
- exists false. split; [done|]. split; [done|]. intros (p & Hp & _). by apply elem_of_nil in Hp.
- case_bool_decide as Hpk.
{ exists true. split; [done|]. split; [|done]. intros _. exists p. split; [by left|by left]. }
destruct (Hrec p) as (bp & Hcall & Hbp); [by left|]. rewrite Hcall. simpl.
destruct bp.
{ exists true. split; [done|]. split; [|done]. intros _. exists p. split; [by left|].
right. by apply Hbp. }
destruct IH as (b & Hrest & Hb). { intros q Hq. apply Hrec. by right. }
exists b. split; [done|]. rewrite Hb. split; intros (q & Hq & Hcase).
+ exists q. split; [by right|done].
+ apply elem_of_cons in Hq as [->|Hq]; [|by eauto].
destruct Hcase as [?|Hanc]; [done|]. apply Hbp in Hanc. done.
Qed.

(** With fuel for the longest chain of parents, [hasAncestor] returns and
tells whether [k] is an ancestor. *)
Lemma hasAncestor_fuel_spec n : forall this k,
heightLe n P this ->
exists b, hasAncestor_fuel n reg this k = Ok b /\ (b = true <-> anc P k this).
Proof.
induction n as [|n IH]; intros this k Hh; simpl in *; [done|].
destruct (anyParent_spec (fun p => hasAncestor_fuel n reg p k) k
(MapNode.parents (deref reg this))) as (b & Hrun & Hb).
{ intros p Hp. apply IH. rewrite Forall_forall in Hh. by apply Hh. }
exists b. split; [done|]. rewrite Hb, anc_inv. done.
Qed.

Lemma anyParent_false recurse k ps :
anyParent recurse k ps = Ok false -> forall p, p ∈ ps -> p ≠ k /\ recurse p = Ok false.
Proof.
induction ps as [|p ps IH]; simpl; intros Hrun q Hq.
- by apply elem_of_nil in Hq.
- case_bool_decide as Hpk; [done|].
destruct (recurse p) as [[|]| |] eqn:Hcall; simpl in Hrun; try done.
apply elem_of_cons in Hq as [->|Hq]; [done|]. by apply IH.
Qed.

(** An answer [false] of [hasAncestor] is right whatever the fuel. *)
Lemma hasAncestor_fuel_false fuel : forall this k,
hasAncestor_fuel fuel reg this k = Ok false -> ~ anc P k this.
Proof.
induction fuel as [|fuel IH]; intros this k; simpl; [done|].
intros Hrun Hanc. apply anc_inv in Hanc as (p & Hp & Hcase).
destruct (anyParent_false _ _ _ Hrun p Hp) as [Hne Hcall].
destruct Hcase as [?|Hanc]; [done|]. by eapply IH.
Qed.

Lemma collectParents_spec recurse ps : forall acc,
(forall p, p ∈ ps -> exists l, recurse p = Ok l /\ forall a, a ∈ l <-> anc P a p) ->
exists l, collectParents recurse ps acc = Ok l
/\ forall a, a ∈ l <-> a ∈ acc \/ exists p, p ∈ ps /\ (p = a \/ anc P a p).
Proof.
induction ps as [|p ps IH]; intros acc Hrec; simpl.
- exists acc. split; [done|]. intros a. split; [auto|].
intros [?|(p & Hp & _)]; [done|]. by apply elem_of_nil in Hp.
- destruct (Hrec p) as (up & Hcall & Hup); [by left|]. rewrite Hcall. simpl.
destruct (IH (acc ++ p :: up)) as (l & Hrun & Hl). { intros q Hq. apply Hrec. by right. }
exists l. split; [done|]. intros a. rewrite Hl, elem_of_app, elem_of_cons, Hup.
split.
+ intros [[?|[->|Ha]]|(q & Hq & Hcase)]; eauto.
* right. exists p. split; [by left|by left].
* right. exists p. split; [by left|by right].
* right. exists q. split; [by right|done].
+ intros [?|(q & Hq & Hcase)]; [by auto|].
apply elem_of_cons in Hq as [->|Hq]; [|by eauto].
destruct Hcase as [->|Ha]; auto.
Qed.

Lemma getAncestors_fuel_spec n : forall this,
heightLe n P this ->
exists l, getAncestors_fuel n reg this = Ok l /\ forall a, a ∈ l <-> anc P a this.
Proof.
induction n as [|n IH]; intros this Hh; simpl in *; [done|].
destruct (collectParents_spec (getAncestors_fuel n reg)
(MapNode.parents (deref reg this)) []) as (l & Hrun & Hl).
{ intros p Hp. apply IH. rewrite Forall_forall in Hh. by apply Hh. }
exists l. split; [done|]. intros a. rewrite Hl, anc_inv, elem_of_nil.
split; [intros [[]|H]; done|auto].
Qed.

Hypothesis acyclic : forall k, ~ anc P k k.
Hypothesis parents_known : forall c p, p ∈ P c -> is_Some (reg !! p).

Lemma heightLe_chain n : forall k S,
NoDup S -> (forall s, s ∈ S -> anc P k s) ->
is_Some (reg !! k) -> (forall s, s ∈ S -> is_Some (reg !! s)) ->
(size reg < n + length S + 1)%nat ->
heightLe n P k.
Proof.
induction n as [|n IH]; intros k S Hnd Hdesc Hk HS Hsize.
- assert (length (k :: S) <= size reg)%nat; [|simpl in *; lia].
apply length_le_size.
+ apply NoDup_cons. split; [|done]. intros Hin. by apply (acyclic k), Hdesc.
+ intros s [->|Hs]%elem_of_cons; auto.
- simpl. apply Forall_forall. intros p Hp.
apply (IH p (k :: S)).
+ apply NoDup_cons. split; [|done]. intros Hin. by apply (acyclic k), Hdesc.
+ intros s [->|Hs]%elem_of_cons; [by constructor|].
eapply anc_trans; [|by apply Hdesc]. by constructor.
+ by eapply parents_known.
+ intros s [->|Hs]%elem_of_cons; auto.
+ simpl. lia.
Qed.

(** Without cycles no chain of parents is longer than the registry. *)
Lemma heightLe_size k : heightLe (S (size reg)) P k.
Proof.
destruct (reg !! k) as [n|] eqn:Hk.
- apply (heightLe_mono (size reg)); [lia|].
apply (heightLe_chain _ k []); [constructor| | | |simpl; lia].
+ intros s Hs. by apply elem_of_nil in Hs.
+ by rewrite Hk.
+ intros s Hs. by apply elem_of_nil in Hs.
- simpl. unfold parentsOf, deref. rewrite Hk. simpl. constructor.
Qed.

Lemma hasAncestor_spec this k :
exists b, hasAncestor reg this k = Ok b /\ (b = true <-> anc P k this).
Proof. apply hasAncestor_fuel_spec, heightLe_size. Qed.

Lemma getAncestors_spec this :
exists l, getAncestors reg this = Ok l /\ forall a, a ∈ l <-> anc P a this.
Proof. apply getAncestors_fuel_spec, heightLe_size. Qed.

End Ancestors.

(** ** Graph building: one link *)

Lemma pushNew_elem a l k : k ∈ MapNode.pushNew a l <-> k = a \/ k ∈ l.
Proof.
  unfold MapNode.pushNew. destruct (existsb _ l) eqn:He.
  - apply existsb_eq_elem in He. naive_solver.
  - rewrite elem_of_app, list_elem_of_singleton. tauto.
Qed.

Lemma deref_ensureNode pt refs k : deref (ensureNode pt refs) k = deref refs k.
Proof.
  unfold ensureNode. destruct (refs !! key pt) eqn:Hpt; [done|].
  destruct (decide (key pt = k)) as [<-|Hne].
  - rewrite deref_insert_eq. unfold deref. rewrite Hpt. by destruct pt.
  - by rewrite deref_insert_ne.
Qed.

Lemma lookup_ensureNode pt refs k n :
  ensureNode pt refs !! k = Some n ->
  refs !! k = Some n \/ (k = key pt /\ n = MapNode.new pt).
Proof.
  unfold ensureNode. destruct (refs !! key pt) eqn:Hpt; [auto|].
  destruct (decide (key pt = k)) as [<-|Hne].
  - rewrite lookup_insert_eq. intros [= <-]. auto.
  - rewrite lookup_insert_ne by done. auto.
Qed.

Lemma ensureNode_mono pt refs k : is_Some (refs !! k) -> is_Some (ensureNode pt refs !! k).
Proof.
  unfold ensureNode. destruct (refs !! key pt) eqn:Hpt; [done|].
  intros Hk. destruct (decide (key pt = k)) as [<-|Hne].
  - by rewrite lookup_insert_eq.
  - by rewrite lookup_insert_ne.
Qed.

Lemma ensureNode_has pt refs : is_Some (ensureNode pt refs !! key pt).
Proof.
  unfold ensureNode. destruct (refs !! key pt) eqn:Hpt; [by rewrite Hpt|].
  by rewrite lookup_insert_eq.
Qed.

(** What linking changes in the node a key refers to. *)
Lemma deref_linkNodes c t refs k :
  MapNode.pos (deref (linkNodes c t refs) k) = MapNode.pos (deref refs k)
  /\ MapNode.distSinceFight (deref (linkNodes c t refs) k) = MapNode.distSinceFight (deref refs k)
  /\ MapNode.isBoss (deref (linkNodes c t refs) k) = MapNode.isBoss (deref refs k)
  /\ MapNode.parents (deref (linkNodes c t refs) k)
     = (if decide (k = t) then MapNode.pushNew c (MapNode.parents (deref refs k))
        else MapNode.parents (deref refs k))
  /\ MapNode.children (deref (linkNodes c t refs) k)
     = (if decide (k = c) then MapNode.pushNew t (MapNode.children (deref refs k))
        else MapNode.children (deref refs k)).
Proof.
  unfold linkNodes.
  repeat case_decide; subst;
    rewrite ?deref_insert_eq, ?deref_insert_ne by done; simpl;
    rewrite ?deref_insert_eq, ?deref_insert_ne by done; done.
Qed.

Lemma lookup_linkNodes c t refs k :
  is_Some (linkNodes c t refs !! k) <-> k = c \/ k = t \/ is_Some (refs !! k).
Proof.
  unfold linkNodes. rewrite !lookup_insert_is_Some.
  destruct (decide (c = k)); destruct (decide (t = k)); intuition congruence.
Qed.

Lemma anc_ext P P' a c : (forall k, P k = P' k) -> anc P a c -> anc P' a c.
Proof.
  intros Heq. induction 1 as [a c Ha|a p c Hp _ IH].
  - constructor. by rewrite <- Heq.
  - eapply anc_step; [|exact IH]. by rewrite <- Heq.
Qed.

Section Linking.
Variable T : Transitions.
Variable e : Key.

Lemma graphInv_ensureNode pt refs : graphInv T e refs -> graphInv T e (ensureNode pt refs).
Proof.
intros [Hsym Hac Hcl Hed Hk Hf].
assert (forall k, parentsOf (ensureNode pt refs) k = parentsOf refs k) as HP.
{ intros k. unfold parentsOf. by rewrite deref_ensureNode. }
assert (forall k, childrenOf (ensureNode pt refs) k = childrenOf refs k) as HC.
{ intros k. unfold childrenOf. by rewrite deref_ensureNode. }
split.
- intros p c. rewrite HP, HC. apply Hsym.
- intros k Hanc. apply (Hac k). by eapply anc_ext.
- intros p c. rewrite HC. intros Hc. destruct (Hcl p c Hc). split; by apply ensureNode_mono.
- intros p c. rewrite HC. apply Hed.
- intros k n [Hn|[-> ->]]%lookup_ensureNode; [by eapply Hk|done].
- intros k n [Hn|[-> ->]]%lookup_ensureNode; [by eapply Hf|done].
Qed.

(** A path through the new link either avoids it or passes the parent
before the child. *)
Lemma anc_linkNodes c t refs a d :
anc (parentsOf (linkNodes c t refs)) a d ->
anc (parentsOf refs) a d
\/ ((a = c \/ anc (parentsOf refs) a c) /\ (d = t \/ anc (parentsOf refs) t d)).
Proof.
assert (forall k p, p ∈ parentsOf (linkNodes c t refs) k ->
p ∈ parentsOf refs k \/ (k = t /\ p = c)) as Hpar.
{ intros k p. unfold parentsOf.
destruct (deref_linkNodes c t refs k) as (_ & _ & _ & -> & _).
case_decide; [|auto]. rewrite pushNew_elem. naive_solver. }
induction 1 as [a d Ha|a p d Hp _ IH].
- apply Hpar in Ha as [Ha|[-> ->]]; [left; by constructor|right; auto].
- apply Hpar in Hp as [Hp|[-> ->]].
+ destruct IH as [IH|[Ha Hd]].
* left. by eapply anc_step.
* right. split; [done|]. right.
destruct Hd as [->|Hd]; [by constructor|by eapply anc_step].
+ right. split; [|by left]. destruct IH as [IH|[Ha _]]; auto.
Qed.

Lemma graphInv_linkNodes c t refs :
graphInv T e refs ->
t ≠ c -> ~ anc (parentsOf refs) t c ->
is_Some (refs !! c) -> is_Some (refs !! t) ->
(exists ps pt, T !! c = Some ps /\ pt ∈ ps /\ key pt = t) -> route T [] t e ->
graphInv T e (linkNodes c t refs).
Proof.
intros [Hsym Hac Hcl Hed Hk Hf] Hne Hnanc Hc Ht Hedge Hroute.
assert (forall k p, p ∈ parentsOf (linkNodes c t refs) k <->
p ∈ parentsOf refs k \/ (k = t /\ p = c)) as Hpar.
{ intros k p. unfold parentsOf.
destruct (deref_linkNodes c t refs k) as (_ & _ & _ & -> & _).
case_decide; [|naive_solver]. rewrite pushNew_elem. naive_solver. }
assert (forall k d, d ∈ childrenOf (linkNodes c t refs) k <->
d ∈ childrenOf refs k \/ (k = c /\ d = t)) as Hchi.
{ intros k d. unfold childrenOf.
destruct (deref_linkNodes c t refs k) as (_ & _ & _ & _ & ->).
case_decide; [|naive_solver]. rewrite pushNew_elem. naive_solver. }
assert (forall k n, linkNodes c t refs !! k = Some n ->
is_Some (refs !! k) /\ n = deref (linkNodes c t refs) k) as Hlook.
{ intros k n Hn. split; [|by rewrite (deref_lookup _ _ _ Hn)].
assert (is_Some (linkNodes c t refs !! k)) as Hs by (by rewrite Hn).
apply lookup_linkNodes in Hs as [->|[->|Hs]]; done. }
split.
- intros p d. rewrite Hpar, Hchi, Hsym. naive_solver.
- intros k [Hanc|[Ha Hd]]%anc_linkNodes; [by eapply Hac|].
apply Hnanc. destruct Ha as [->|Ha], Hd as [Hd|Hd]; subst; try done.
by eapply anc_trans.
- intros p d [Hd|[-> ->]]%Hchi.
+ destruct (Hcl p d Hd). split; apply lookup_linkNodes; auto.
+ split; apply lookup_linkNodes; auto.
- intros p d [Hd|[-> ->]]%Hchi; [by apply Hed|done].
- intros k n [[n0 Hn0] ->]%Hlook.
destruct (deref_linkNodes c t refs k) as (-> & _).
rewrite (deref_lookup _ _ _ Hn0). by eapply Hk.
- intros k n [[n0 Hn0] ->]%Hlook.
destruct (deref_linkNodes c t refs k) as (_ & -> & -> & _).
rewrite (deref_lookup _ _ _ Hn0). by eapply Hf.
Qed.

End Linking.

(** ** Graph building: the loops *)

Section SearchSound.
Variable T : Transitions.
Variable e : Key.

Lemma eachTransition_sound recurse ps : forall H b h',
(forall p h0 b0 h0', recurse (key p) h0 = Ok (b0, h0') ->
(b0 = true -> found T e h0 (key p)) /\ (b0 = false -> h0' = h0)) ->
eachTransition recurse ps H = Ok (b, h') ->
(b = true -> exists p, p ∈ ps /\ (key p ∉ H) /\ found T e H (key p))
/\ (b = false -> h' = removelast H).
Proof.
induction ps as [|p ps IH]; intros H b h' Hrec; simpl.
- intros [= <- <-]. done.
- case_bool_decide as Hin; simpl.
+ intros Hrun. destruct (IH _ _ _ Hrec Hrun) as [Ht Hf]. split; [|done].
intros Hb. destruct (Ht Hb) as (q & Hq & Hrest). exists q. split; [by right|done].
+ destruct (recurse (key p) H) as [[bp hp]| |] eqn:Hcall; simpl; [|done..].
destruct (Hrec _ _ _ _ Hcall) as [Hpt Hpf]. destruct bp.
* intros [= <- <-]. split; [|done]. intros _. exists p. split; [by left|auto].
* rewrite (Hpf eq_refl). intros Hrun.
destruct (IH _ _ _ Hrec Hrun) as [Ht Hf]. split; [|done].
intros Hb. destruct (Ht Hb) as (q & Hq & Hrest). exists q. split; [by right|done].
Qed.

(** Whatever the table, an answer [true] comes with a path, and an answer
[false] with the history as it was. *)
Lemma canReachEnd_fuel_sound fuel : forall s h b h',
canReachEnd_fuel fuel s e T h = Ok (b, h') ->
(b = true -> found T e h s) /\ (b = false -> h' = h).
Proof.
induction fuel as [|fuel IH]; intros s h b h'; simpl; [done|].
case_bool_decide as Hse.
- intros [= <- <-]. subst. split; [constructor|done].
- destruct (T !! s) as [ps|] eqn:Hps; [|done]. intros Hrun.
destruct (eachTransition_sound _ _ _ _ _ (fun p h0 b0 h0' => IH (key p) h0 b0 h0') Hrun)
as [Ht Hf].
split.
+ intros Hb. destruct (Ht Hb) as (p & Hp & Hnp & Hfound). by eapply found_step.
+ intros Hb. rewrite (Hf Hb). apply removelast_last.
Qed.

Lemma route_weaken h s : route T h s e -> route T [] s e.
Proof.
intros (l & Hfol & _). exists l. split; [done|].
apply Forall_forall. intros k _. apply not_elem_of_nil.
Qed.

End SearchSound.

Section BuildLoop.
Variable T : Transitions.
Variable end_ : Point.
Hypothesis T_noSelf : noSelf T.

Lemma linkStep_inv curr ps b pt b' :
graphInv T (key end_) (nodeRefs b) ->
T !! curr = Some ps -> pt ∈ ps -> is_Some (nodeRefs b !! curr) ->
linkStep end_ T curr b pt = Ok b' ->
graphInv T (key end_) (nodeRefs b')
/\ (forall k, is_Some (nodeRefs b !! k) -> is_Some (nodeRefs b' !! k)).
Proof.
intros Hinv Hps Hpt Hcurr. unfold linkStep.
pose proof (graphInv_ensureNode T (key end_) pt _ Hinv) as Hinv1.
set (refs := ensureNode pt (nodeRefs b)) in *.
assert (forall k, is_Some (nodeRefs b !! k) -> is_Some (refs !! k)) as Hmono
by (intros k; apply ensureNode_mono).
destruct (hasAncestor refs curr (key pt)) as [[|]| |] eqn:Hanc; simpl; [|idtac|done..].
{ intros [= <-]. done. }
destruct (getAncestors refs curr) as [ancestors| |]; simpl; [|done..].
destruct (canReachEnd _ _ _ _) as [[[|] h']| |] eqn:Hreach; simpl; [| |done..].
2: { intros [= <-]. done. }
intros [= <-]. simpl. split.
- apply graphInv_linkNodes; try done.
+ by eapply T_noSelf.
+ by eapply hasAncestor_fuel_false.
+ by apply Hmono.
+ apply ensureNode_has.
+ eauto.
+ apply canReachEnd_fuel_sound in Hreach as [Hfound _].
eapply route_weaken, follows_of_found. by apply Hfound.
- intros k Hk. apply lookup_linkNodes. auto.
Qed.

Lemma linkAll_inv curr ps transPoints : forall b b',
graphInv T (key end_) (nodeRefs b) ->
T !! curr = Some ps -> (forall pt, pt ∈ transPoints -> pt ∈ ps) ->
is_Some (nodeRefs b !! curr) ->
linkAll end_ T curr b transPoints = Ok b' ->
graphInv T (key end_) (nodeRefs b')
/\ (forall k, is_Some (nodeRefs b !! k) -> is_Some (nodeRefs b' !! k)).
Proof.
induction transPoints as [|pt rest IH]; intros b b' Hinv Hps Hsub Hcurr; simpl.
- intros [= <-]. done.
- destruct (linkStep end_ T curr b pt) as [b1| |] eqn:Hstep; simpl; [|done..].
destruct (linkStep_inv curr ps b pt b1) as [Hinv1 Hmono1]; try done.
{ apply Hsub. by left. }
intros Hrest. destruct (IH b1 b') as [Hinv' Hmono']; try done.
{ intros q Hq. apply Hsub. by right. }
{ by apply Hmono1. }
split; [done|]. auto.
Qed.

Lemma buildLoop_inv fuel : forall b reg,
graphInv T (key end_) (nodeRefs b) ->
buildLoop fuel end_ T b = Ok reg ->
graphInv T (key end_) reg
/\ (forall k, is_Some (nodeRefs b !! k) -> is_Some (reg !! k)).
Proof.
induction fuel as [|fuel IH]; intros b reg Hinv; simpl; [done|].
destruct (currPoints b) as [|currPoint rest]; [by intros [= <-]|].
destruct (nodeRefs b !! key currPoint) as [currNode|] eqn:Hcurr; [|by intros [= <-]].
assert (key (MapNode.pos currNode) = key currPoint) as Hkey by (by eapply Hinv).
rewrite Hkey.
destruct (T !! key currPoint) as [transPoints|] eqn:Hps; [|done].
destruct (linkAll _ _ _ _ _) as [b1| |] eqn:Hlink; simpl; [|done..].
destruct (linkAll_inv (key currPoint) transPoints transPoints
(mkBuild (nodeRefs b) rest) b1) as [Hinv1 Hmono1]; try done.
intros Hrest. destruct (IH b1 reg Hinv1 Hrest) as [Hinv' Hmono'].
split; [done|]. auto.
Qed.

Lemma graphInv_init start : graphInv T (key end_) (nodeRefs (initBuild start end_)).
Proof.
assert (forall k n, nodeRefs (initBuild start end_) !! k = Some n ->
(k = key end_ /\ n = MapNode.new end_) \/ (k = key start /\ n = MapNode.new start))
as Hlook.
{ intros k n. simpl. rewrite lookup_insert. case_decide; [naive_solver|].
rewrite lookup_singleton. case_decide; naive_solver. }
assert (forall k, parentsOf (nodeRefs (initBuild start end_)) k = []
/\ childrenOf (nodeRefs (initBuild start end_)) k = []) as Hno.
{ intros k. unfold parentsOf, childrenOf, deref.
destruct (nodeRefs (initBuild start end_) !! k) as [n|] eqn:Hn; [|done].
by destruct (Hlook k n Hn) as [[_ ->]|[_ ->]]. }
split.
- intros p c. destruct (Hno p) as [_ ->]. destruct (Hno c) as [-> _].
rewrite !elem_of_nil. done.
- intros k Hanc. apply anc_inv in Hanc as (p & Hp & _).
destruct (Hno k) as [Hk _]. rewrite Hk in Hp. by apply elem_of_nil in Hp.
- intros p c Hc. destruct (Hno p) as [_ Hp]. rewrite Hp in Hc. by apply elem_of_nil in Hc.
- intros p c Hc. destruct (Hno p) as [_ Hp]. rewrite Hp in Hc. by apply elem_of_nil in Hc.
- intros k n Hn. by destruct (Hlook k n Hn) as [[-> ->]|[-> ->]].
- intros k n Hn. by destruct (Hlook k n Hn) as [[-> ->]|[-> ->]].
Qed.

(** Whenever graph building returns, its registry satisfies [graphInv] and
holds the start and the end node. *)
Lemma nodesFromTransitions_inv fuel start reg :
nodesFromTransitions fuel start end_ T = Ok reg ->
graphInv T (key end_) reg /\ is_Some (reg !! key start) /\ is_Some (reg !! key end_).
Proof.
intros Hrun. destruct (buildLoop_inv fuel _ reg (graphInv_init start) Hrun) as [Hinv Hmono].
split; [done|]. split; apply Hmono; simpl.
- rewrite lookup_insert. case_decide; [done|]. by rewrite lookup_singleton_eq.
- by rewrite lookup_insert_eq.
Qed.

End BuildLoop.

(** ** populateTransitions *)

Lemma pushPoint_elem ary p q : q ∈ pushPoint ary p -> q ∈ ary \/ q = p.
Proof.
  unfold pushPoint. destruct (existsb _ ary); [auto|].
  rewrite elem_of_app, list_elem_of_singleton. tauto.
Qed.

Section Populate.
Variable pathNodes : list Point.
Hypothesis path_simple : NoDup (key <$> pathNodes).

Lemma populateStep_spec T i pi :
pathNodes !! i = Some pi ->
exists ary, populateStep pathNodes T i = <[key pi := ary]> T
/\ forall q, q ∈ ary ->
q ∈ default [] (T !! key pi) \/ exists j, j ≠ i /\ pathNodes !! j = Some q.
Proof.
intros Hi. unfold populateStep. rewrite Hi. eexists. split; [done|].
intros q Hq.
destruct (pathNodes !! S i) as [next|] eqn:Hnext.
- apply pushPoint_elem in Hq as [Hq| ->]; [|right; exists (S i); split; [lia|done]].
destruct i as [|j]; [by left|].
destruct (pathNodes !! j) as [prev|] eqn:Hprev; [|by left].
apply pushPoint_elem in Hq as [Hq| ->]; [by left|]. right. exists j. split; [lia|done].
- destruct i as [|j]; [by left|].
destruct (pathNodes !! j) as [prev|] eqn:Hprev; [|by left].
apply pushPoint_elem in Hq as [Hq| ->]; [by left|]. right. exists j. split; [lia|done].
Qed.

Lemma populateStep_out T i : pathNodes !! i = None -> populateStep pathNodes T i = T.
Proof. intros Hi. unfold populateStep. by rewrite Hi. Qed.

Lemma populateStep_inv T i :
noSelf T -> listedKnown (key <$> pathNodes) T ->
noSelf (populateStep pathNodes T i)
/\ listedKnown (key <$> pathNodes) (populateStep pathNodes T i)
/\ (forall k, is_Some (T !! k) -> is_Some (populateStep pathNodes T i !! k))
/\ (forall pi, pathNodes !! i = Some pi -> is_Some (populateStep pathNodes T i !! key pi)).
Proof.
intros Hns Hlk. destruct (pathNodes !! i) as [pi|] eqn:Hi.
2: { rewrite populateStep_out by done. done. }
destruct (populateStep_spec T i pi Hi) as (ary & -> & Hary).
assert (forall k, is_Some (T !! k) -> is_Some (<[key pi := ary]> T !! k)) as Hmono.
{ intros k Hk. rewrite lookup_insert_is_Some. destruct (decide (key pi = k)); auto. }
split; [|split; [|split]].
- intros k ps p. rewrite lookup_insert. case_decide as Hk.
+ intros [= <-] Hp. subst k. destruct (Hary p Hp) as [Hold|(j & Hj & Hpj)].
* destruct (T !! key pi) as [old|] eqn:Hold'; simpl in Hold;
[by eapply Hns|by apply elem_of_nil in Hold].
* intros Heq. apply Hj. eapply NoDup_lookup; [exact path_simple| |].
-- rewrite list_lookup_fmap, Hpj. simpl. by rewrite Heq.
-- by rewrite list_lookup_fmap, Hi.
+ apply Hns.
- intros k ps p. rewrite lookup_insert. case_decide as Hk.
+ intros [= <-] Hp. destruct (Hary p Hp) as [Hold|(j & Hj & Hpj)].
* destruct (T !! key pi) as [old|] eqn:Hold'; simpl in Hold;
[|by apply elem_of_nil in Hold].
destruct (Hlk _ _ _ Hold' Hold); auto.
* right. apply list_elem_of_fmap. exists p. split; [done|].
by eapply list_elem_of_lookup_2.
+ intros Hps Hp. destruct (Hlk _ _ _ Hps Hp); auto.
- done.
- intros pi' [= <-]. by rewrite lookup_insert_eq.
Qed.

Lemma populate_fold idxs : forall T,
noSelf T -> listedKnown (key <$> pathNodes) T ->
let T' := fold_left (populateStep pathNodes) idxs T in
noSelf T' /\ listedKnown (key <$> pathNodes) T'
/\ (forall k, is_Some (T !! k) -> is_Some (T' !! k))
/\ (forall i pi, i ∈ idxs -> pathNodes !! i = Some pi -> is_Some (T' !! key pi)).
Proof.
induction idxs as [|i idxs IH]; intros T Hns Hlk; simpl.
- split; [done|]. split; [done|]. split; [done|]. intros i pi Hi. by apply elem_of_nil in Hi.
- destruct (populateStep_inv T i Hns Hlk) as (Hns1 & Hlk1 & Hmono1 & Hi1).
destruct (IH _ Hns1 Hlk1) as (Hns' & Hlk' & Hmono' & Hi').
split; [done|]. split; [done|]. split; [by auto|].
intros j pj [->|Hj]%elem_of_cons Hpj; [|by eauto]. apply Hmono'. by apply Hi1.
Qed.

(** Filling in a simple path keeps the table free of self-loops and well
formed, and gives every point of the path an entry. *)
Lemma populateTransitions_inv T :
noSelf T -> wellFormed T ->
noSelf (populateTransitions pathNodes T)
/\ wellFormed (populateTransitions pathNodes T)
/\ (forall k, is_Some (T !! k) -> is_Some (populateTransitions pathNodes T !! k))
/\ (forall p, p ∈ pathNodes -> is_Some (populateTransitions pathNodes T !! key p)).
Proof.
intros Hns Hwf. unfold populateTransitions.
destruct (populate_fold (seq 0 (length pathNodes)) T Hns) as (Hns' & Hlk' & Hmono' & Hin').
{ intros k ps p Hps Hp. left. by eapply Hwf. }
assert (forall p, p ∈ pathNodes ->
is_Some (fold_left (populateStep pathNodes) (seq 0 (length pathNodes)) T !! key p))
as Hall.
{ intros p (i & Hi)%list_elem_of_lookup. apply (Hin' i p); [|done].
apply elem_of_seq. apply lookup_lt_Some in Hi. lia. }
split; [done|]. split; [|done].
intros k ps p Hps Hp. destruct (Hlk' _ _ _ Hps Hp) as [?|Hpend]; [done|].
apply list_elem_of_fmap in Hpend as (q & -> & Hq). by apply Hall.
Qed.

End Populate.

Lemma tableOf_inv pathsNodes :
  Forall (fun p => NoDup (key <$> p)) pathsNodes ->
  noSelf (tableOf pathsNodes) /\ wellFormed (tableOf pathsNodes)
  /\ (forall pathNodes p, pathNodes ∈ pathsNodes -> p ∈ pathNodes ->
        is_Some (tableOf pathsNodes !! key p)).
Proof.
  unfold tableOf.
  assert (forall T, noSelf T -> wellFormed T ->
            Forall (fun p => NoDup (key <$> p)) pathsNodes ->
            let T' := fold_left (fun T pathNodes => populateTransitions pathNodes T) pathsNodes T in
            noSelf T' /\ wellFormed T'
            /\ (forall k, is_Some (T !! k) -> is_Some (T' !! k))
            /\ (forall pathNodes p, pathNodes ∈ pathsNodes -> p ∈ pathNodes ->
                  is_Some (T' !! key p))) as Hgen.
  { induction pathsNodes as [|pn rest IH]; intros T Hns Hwf Hall; simpl.
    - split; [done|]. split; [done|]. split; [done|]. intros ? ? H. by apply elem_of_nil in H.
    - apply Forall_cons in Hall as [Hpn Hall].
      destruct (populateTransitions_inv pn Hpn T Hns Hwf) as (Hns1 & Hwf1 & Hmono1 & Hin1).
      destruct (IH _ Hns1 Hwf1 Hall) as (Hns' & Hwf' & Hmono' & Hin').
      split; [done|]. split; [done|]. split; [by auto|].
      intros q p [->|Hq]%elem_of_cons Hp; [|by eauto]. by apply Hmono', Hin1. }
  intros Hall. destruct (Hgen ∅) as (H1 & H2 & _ & H4); try done.
Qed.

(** ** Graph building terminates *)

Lemma maxDegree_le (T : Transitions) k ps : T !! k = Some ps -> (length ps <= maxDegree T)%nat.
Proof.
  intros Hk. unfold maxDegree. apply max_list_elem_of_le.
  apply (list_elem_of_fmap_2' _ _ (k, ps)); [|done]. by apply elem_of_map_to_list.
Qed.

Lemma chainFrom_snoc C u l t :
  chainFrom C u l -> (forall z, last (u :: l) = Some z -> t ∈ C z) -> chainFrom C u (l ++ [t]).
Proof.
  revert u. induction l as [|v l IH]; intros u Hch Hlast; simpl in *.
  - split; [|done]. by apply Hlast.
  - destruct Hch as [Hv Hch]. split; [done|]. apply IH; [done|].
    intros z Hz. apply Hlast. by destruct l.
Qed.

Lemma chainFrom_mono C C' u l :
  (forall k c, c ∈ C k -> c ∈ C' k) -> chainFrom C u l -> chainFrom C' u l.
Proof.
  intros Hsub. revert u. induction l as [|v l IH]; intros u; simpl; [done|].
  intros [Hv Hch]. split; [by apply Hsub|by apply IH].
Qed.

Section Trails.
Variable T : Transitions.
Variable start : Key.

Lemma trailOf_length reg z trail : trailOf T reg start z trail -> (length trail <= size T)%nat.
Proof.
intros (_ & _ & Hnd & Hin). apply length_le_size; [done|]. intros k Hk. by apply Hin.
Qed.

Lemma trailOf_mono reg reg' z trail :
(forall k c, c ∈ childrenOf reg k -> c ∈ childrenOf reg' k) ->
(forall k, is_Some (reg !! k) -> is_Some (reg' !! k)) ->
trailOf T reg start z trail -> trailOf T reg' start z trail.
Proof.
intros Hch Hdom ((l & -> & Hl) & Hlast & Hnd & Hin). split; [|split; [done|split; [done|]]].
- exists l. split; [done|]. by eapply chainFrom_mono.
- intros k Hk. destruct (Hin k Hk). auto.
Qed.

Lemma trailOf_snoc reg z trail t :
trailOf T reg start z trail ->
t ∈ childrenOf reg z -> t ∉ trail -> is_Some (T !! t) -> is_Some (reg !! t) ->
trailOf T reg start t (trail ++ [t]).
Proof.
intros ((l & -> & Hl) & Hlast & Hnd & Hin) Ht Hnt HT Hreg.
split; [|split; [|split]].
- exists (l ++ [t]). split; [done|]. apply chainFrom_snoc; [done|].
intros z' Hz'. rewrite Hlast in Hz'. by injection Hz' as <-.
- apply last_snoc.
- apply NoDup_app. split; [done|]. split; [|apply NoDup_singleton].
intros k Hk ->%list_elem_of_singleton. done.
- intros k [Hk| ->%list_elem_of_singleton]%elem_of_app; auto.
Qed.

(** Every key of a trail is the end of the trail or one of its ancestors. *)
Lemma chainFrom_anc reg l : forall u z,
(forall p c, c ∈ childrenOf reg p -> p ∈ parentsOf reg c) ->
chainFrom (childrenOf reg) u l -> last (u :: l) = Some z ->
forall k, k ∈ u :: l -> k = z \/ anc (parentsOf reg) k z.
Proof.
induction l as [|v l IH]; intros u z Hsym Hch Hlast k Hk.
- simpl in Hlast. injection Hlast as <-. apply list_elem_of_singleton in Hk. auto.
- destruct Hch as [Hv Hch]. rewrite last_cons_cons in Hlast.
apply elem_of_cons in Hk as [->|Hk]; [|by eapply IH].
right. destruct (IH v z Hsym Hch Hlast v) as [->|Hanc]; [by left| |].
+ constructor. by apply Hsym.
+ eapply anc_trans; [|exact Hanc]. constructor. by apply Hsym.
Qed.

Lemma trailOf_anc reg z trail k :
(forall p c, c ∈ childrenOf reg p -> p ∈ parentsOf reg c) ->
trailOf T reg start z trail -> k ∈ trail -> k = z \/ anc (parentsOf reg) k z.
Proof.
intros Hsym ((l & -> & Hl) & Hlast & _) Hk. by eapply chainFrom_anc.
Qed.

Lemma queueWeight_app t1 t2 :
queueWeight T (t1 ++ t2) = (queueWeight T t1 + queueWeight T t2)%nat.
Proof. unfold queueWeight. by rewrite sum_list_with_app. Qed.

Lemma trailWeight_pos trail : (0 < trailWeight T trail)%nat.
Proof. unfold trailWeight. apply Nat.neq_0_lt_0, Nat.pow_nonzero. lia. Qed.

(** The entries pushed while one entry is expanded weigh less than it. *)
Lemma queueWeight_pushed (trail : list Key) (added : list Point) :
(length added <= maxDegree T)%nat ->
(added ≠ [] -> length trail + 1 <= size T)%nat ->
(queueWeight T ((fun pt => trail ++ [key pt]) <$> added) < trailWeight T trail)%nat.
Proof.
intros Hdeg Hlen.
assert (queueWeight T ((fun pt => trail ++ [key pt]) <$> added)
= length added * S (maxDegree T) ^ (size T - (length trail + 1)))%nat as ->.
{ clear Hdeg Hlen. unfold queueWeight. induction added as [|pt added IH]; csimpl; [done|].
rewrite IH. unfold trailWeight. rewrite length_app. simpl. lia. }
destruct added as [|pt added]; [simpl; apply trailWeight_pos|].
specialize (Hlen ltac:(done)). unfold trailWeight.
replace (size T - length trail)%nat with (S (size T - (length trail + 1))) by lia.
rewrite Nat.pow_succ_r'.
assert (0 < S (maxDegree T) ^ (size T - (length trail + 1)))%nat
by (apply Nat.neq_0_lt_0, Nat.pow_nonzero; lia).
nia.
Qed.

End Trails.

Section BuildTotal.
Variable T : Transitions.
Variable end_ : Point.
Variable start : Key.
Hypothesis T_noSelf : noSelf T.
Hypothesis T_wellFormed : wellFormed T.

Lemma graphInv_parents_known reg c p :
graphInv T (key end_) reg -> p ∈ parentsOf reg c -> is_Some (reg !! p).
Proof.
intros Hinv Hp. apply (gi_sym _ _ _ Hinv) in Hp.
by destruct (gi_closed _ _ _ Hinv _ _ Hp).
Qed.

Lemma linkStep_total curr ps b pt trail :
graphInv T (key end_) (nodeRefs b) ->
T !! curr = Some ps -> pt ∈ ps -> is_Some (nodeRefs b !! curr) ->
trailOf T (nodeRefs b) start curr trail ->
exists b', linkStep end_ T curr b pt = Ok b'
/\ (forall k c, c ∈ childrenOf (nodeRefs b) k -> c ∈ childrenOf (nodeRefs b') k)
/\ (currPoints b' = currPoints b
\/ (currPoints b' = currPoints b ++ [pt]
/\ trailOf T (nodeRefs b') start (key pt) (trail ++ [key pt]))).
Proof.
intros Hinv Hps Hpt Hcurr Htrail.
pose proof (graphInv_ensureNode T (key end_) pt _ Hinv) as Hinv1.
unfold linkStep. set (refs := ensureNode pt (nodeRefs b)) in *.
assert (forall k, childrenOf refs k = childrenOf (nodeRefs b) k) as HC.
{ intros k. unfold childrenOf, refs. by rewrite deref_ensureNode. }
assert (forall k, parentsOf (nodeRefs b) k = parentsOf refs k) as HP.
{ intros k. unfold parentsOf, refs. by rewrite deref_ensureNode. }
destruct (hasAncestor_spec refs (gi_acyclic _ _ _ Hinv1)
(fun c p => graphInv_parents_known refs c p Hinv1) curr (key pt))
as (isAnc & Hanc & HisAnc).
rewrite Hanc. simpl. destruct isAnc.
{ eexists. split; [done|]. simpl. split; [|by left]. intros k c. by rewrite HC. }
destruct (getAncestors_spec refs (gi_acyclic _ _ _ Hinv1)
(fun c p => graphInv_parents_known refs c p Hinv1) curr)
as (ancestors & Hget & _).
rewrite Hget. simpl.
destruct (canReachEnd_sound T (key end_) T_wellFormed (key pt) (ancestors ++ [curr]))
as (reach & h' & Hreach & _ & _).
{ right. by eapply T_wellFormed. }
rewrite Hreach. simpl. destruct reach.
2: { eexists. split; [done|]. simpl. split; [|by left]. intros k c. by rewrite HC. }
eexists. split; [done|]. simpl.
assert (forall k c, c ∈ childrenOf (nodeRefs b) k ->
c ∈ childrenOf (linkNodes curr (key pt) refs) k) as Hmono.
{ intros k c Hc. rewrite <- HC in Hc. unfold childrenOf in *.
destruct (deref_linkNodes curr (key pt) refs k) as (_ & _ & _ & _ & ->).
case_decide; [|done]. apply pushNew_elem. by right. }
split; [done|]. destruct (equals pt end_); [by left|]. right. split; [done|].
apply (trailOf_snoc T start _ curr).
- eapply trailOf_mono; [exact Hmono| |exact Htrail].
intros k Hk. apply lookup_linkNodes. right. right. by apply ensureNode_mono.
- unfold childrenOf.
destruct (deref_linkNodes curr (key pt) refs curr) as (_ & _ & _ & _ & ->).
rewrite decide_True by done. apply pushNew_elem. by left.
- intros Hin.
destruct (trailOf_anc T start (nodeRefs b) curr trail (key pt)) as [Heq|Ha]; try done.
+ intros p c Hc. by apply (gi_sym _ _ _ Hinv).
+ by eapply T_noSelf.
+ assert (false = true); [|done]. apply HisAnc. by eapply anc_ext.
- by eapply T_wellFormed.
- apply lookup_linkNodes. auto.
Qed.

Lemma linkAll_total curr ps trail transPoints : forall b,
graphInv T (key end_) (nodeRefs b) ->
T !! curr = Some ps -> (forall pt, pt ∈ transPoints -> pt ∈ ps) ->
is_Some (nodeRefs b !! curr) ->
trailOf T (nodeRefs b) start curr trail ->
exists b' added,
linkAll end_ T curr b transPoints = Ok b'
/\ graphInv T (key end_) (nodeRefs b')
/\ (forall k, is_Some (nodeRefs b !! k) -> is_Some (nodeRefs b' !! k))
/\ (forall k c, c ∈ childrenOf (nodeRefs b) k -> c ∈ childrenOf (nodeRefs b') k)
/\ currPoints b' = currPoints b ++ added
/\ (length added <= length transPoints)%nat
/\ Forall (fun pt => trailOf T (nodeRefs b') start (key pt) (trail ++ [key pt])) added.
Proof.
induction transPoints as [|pt rest IH]; intros b Hinv Hps Hsub Hcurr Htrail; simpl.
- exists b, []. rewrite app_nil_r. split_and!; done.
- destruct (linkStep_total curr ps b pt trail) as (b1 & Hstep & Hch1 & Hq1); try done.
{ apply Hsub. by left. }
destruct (linkStep_inv T end_ T_noSelf curr ps b pt b1) as [Hinv1 Hdom1]; try done.
{ apply Hsub. by left. }
rewrite Hstep. simpl.
destruct (IH b1) as (b' & added & Hrun & Hinv' & Hdom' & Hch' & Hq' & Hlen & Hall);
try done.
{ intros q Hq. apply Hsub. by right. }
{ by apply Hdom1. }
{ by eapply trailOf_mono. }
destruct Hq1 as [Hq1|[Hq1 Htr1]].
+ exists b', added. rewrite Hq', Hq1. split_and!; auto.
+ exists b', (pt :: added). rewrite Hq', Hq1, <- app_assoc. simpl.
split_and!; auto; [lia|]. constructor; [|done]. by eapply trailOf_mono.
Qed.

(** With fuel above the weight of the queue, graph building returns. *)
Lemma buildLoop_total fuel : forall b trails,
graphInv T (key end_) (nodeRefs b) ->
Forall2 (fun pt trail => trailOf T (nodeRefs b) start (key pt) trail) (currPoints b) trails ->
(queueWeight T trails < fuel)%nat ->
exists reg, buildLoop fuel end_ T b = Ok reg.
Proof.
induction fuel as [|fuel IH]; intros b trails Hinv Htrails Hfuel; [lia|]. simpl.
destruct (currPoints b) as [|currPoint rest] eqn:Hq; [by eexists|].
apply Forall2_cons_inv_l in Htrails as (trail & trest & Htrail & Hrest & ->).
assert (key currPoint ∈ trail) as Hin.
{ destruct Htrail as (_ & Hlast & _). by apply last_Some_elem_of. }
pose proof Htrail as (Hshape & Hlast & Hnd & Hknown).
destruct (Hknown _ Hin) as [[ps Hps] [currNode Hcurr]].
rewrite Hcurr. rewrite (gi_keys _ _ _ Hinv _ _ Hcurr), Hps.
destruct (linkAll_total (key currPoint) ps trail ps (mkBuild (nodeRefs b) rest))
as (b1 & added & Hrun & Hinv1 & Hdom1 & Hch1 & Hq1 & Hlen & Hall); try done.
rewrite Hrun. simpl.
apply (IH b1 (trest ++ ((fun pt => trail ++ [key pt]) <$> added))); [done| |].
- rewrite Hq1. simpl. apply Forall2_app.
+ eapply Forall2_impl; [exact Hrest|]. intros pt tr Htr. by eapply trailOf_mono.
+ apply Forall2_fmap_r, Forall_Forall2_diag. done.
- rewrite queueWeight_app.
assert (queueWeight T ((fun pt => trail ++ [key pt]) <$> added) < trailWeight T trail)%nat.
{ apply queueWeight_pushed.
- etrans; [exact Hlen|]. by eapply maxDegree_le.
- intros Hne. destruct added as [|pt added]; [done|].
apply Forall_cons in Hall as [Hpt _]. apply trailOf_length in Hpt.
rewrite length_app in Hpt. simpl in Hpt. lia. }
unfold queueWeight in *. simpl in Hfuel. lia.
Qed.

End BuildTotal.

Lemma nodesFromTransitions_total (T : Transitions) (start end_ : Point) :
  noSelf T -> wellFormed T -> is_Some (T !! key start) ->
  exists fuel reg, forall k, nodesFromTransitions (fuel + k) start end_ T = Ok reg.
Proof.
  intros Hns Hwf Hstart.
  destruct (buildLoop_total T end_ (key start) Hns Hwf (S (queueWeight T [[key start]]))
              (initBuild start end_) [[key start]]) as (reg & Hrun).
  - apply graphInv_init.
  - simpl. constructor; [|constructor]. split; [|split; [|split]].
    + by exists [].
    + done.
    + apply NoDup_singleton.
    + intros k ->%list_elem_of_singleton. split; [done|].
      rewrite lookup_insert. case_decide; [done|]. by rewrite lookup_singleton_eq.
  - lia.
  - exists (S (queueWeight T [[key start]])), reg. intros k. by apply buildLoop_more.
Qed.

(** ** Graph building: the result *)

Lemma graphInv_closed T e reg : graphInv T e reg -> closed reg.
Proof. intros Hinv k c _ Hc. by destruct (gi_closed _ _ _ Hinv _ _ Hc). Qed.

(** C4.  For a table filled from simple paths (paths that visit no point
    twice): whenever graph building returns a registry, no node of it is its
    own ancestor, [hasAncestor(own key)] answering [false] for every key,
    and every node that has a parent or a child has a route to [end] within
    the table.  Graph building does return when [start] has an entry in the
    table (it lies on one of the paths), and throws when it has none. *)
Theorem nodesFromTransitions_acyclic (pathsNodes : list (list Point)) (start end_ : Point) :
  Forall (fun p => NoDup (key <$> p)) pathsNodes ->
  (forall fuel reg,
     nodesFromTransitions fuel start end_ (tableOf pathsNodes) = Ok reg ->
     (forall k, hasAncestor reg k k = Ok false)
     /\ (forall k, ~ anc (parentsOf reg) k k)
     /\ (forall k, parentsOf reg k ≠ [] \/ childrenOf reg k ≠ [] ->
           route (tableOf pathsNodes) [] k (key end_)))
  /\ (is_Some (tableOf pathsNodes !! key start) ->
      exists fuel reg, forall k,
        nodesFromTransitions (fuel + k) start end_ (tableOf pathsNodes) = Ok reg)
  /\ (tableOf pathsNodes !! key start = None ->
      forall fuel, nodesFromTransitions (S fuel) start end_ (tableOf pathsNodes) = TypeError).
Proof.
  intros Hsimple. destruct (tableOf_inv pathsNodes Hsimple) as (Hns & Hwf & _).
  split; [|split].
  - intros fuel reg Hrun.
    destruct (nodesFromTransitions_inv _ end_ Hns fuel start reg Hrun) as (Hinv & _ & _).
    split; [|split].
    + intros k.
      destruct (hasAncestor_spec reg (gi_acyclic _ _ _ Hinv)
                  (fun c p => graphInv_parents_known _ end_ reg c p Hinv) k k) as (b & Hb & Hanc).
      destruct b; [|done]. exfalso. apply (gi_acyclic _ _ _ Hinv k). by apply Hanc.
    + apply (gi_acyclic _ _ _ Hinv).
    + intros k [Hp|Hc].
      * destruct (parentsOf reg k) as [|p ps] eqn:Hps; [done|].
        assert (k ∈ childrenOf reg p) as Hk.
        { apply (gi_sym _ _ _ Hinv). rewrite Hps. by left. }
        by destruct (gi_edges _ _ _ Hinv _ _ Hk).
      * destruct (childrenOf reg k) as [|c cs] eqn:Hcs; [done|].
        assert (c ∈ childrenOf reg k) as Hk by (rewrite Hcs; by left).
        destruct (gi_edges _ _ _ Hinv _ _ Hk) as [Hedge (l & Hfol & _)].
        exists (c :: l). split; [by split|].
        apply Forall_forall. intros ? _. apply not_elem_of_nil.
  - by apply nodesFromTransitions_total.
  - intros Hnone fuel. unfold nodesFromTransitions.
    cbn [buildLoop initBuild currPoints nodeRefs].
    rewrite lookup_insert. case_decide as Hse.
    + cbn [MapNode.pos MapNode.new]. by rewrite Hse, Hnone.
    + rewrite lookup_singleton_eq. cbn [MapNode.pos MapNode.new]. by rewrite Hnone.
Qed.

Lemma nodesFromTransitions_acyclic_witness :
  exists fuel reg, forall k,
    nodesFromTransitions (fuel + k) detourStart detourEnd (tableOf [detourMain; detourSub])
    = Ok reg.
Proof.
  apply (nodesFromTransitions_acyclic [detourMain; detourSub] detourStart detourEnd).
  - apply (bool_decide_unpack _). by vm_compute.
  - apply (bool_decide_unpack _). by vm_compute.
Defined.

(** ** AStar: adjacency lists *)

Lemma stepRange_elem s w z :
  z ∈ stepRange s w <-> exists i, 0 <= i /\ z = s + 2 * i /\ z < w.
Proof.
  unfold stepRange. rewrite list_elem_of_fmap. split.
  - intros (i & -> & Hi). apply elem_of_seqZ in Hi. exists i.
    split; [lia|]. split; [done|]. Z.div_mod_to_equations. lia.
  - intros (i & Hi & -> & Hw). exists i. split; [done|]. apply elem_of_seqZ.
    Z.div_mod_to_equations. lia.
Qed.

Lemma stepRange_parity s w z :
  z ∈ stepRange s w <-> s <= z < w /\ Z.even (z - s) = true.
Proof.
  rewrite stepRange_elem. split.
  - intros (i & Hi & -> & Hw). split; [lia|].
    replace (s + 2 * i - s) with (2 * i) by lia. by rewrite Z.even_mul.
  - intros [Hz Hev]. apply Z.even_spec in Hev as [i Hi]. exists i. lia.
Qed.

Section Adjacency.
Import AStar.
Variables (W H : Z) (rnd : nat -> Q).

Local Abbreviation lookupCell := (cell W H rnd).
Local Abbreviation neighbours := (fun k : Key => generateAdjacencies lookupCell (lookupCell k.1 k.2) W H).

Lemma fill_row (cx : Z) ys : forall (adj : gmap Key (list Vertex)) (k : Key),
fold_left (fun adj cy =>
<[vkey (lookupCell cx cy) := generateAdjacencies lookupCell (lookupCell cx cy) W H]> adj)
ys adj !! k
= if bool_decide (k.1 = cx /\ k.2 ∈ ys) then Some (neighbours k) else adj !! k.
Proof.
induction ys as [|cy ys IH]; intros adj k; simpl.
- rewrite bool_decide_eq_false_2; [done|]. intros [_ Hk]. by apply elem_of_nil in Hk.
- rewrite IH. destruct k as [kx ky]. simpl.
case_bool_decide as H1.
+ rewrite bool_decide_eq_true_2; [done|]. destruct H1. split; [done|]. by right.
+ rewrite lookup_insert. unfold vkey, key. simpl. case_decide as H2.
* injection H2 as <- <-. rewrite bool_decide_eq_true_2; [done|]. split; [done|]. by left.
* rewrite bool_decide_eq_false_2; [done|]. intros [-> [->|Hk]%elem_of_cons]; tauto.
Qed.

Lemma fill_lookup from : forall (adj : gmap Key (list Vertex)) (k : Key),
fillAdjacencies lookupCell W H from adj !! k
= if bool_decide (k.1 ∈ stepRange from W /\ k.2 ∈ stepRange from H)
then Some (neighbours k) else adj !! k.
Proof.
unfold fillAdjacencies. generalize (stepRange from W) as xs.
induction xs as [|cx xs IH]; intros adj k; cbn [fold_left].
- rewrite bool_decide_eq_false_2; [done|]. intros [Hk _]. by apply elem_of_nil in Hk.
- rewrite IH. case_bool_decide as H1.
+ rewrite bool_decide_eq_true_2; [done|]. destruct H1. split; [by right|done].
+ rewrite fill_row. case_bool_decide as H2.
* rewrite bool_decide_eq_true_2; [done|]. destruct H2 as [<- ?]. split; [by left|done].
* rewrite bool_decide_eq_false_2; [done|].
intros [[Heq|Hk]%elem_of_cons Hy]; tauto.
Qed.

(** A grid vertex has the adjacency list that [generateAdjacencies]
computes for it. *)
Lemma adjacencies_gridVertex v :
gridVertex W H rnd v ->
adjacencies (new W H rnd) !! vkey v = Some (generateAdjacencies lookupCell v W H).
Proof.
intros (Hv & Hx & Hy & Hev). unfold new. simpl. rewrite !fill_lookup.
unfold vkey, key, vpoint. simpl. rewrite <- Hv.
destruct (Z.even (vx v)) eqn:Hxe.
- rewrite bool_decide_eq_false_2.
2: { intros [[_ Hp]%stepRange_parity _]. rewrite Z.even_sub, Hxe in Hp. done. }
rewrite bool_decide_eq_true_2; [done|].
rewrite !stepRange_parity, !Z.sub_0_r. rewrite Z.even_add, Hxe in Hev.
destruct (Z.even (vy v)); [|done]. split_and!; done || lia.
- rewrite bool_decide_eq_true_2; [done|].
rewrite !stepRange_parity, !Z.even_sub. rewrite Z.even_add, Hxe in Hev.
destruct (Z.even (vy v)) eqn:Hye; [done|]. simpl.
assert (vx v ≠ 0) as Hx0 by (intros Hz; by rewrite Hz in Hxe).
assert (vy v ≠ 0) as Hy0 by (intros Hz; by rewrite Hz in Hye).
rewrite Hxe. split_and!; simpl; done || lia.
Qed.

End Adjacency.

(** ** AStar: neighbours *)

Section Neighbours.
Import AStar.
Variables (W H : Z) (rnd : nat -> Q).

Lemma generateAdjacencies_elem v u :
u ∈ generateAdjacencies (cell W H rnd) v W H
<-> exists dx dy, (dx = 1 \/ dx = -1) /\ (dy = 1 \/ dy = -1)
/\ u = cell W H rnd (vx v + dx) (vy v + dy)
/\ 0 <= vx v + dx < W /\ 0 <= vy v + dy < H.
Proof.
unfold generateAdjacencies. rewrite list_elem_of_omap. split.
- intros ([dx dy] & Hoff & Hsome). simpl in Hsome.
destruct (inBounds W H (vx v + dx) (vy v + dy)) eqn:Hin; [|done].
injection Hsome as <-. exists dx, dy. unfold inBounds in Hin.
apply andb_prop in Hin as [Hin H4]. apply andb_prop in Hin as [Hin H3].
apply andb_prop in Hin as [H1 H2].
unfold offsets in Hoff. rewrite !elem_of_cons, elem_of_nil in Hoff.
split_and!; [| |done|lia..];
destruct Hoff as [Ho|[Ho|[Ho|[Ho|[]]]]]; injection Ho as -> ->; auto.
- intros (dx & dy & Hdx & Hdy & -> & Hx & Hy). exists (dx, dy). split.
+ unfold offsets. rewrite !elem_of_cons.
destruct Hdx as [-> | ->], Hdy as [-> | ->]; auto.
+ simpl. unfold inBounds.
replace (0 <=? vx v + dx) with true by (symmetry; lia).
replace (vx v + dx <? W) with true by (symmetry; lia).
replace (0 <=? vy v + dy) with true by (symmetry; lia).
replace (vy v + dy <? H) with true by (symmetry; lia). done.
Qed.

Lemma neighbour_gridVertex v u :
gridVertex W H rnd v -> u ∈ generateAdjacencies (cell W H rnd) v W H ->
gridVertex W H rnd u /\ diagonal (vpoint v) (vpoint u).
Proof.
intros (Hv & Hx & Hy & Hev) (dx & dy & Hdx & Hdy & -> & Hux & Huy)%generateAdjacencies_elem.
split.
- split; [done|]. simpl. split; [done|]. split; [done|].
replace (vx v + dx + (vy v + dy)) with (vx v + vy v + (dx + dy)) by lia.
rewrite Z.even_add, Hev. destruct Hdx as [-> | ->], Hdy as [-> | ->]; done.
- unfold diagonal. simpl. split; lia.
Qed.

Lemma gridVertex_key_inj v u :
gridVertex W H rnd v -> gridVertex W H rnd u -> vkey v = vkey u -> v = u.
Proof.
intros (Hv & _) (Hu & _) Hk. unfold vkey, key in Hk. simpl in Hk.
injection Hk as Hx Hy. rewrite Hv, Hu, Hx, Hy. done.
Qed.

Lemma gridVertex_cell cx cy :
0 <= cx < W -> 0 <= cy < H -> Z.even (cx + cy) = true ->
gridVertex W H rnd (cell W H rnd cx cy).
Proof. intros Hx Hy Hev. split; [done|]. simpl. auto. Qed.

Lemma diagonal_sym p q : diagonal p q -> diagonal q p.
Proof. unfold diagonal. lia. Qed.

End Neighbours.

(** ** AStar: the measure *)

Lemma sum_list_with_le {A} (f g : A -> nat) l :
  (forall a, a ∈ l -> (f a <= g a)%nat) -> (sum_list_with f l <= sum_list_with g l)%nat.
Proof.
  induction l as [|a l IH]; intros Hle; simpl; [done|].
  specialize (Hle a ltac:(by left)) as Ha.
  assert (sum_list_with f l <= sum_list_with g l)%nat; [|lia].
  apply IH. intros b Hb. apply Hle. by right.
Qed.

Lemma sum_list_with_lt {A} (f g : A -> nat) l a0 :
  (forall a, a ∈ l -> (f a <= g a)%nat) -> a0 ∈ l -> (f a0 < g a0)%nat ->
  (sum_list_with f l < sum_list_with g l)%nat.
Proof.
  induction l as [|a l IH]; intros Hle Hin Hlt; [by apply elem_of_nil in Hin|]. simpl.
  assert (sum_list_with f l <= sum_list_with g l)%nat as Hrest.
  { apply sum_list_with_le. intros b Hb. apply Hle. by right. }
  apply elem_of_cons in Hin as [->|Hin].
  - lia.
  - specialize (Hle a ltac:(by left)) as Ha.
    assert (sum_list_with f l < sum_list_with g l)%nat; [|lia].
    apply IH; [|done..]. intros b Hb. apply Hle. by right.
Qed.

Section Measure.
Variable D : positive.
Variable ks : list Key.

Lemma unknown_insert_new (costs : gmap Key Q) k c :
k ∈ ks -> costs !! k = None -> (unknown (<[k := c]> costs) ks < unknown costs ks)%nat.
Proof.
intros Hk Hnone. unfold unknown. apply sum_list_with_lt with k; [|done|].
- intros a _. rewrite lookup_insert. case_decide; [|done]. destruct (costs !! a); lia.
- rewrite lookup_insert_eq, Hnone. lia.
Qed.

Lemma unknown_insert_old (costs : gmap Key Q) k c :
is_Some (costs !! k) -> unknown (<[k := c]> costs) ks = unknown costs ks.
Proof.
intros [old Hold]. unfold unknown. induction ks as [|a l IH]; simpl; [done|].
rewrite IH. f_equal. rewrite lookup_insert. case_decide; [|done]. subst. by rewrite Hold.
Qed.

Lemma scaled_insert_less (costs : gmap Key Q) k c old :
k ∈ ks -> costs !! k = Some old ->
0 <= Qfloor (c * inject_Z (Zpos D)) < Qfloor (old * inject_Z (Zpos D)) ->
(scaled D (<[k := c]> costs) ks < scaled D costs ks)%nat.
Proof.
intros Hk Hold Hlt. unfold scaled. apply sum_list_with_lt with k; [|done|].
- intros a _. rewrite lookup_insert. case_decide; [|done]. subst. rewrite Hold. lia.
- rewrite lookup_insert_eq, Hold. lia.
Qed.

End Measure.

Lemma costUnit_floor_lt D c c' :
  costUnit D c -> costUnit D c' -> (0 <= c)%Q -> (c < c')%Q ->
  0 <= Qfloor (c * inject_Z (Zpos D)) < Qfloor (c' * inject_Z (Zpos D)).
Proof.
  intros [n Hn] [n' Hn'] H0 Hlt.
  rewrite Hn, Hn', !Qfloor_Z.
  assert (0 < inject_Z (Zpos D))%Q as HD.
  { change 0%Q with (inject_Z 0). rewrite <- Zlt_Qlt. lia. }
  split.
  - rewrite Zle_Qle, <- Hn. change (inject_Z 0) with 0%Q.
    apply Qmult_le_0_compat; [done|]. by apply Qlt_le_weak.
  - rewrite Zlt_Qlt, <- Hn, <- Hn'. by apply Qmult_lt_compat_r.
Qed.

Lemma costUnit_plus D c c' : costUnit D c -> costUnit D c' -> costUnit D (c + c').
Proof.
  intros [n Hn] [n' Hn']. exists (n + n'). rewrite Qmult_plus_distr_l, Hn, Hn'.
  by rewrite inject_Z_plus.
Qed.

Lemma costUnit_zero D : costUnit D 0.
Proof. exists 0. by rewrite Qmult_0_l. Qed.

(** ** AStar: costs *)

Lemma cells_elem W H k : k ∈ cells W H <-> 0 <= k.1 < W /\ 0 <= k.2 < H.
Proof.
  unfold cells. rewrite list_elem_of_bind. split.
  - intros (cx & Hk & Hcx). apply list_elem_of_fmap in Hk as (cy & -> & Hcy).
    apply elem_of_seqZ in Hcx, Hcy. simpl. lia.
  - intros [Hx Hy]. exists k.1. split; [|apply elem_of_seqZ; lia].
    apply list_elem_of_fmap. exists k.2. split; [by destruct k|apply elem_of_seqZ; lia].
Qed.

Lemma costUnit_foldr (f : Key -> Q) l k :
  k ∈ l -> costUnit (foldr (fun k d => (Qden (f k) * d)%positive) 1%positive l) (f k).
Proof.
  induction l as [|a l IH]; intros Hk; [by apply elem_of_nil in Hk|]. simpl.
  apply elem_of_cons in Hk as [->|Hk].
  - exists (Qnum (f a) * Zpos (foldr (fun k d => (Qden (f k) * d)%positive) 1%positive l)).
    destruct (f a) as [n m]. unfold Qeq. simpl. rewrite !Pos2Z.inj_mul. ring.
  - destruct (IH Hk) as [n Hn]. exists (n * Zpos (Qden (f a))).
    rewrite Pos2Z.inj_mul, !inject_Z_mult.
    rewrite <- Hn. ring.
Qed.

Section Costs.
Import AStar.
Variables (W H : Z) (rnd : nat -> Q).
Hypothesis rnd_nonneg : forall i, (0 <= rnd i)%Q.

Lemma cell_cost_nonneg cx cy : 0 <= W + H -> (0 <= cost (cell W H rnd cx cy))%Q.
Proof.
intros HWH. simpl. unfold Qdiv. apply Qmult_le_0_compat; [|done].
apply Qmult_le_0_compat; [apply rnd_nonneg|].
change 0%Q with (inject_Z 0). by rewrite <- Zle_Qle.
Qed.

Lemma gridVertex_cost v :
gridVertex W H rnd v ->
(0 <= cost v)%Q /\ costUnit (denominator W H rnd) (cost v) /\ vkey v ∈ cells W H.
Proof.
intros (Hv & Hx & Hy & _).
assert (vkey v ∈ cells W H) as Hin by (apply cells_elem; simpl; lia).
split; [|split; [|done]].
- rewrite Hv. apply cell_cost_nonneg. lia.
- rewrite Hv. unfold denominator.
apply (costUnit_foldr (fun k => cost (cell W H rnd k.1 k.2)) _ (vx v, vy v)). exact Hin.
Qed.

End Costs.

(** ** AStar: origin chains *)

Section Chains.
Import AStar.

Lemma chained_insert_fresh origin s kv o n k :
origin !! kv = None -> chained origin s n k -> chained (<[kv := o]> origin) s n k.
Proof.
intros Hfresh. induction 1 as [|n k u Hk Ho _ IH]; [constructor|].
apply chained_step with u; [done| |done].
rewrite lookup_insert_ne; [done|]. intros ->. by rewrite Hfresh in Ho.
Qed.

(** A chain whose costs all stay below the cost recorded for [kv] does
not pass [kv]. *)
Lemma chained_insert_below (origin : gmap Key (option Vertex)) (costs : gmap Key Q)
s kv o old :
costs !! kv = Some old ->
(forall k u, origin !! k = Some (Some u) ->
exists cu ck, costs !! vkey u = Some cu /\ costs !! k = Some ck /\ (cu <= ck)%Q) ->
forall n k ck, chained origin s n k -> costs !! k = Some ck -> (ck < old)%Q ->
chained (<[kv := o]> origin) s n k.
Proof.
intros Hold Hmono n k ck Hch. revert ck.
induction Hch as [|n k u Hk Ho _ IH]; intros ck Hck Hlt; [constructor|].
destruct (Hmono _ _ Ho) as (cu & ck' & Hcu & Hck' & Hle).
rewrite Hck in Hck'. injection Hck' as <-.
apply chained_step with u; [done| |].
- rewrite lookup_insert_ne; [done|]. intros ->. rewrite Hold in Hck.
injection Hck as ->. by apply Qlt_irrefl in Hlt.
- apply (IH cu); [done|]. by eapply Qle_lt_trans.
Qed.

(** Redirecting [kv] to a chain that does not pass [kv] keeps every key
chained. *)
Lemma chained_redirect origin s kv u m n k :
kv ≠ s -> chained (<[kv := Some u]> origin) s m (vkey u) ->
chained origin s n k -> exists n', chained (<[kv := Some u]> origin) s n' k.
Proof.
intros Hkv Hu. induction 1 as [|n k u' Hk Ho _ [n' IH]]; [exists 0%nat; constructor|].
destruct (decide (k = kv)) as [->|Hne].
- exists (S m). apply chained_step with u; [done| |done]. by rewrite lookup_insert_eq.
- exists (S n'). apply chained_step with u'; [done| |done]. by rewrite lookup_insert_ne.
Qed.

End Chains.

(** ** AStar: one relaxation *)

Section Relax.
Import AStar.
Variables (W H : Z) (rnd : nat -> Q).
Hypothesis rnd_nonneg : forall i, (0 <= rnd i)%Q.
Variables (sv ev : Vertex).

Local Abbreviation Inv := (searchInv W H rnd sv).
Local Abbreviation Closed := (frontierClosed W H rnd).
Local Abbreviation adjacent := (fun v : Vertex => generateAdjacencies (cell W H rnd) v W H).

(** Recording the cost [c + cost v] and the origin [cur] for a neighbour
[v] of [cur], and queueing [v]. *)
Lemma relax_update cur st v c prio :
Inv st -> gridVertex W H rnd cur -> costs st !! vkey cur = Some c -> v ∈ adjacent cur ->
let st' := mkSearch (PriorityQueue.insert (frontier st) v prio)
(<[vkey v := (c + cost v)%Q]> (costs st))
(<[vkey v := Some cur]> (origin st)) in
vkey v ≠ vkey sv ->
(forall n k, chained (origin st) (vkey sv) n k ->
exists n', chained (origin st') (vkey sv) n' k) ->
(exists n, chained (origin st') (vkey sv) n (vkey cur)) ->
(forall old, costs st !! vkey v = Some old -> (c + cost v <= old)%Q) ->
Inv st'
/\ (forall k, is_Some (costs st !! k) -> is_Some (costs st' !! k))
/\ (forall exc, Closed exc st -> Closed exc st').
Proof.
intros Hinv Hcur Hc Hv st' Hvs Hchains [n Hchain] Hbelow.
destruct (neighbour_gridVertex W H rnd cur v Hcur Hv) as [Hgv Hdiag].
destruct (gridVertex_cost W H rnd rnd_nonneg v Hgv) as (Hcost0 & Hunit & Hcell).
destruct (si_costs _ _ _ _ _ Hinv _ _ Hc) as (Hc0 & Hcunit & _ & _).
assert (vkey v ≠ vkey cur) as Hvc.
{ unfold diagonal, vkey, key in *. simpl in *. intros [= Hx Hy]. lia. }
assert (forall k, is_Some (costs st !! k) -> is_Some (costs st' !! k)) as Hmono.
{ intros k Hk. simpl. rewrite lookup_insert_is_Some. destruct (decide (vkey v = k)); auto. }
split; [|split; [done|]].
- split; simpl.
+ done.
+ intros en [->|Hen]%insert_elem; simpl.
* split; [done|]. by rewrite lookup_insert_eq.
* destruct (si_queue _ _ _ _ _ Hinv en Hen) as [Hg Hs]. split; [done|]. by apply Hmono.
+ rewrite !lookup_insert_ne by done. apply Hinv.
+ intros k. rewrite !lookup_insert_is_Some. rewrite (si_dom _ _ _ _ _ Hinv k). done.
+ intros k ck. rewrite lookup_insert. case_decide as Hk.
* intros [= <-]. subst k. split_and!.
-- lra.
-- by apply costUnit_plus.
-- by exists v.
-- exists (S n). apply chained_step with cur; [done| |done]. by rewrite lookup_insert_eq.
* intros Hck. destruct (si_costs _ _ _ _ _ Hinv _ _ Hck) as (H0 & Hu & Hg & [m Hm]).
split_and!; try done. by eapply Hchains.
+ intros k u. rewrite lookup_insert. case_decide as Hk.
* intros [= <-]. subst k. split; [done|]. split; [by exists v|].
exists c, (c + cost v)%Q. rewrite lookup_insert_ne by done.
rewrite lookup_insert_eq. split; [done|]. split; [done|].
lra.
* intros Ho. destruct (si_origin _ _ _ _ _ Hinv _ _ Ho) as (Hg & Hadj & cu & ck & Hcu & Hck & Hle).
split; [done|]. split; [done|].
rewrite (lookup_insert_ne _ _ k) by done. rewrite lookup_insert.
case_decide as Hu.
-- exists (c + cost v)%Q, ck. split; [done|]. split; [done|].
rewrite Hu in Hbelow. eapply Qle_trans; [by apply Hbelow|done].
-- by exists cu, ck.
- intros exc Hcl w Hw Hsw. simpl in *.
destruct (decide (vkey v = vkey w)) as [Heq|Hne].
{ right. left. eexists. split; [apply insert_elem; by left|done]. }
rewrite lookup_insert_ne in Hsw by done.
destruct (Hcl w Hw Hsw) as [?|[(en & Hen & Hk)|Hex]]; [by left| |].
+ right. left. exists en. split; [|done]. apply insert_elem. by right.
+ right. right. intros u Hu. apply Hmono. by apply Hex.
Qed.

Lemma relax_step cur st v :
Inv st -> gridVertex W H rnd cur -> is_Some (costs st !! vkey cur) -> v ∈ adjacent cur ->
exists st', relax (Some ev) cur st v = Ok st'
/\ Inv st'
/\ is_Some (costs st' !! vkey v)
/\ (forall k, is_Some (costs st !! k) -> is_Some (costs st' !! k))
/\ (forall exc, Closed exc st -> Closed exc st')
/\ (st' = st \/ lexlt (searchMeasure W H rnd st') (searchMeasure W H rnd st)).
Proof.
intros Hinv Hcur [c Hc] Hv.
destruct (neighbour_gridVertex W H rnd cur v Hcur Hv) as [Hgv Hdiag].
destruct (gridVertex_cost W H rnd rnd_nonneg v Hgv) as (Hcost0 & Hunit & Hcell).
destruct (si_costs _ _ _ _ _ Hinv _ _ Hc) as (Hc0 & Hcunit & _ & [n Hchain]).
assert (0 <= c + cost v)%Q as Hnew0 by lra.
assert (c <= c + cost v)%Q as Hcle.
{ lra. }
unfold relax. rewrite Hc. destruct (costs st !! vkey v) as [old|] eqn:Hold.
- destruct (ltb (c + cost v) old) eqn:Hlt.
2: { exists st. split; [done|]. split; [done|]. split; [by rewrite Hold|]. auto. }
apply ltb_lt in Hlt. simpl.
assert (vkey v ≠ vkey sv) as Hvs.
{ intros Heq. rewrite Heq in Hold. destruct (si_start _ _ _ _ _ Hinv) as [Hs _].
rewrite Hs in Hold. injection Hold as <-. by apply Qlt_not_le in Hlt. }
assert (chained (<[vkey v := Some cur]> (origin st)) (vkey sv) n (vkey cur)) as Hcur'.
{ eapply (chained_insert_below _ (costs st)); [exact Hold| |exact Hchain|exact Hc|].
- intros k u Ho. by destruct (si_origin _ _ _ _ _ Hinv _ _ Ho) as (_ & _ & Hcosts).
- by eapply Qle_lt_trans. }
destruct (relax_update cur st v c
(c + cost v + inject_Z (Z.abs (vx v - vx ev) + Z.abs (vy v - vy ev)) / sqrt2)%Q
Hinv Hcur Hc Hv Hvs) as (Hinv' & Hmono & Hclosed).
{ intros m k Hk. by eapply chained_redirect. }
{ by exists n. }
{ intros old' Hold'. rewrite Hold in Hold'. injection Hold' as <-. by apply Qlt_le_weak. }
eexists. split; [done|]. split; [exact Hinv'|]. split; [by simpl; rewrite lookup_insert_eq|].
split; [done|]. split; [done|]. right. right. simpl. split.
+ apply unknown_insert_old. by rewrite Hold.
+ eapply scaled_insert_less; [done|exact Hold|].
apply costUnit_floor_lt; try done.
* by apply costUnit_plus.
* by destruct (si_costs _ _ _ _ _ Hinv _ _ Hold) as (_ & Hu & _).
- simpl.
assert (origin st !! vkey v = None) as Hfresh.
{ destruct (origin st !! vkey v) eqn:Ho; [|done].
assert (is_Some (costs st !! vkey v)) as [? Hs]; [|by rewrite Hold in Hs].
apply (si_dom _ _ _ _ _ Hinv). by rewrite Ho. }
assert (vkey v ≠ vkey sv) as Hvs.
{ intros Heq. rewrite Heq in Hold. destruct (si_start _ _ _ _ _ Hinv) as [Hs _].
by rewrite Hs in Hold. }
destruct (relax_update cur st v c
(c + cost v + inject_Z (Z.abs (vx v - vx ev) + Z.abs (vy v - vy ev)) / sqrt2)%Q
Hinv Hcur Hc Hv Hvs) as (Hinv' & Hmono & Hclosed).
{ intros m k Hk. exists m. by apply chained_insert_fresh. }
{ exists n. by apply chained_insert_fresh. }
{ intros old' Hold'. by rewrite Hold in Hold'. }
eexists. split; [done|]. split; [exact Hinv'|]. split; [by simpl; rewrite lookup_insert_eq|].
split; [done|]. split; [done|]. right. left. simpl. by apply unknown_insert_new.
Qed.

End Relax.

(** ** AStar: the search loop *)

Lemma lexlt_trans m1 m2 m3 : lexlt m1 m2 -> lexlt m2 m3 -> lexlt m1 m3.
Proof. unfold lexlt. lia. Qed.

Lemma searchLoop_more fuel k a endV : forall s r,
  AStar.searchLoop fuel a endV s = Ok r -> AStar.searchLoop (fuel + k) a endV s = Ok r.
Proof.
  induction fuel as [|fuel IH]; intros s r; simpl; [done|].
  destruct (0 <? PriorityQueue.length (AStar.frontier s))%nat; [|done].
  destruct (PriorityQueue.dequeue (AStar.frontier s)) as [[current|] fr]; [|done].
  destruct (AStar.sameVertex current endV); [done|].
  destruct (AStar.adjacencies a !! AStar.vkey current); [|done].
  destruct (AStar.relaxAll _ _ _ _) as [s2| |]; simpl; [apply IH|done..].
Qed.

Lemma backtrace_more fuel k origin : forall current path r,
  AStar.backtrace fuel origin current path = Ok r ->
  AStar.backtrace (fuel + k) origin current path = Ok r.
Proof.
  induction fuel as [|fuel IH]; intros current path r; simpl.
  - destruct current; [done|]. intros [= <-]. apply backtrace_None.
  - destruct current; [|done]. apply IH.
Qed.

Section SearchLoop.
Import AStar.
Variables (W H : Z) (rnd : nat -> Q).
Hypothesis rnd_nonneg : forall i, (0 <= rnd i)%Q.
Variables (sv ev : Vertex).

Local Abbreviation Inv := (searchInv W H rnd sv).
Local Abbreviation Closed := (frontierClosed W H rnd).
Local Abbreviation adjacent := (fun v : Vertex => generateAdjacencies (cell W H rnd) v W H).
Local Abbreviation measure := (searchMeasure W H rnd).

Lemma relaxAll_steps cur vs : forall st,
Inv st -> gridVertex W H rnd cur -> is_Some (costs st !! vkey cur) ->
(forall v, v ∈ vs -> v ∈ adjacent cur) ->
exists st', relaxAll (Some ev) cur st vs = Ok st'
/\ Inv st'
/\ (forall v, v ∈ vs -> is_Some (costs st' !! vkey v))
/\ (forall k, is_Some (costs st !! k) -> is_Some (costs st' !! k))
/\ (forall exc, Closed exc st -> Closed exc st')
/\ (st' = st \/ lexlt (measure st') (measure st)).
Proof.
induction vs as [|v vs IH]; intros st Hinv Hcur Hc Hvs; simpl.
- exists st. split_and!; auto. intros v Hv. by apply elem_of_nil in Hv.
- destruct (relax_step W H rnd rnd_nonneg sv ev cur st v)
as (st1 & Hrun1 & Hinv1 & Hv1 & Hmono1 & Hcl1 & Hm1); try done.
{ apply Hvs. by left. }
rewrite Hrun1. simpl.
destruct (IH st1) as (st' & Hrun & Hinv' & Hall & Hmono & Hcl & Hm); try done.
{ by apply Hmono1. }
{ intros u Hu. apply Hvs. by right. }
exists st'. split_and!; auto.
+ intros u [->|Hu]%elem_of_cons; auto.
+ destruct Hm as [->|Hm]; [done|]. right.
destruct Hm1 as [->|Hm1]; [done|]. by eapply lexlt_trans.
Qed.

(** The loop returns: with the end vertex costed, or with an empty
frontier and every costed vertex expanded. *)
Lemma searchLoop_total : forall u s q st,
Inv st -> Closed [] st ->
(measure st).1 = u -> (measure st).2 = s ->
length (PriorityQueue.queue (frontier st)) = q ->
exists fuel ex st',
searchLoop fuel (new W H rnd) (Some ev) st = Ok (ex, st')
/\ Inv st'
/\ (is_Some (costs st' !! vkey ev)
\/ (Closed [] st' /\ PriorityQueue.queue (frontier st') = [])).
Proof.
induction u as [u IHu] using lt_wf_ind. induction s as [s IHs] using lt_wf_ind.
induction q as [q IHq] using lt_wf_ind. intros st Hinv Hcl Hu Hs Hq.
pose proof (si_length _ _ _ _ _ Hinv) as Hlen.
destruct (PriorityQueue.queue (frontier st)) as [|en rest] eqn:Hqueue.
{ exists 1%nat, ByEmpty, st. simpl. rewrite Hlen. simpl. auto. }
destruct (si_queue _ _ _ _ _ Hinv en) as [Hcur Hcost]; [rewrite Hqueue; by left|].
set (st1 := mkSearch (PriorityQueue.mkQueue rest (length rest)) (costs st) (origin st)).
assert (Inv st1) as Hinv1.
{ destruct Hinv as [H1 H2 H3 H4 H5 H6]. split; simpl; try done.
intros en' Hen'. apply H2. rewrite Hqueue. by right. }
assert (forall fuel,
searchLoop (S fuel) (new W H rnd) (Some ev) st
= if sameVertex (PriorityQueue.data en) (Some ev) then Ok (ByBreak, st1)
else s2 ← relaxAll (Some ev) (PriorityQueue.data en) st1
(adjacent (PriorityQueue.data en));
searchLoop fuel (new W H rnd) (Some ev) s2) as Hunfold.
{ intros fuel. cbn [searchLoop]. rewrite Hlen. cbn [length Nat.ltb Nat.leb].
unfold PriorityQueue.dequeue. rewrite Hqueue.
fold st1. destruct (sameVertex _ _); [done|].
by rewrite (adjacencies_gridVertex W H rnd _ Hcur). }
destruct (sameVertex (PriorityQueue.data en) (Some ev)) eqn:Hsame.
{ exists 1%nat, ByBreak, st1. rewrite Hunfold. split; [done|]. split; [done|]. left.
simpl in *. apply bool_decide_eq_true in Hsame. by rewrite <- Hsame. }
destruct (relaxAll_steps (PriorityQueue.data en) (adjacent (PriorityQueue.data en)) st1)
as (st2 & Hrun & Hinv2 & Hall & Hmono & Hclosed & Hm); try done.
assert (Closed [] st2) as Hcl2.
{ intros w Hw Hsw.
assert (Closed [vkey (PriorityQueue.data en)] st1) as Hcl1.
{ intros w' Hw' Hsw'. destruct (Hcl w' Hw' Hsw') as [Hin|[(en' & Hen' & Hk)|Hex]].
- by apply elem_of_nil in Hin.
- rewrite Hqueue in Hen'. apply elem_of_cons in Hen' as [->|Hen'].
+ left. rewrite Hk. by left.
+ right. left. by exists en'.
- by right; right. }
destruct (Hclosed _ Hcl1 w Hw Hsw) as [Hin|[Hq'|Hex]]; [|by right; left|by right; right].
apply list_elem_of_singleton in Hin. right. right.
rewrite (gridVertex_key_inj W H rnd _ _ Hw Hcur Hin). exact Hall. }
assert (exists fuel ex st',
searchLoop fuel (new W H rnd) (Some ev) st2 = Ok (ex, st')
/\ Inv st'
/\ (is_Some (costs st' !! vkey ev)
\/ (Closed [] st' /\ PriorityQueue.queue (frontier st') = [])))
as (fuel & ex & st' & Hloop & Hrest).
{ destruct Hm as [->|[Hlt|[Heq Hlt]]].
- apply (IHq (length rest)); try done. simpl. subst q. simpl. lia.
- eapply (IHu _ ltac:(subst u; exact Hlt)); try done.
- eapply (IHs _ ltac:(subst s; exact Hlt)); try done. by rewrite Heq. }
exists (S fuel), ex, st'. rewrite Hunfold, Hrun. simpl. done.
Qed.

End SearchLoop.

(** ** AStar: the cells of one colour are connected *)

Lemma diagClosed_flip W H C : diagClosed W H C -> diagClosed H W (fun cx cy => C cy cx).
Proof. intros Hcl cx cy dx dy Hs Hdx Hdy Hx Hy. by apply Hcl. Qed.

Lemma diagClosed_two W H C cx cy d :
  2 <= H -> diagClosed W H C -> C cx cy -> 0 <= cx < W -> 0 <= cy < H ->
  (d = 1 \/ d = -1) -> 0 <= cx + d + d < W -> C (cx + d + d) cy.
Proof.
  intros Htall Hcl Hs Hx Hy Hd Hx'. destruct (decide (cy + 1 < H)) as [Hup|Hup].
  - replace cy with (cy + 1 + -1) by lia.
    apply Hcl; [|done|by right|done|lia]. apply Hcl; [done|done|by left|lia|lia].
  - replace cy with (cy + -1 + 1) by lia.
    apply Hcl; [|done|by left|done|lia]. apply Hcl; [done|done|by right|lia|lia].
Qed.

Lemma diagClosed_row W H C cy d (n : nat) : forall cx,
  2 <= H -> diagClosed W H C -> C cx cy -> 0 <= cx < W -> 0 <= cy < H ->
  (d = 1 \/ d = -1) -> 0 <= cx + 2 * d * Z.of_nat n < W -> C (cx + 2 * d * Z.of_nat n) cy.
Proof.
  induction n as [|n IH]; intros cx Htall Hcl Hs Hx Hy Hd Hx'.
  - by replace (cx + 2 * d * Z.of_nat 0) with cx by lia.
  - replace (cx + 2 * d * Z.of_nat (S n)) with (cx + d + d + 2 * d * Z.of_nat n) by lia.
    apply IH; try done.
    + apply diagClosed_two with W H; try done. destruct Hd as [-> | ->]; lia.
    + destruct Hd as [-> | ->]; lia.
    + lia.
Qed.

Lemma diagClosed_along W H C cx cy cx' :
  2 <= H -> diagClosed W H C -> C cx cy -> 0 <= cx < W -> 0 <= cy < H ->
  0 <= cx' < W -> Z.Even (cx' - cx) -> C cx' cy.
Proof.
  intros Htall Hcl Hs Hx Hy Hx' [k Hk]. destruct (decide (0 <= k)) as [Hpos|Hneg].
  - replace cx' with (cx + 2 * 1 * Z.of_nat (Z.to_nat k)) by lia.
    apply diagClosed_row with W H; try done; [by left|lia].
  - replace cx' with (cx + 2 * -1 * Z.of_nat (Z.to_nat (- k))) by lia.
    apply diagClosed_row with W H; try done; [by right|lia].
Qed.

Lemma even_false_Odd n : Z.even n = false -> exists m, n = 2 * m + 1.
Proof.
  intros Hn. apply Z.odd_spec. by rewrite <- Z.negb_even, Hn.
Qed.

Lemma diagClosed_connected W H C sx sy tx ty :
  2 <= W -> 2 <= H -> diagClosed W H C -> C sx sy ->
  0 <= sx < W -> 0 <= sy < H -> 0 <= tx < W -> 0 <= ty < H ->
  Z.even (sx + sy) = true -> Z.even (tx + ty) = true -> C tx ty.
Proof.
  intros Hwide Htall Hcl Hs Hsx Hsy Htx Hty [a Ha]%Z.even_spec [b Hb]%Z.even_spec.
  assert (forall cx cy, C cx cy -> 0 <= cx < W -> 0 <= cy < H ->
            Z.Even (tx - cx) -> Z.Even (ty - cy) -> C tx ty) as Hgo.
  { intros cx cy Hc Hx Hy Hex Hey.
    apply (diagClosed_along H W (fun cx cy => C cy cx) cy tx ty); try done.
    - by apply diagClosed_flip.
- by apply (diagClosed_along W H C cx cy tx). }
  destruct (Z.even (tx - sx)) eqn:Hpar.
  - apply Z.even_spec in Hpar as [c Hc].
    apply (Hgo sx sy); try done; [by exists c|]. exists (b - a - c). lia.
  - apply even_false_Odd in Hpar as [c Hc].
    destruct (decide (sx + 1 < W)) as [Hdx|Hdx], (decide (sy + 1 < H)) as [Hdy|Hdy].
    + apply (Hgo (sx + 1) (sy + 1)); [apply Hcl; auto; lia|lia|lia| |].
      * exists c. lia.
      * exists (b - a - c - 1). lia.
    + apply (Hgo (sx + 1) (sy + -1)); [apply Hcl; auto; lia|lia|lia| |].
      * exists c. lia.
      * exists (b - a - c). lia.
    + apply (Hgo (sx + -1) (sy + 1)); [apply Hcl; auto; lia|lia|lia| |].
      * exists (c + 1). lia.
      * exists (b - a - c - 1). lia.
    + apply (Hgo (sx + -1) (sy + -1)); [apply Hcl; auto; lia|lia|lia| |].
      * exists (c + 1). lia.
      * exists (b - a - c). lia.
Qed.

(** ** AStar: the path read back from [origin] *)

Lemma searchLoop_le fuel fuel' a endV s r :
  (fuel <= fuel')%nat -> AStar.searchLoop fuel a endV s = Ok r ->
  AStar.searchLoop fuel' a endV s = Ok r.
Proof.
  intros Hle Hrun. replace fuel' with (fuel + (fuel' - fuel))%nat by lia.
  by apply searchLoop_more.
Qed.

Lemma backtrace_le fuel fuel' origin current path r :
  (fuel <= fuel')%nat -> AStar.backtrace fuel origin current path = Ok r ->
  AStar.backtrace fuel' origin current path = Ok r.
Proof.
  intros Hle Hrun. replace fuel' with (fuel + (fuel' - fuel))%nat by lia.
  by apply backtrace_more.
Qed.

Lemma diagonalPath_snoc W H l p q :
  diagonalPath W H l -> last l = Some p -> diagonal p q -> inGrid W H q ->
  diagonalPath W H (l ++ [q]).
Proof.
  induction l as [|a l IH]; [done|]. intros (Ha & Hnext & Hrest) Hlast Hd Hq.
  destruct l as [|b l].
  - simpl in *. injection Hlast as ->. done.
  - rewrite last_cons_cons in Hlast. change ((a :: b :: l) ++ [q]) with (a :: (b :: l) ++ [q]).
    split; [done|]. split; [done|]. by apply IH.
Qed.

Lemma head_snoc {A} (l : list A) (a b : A) : head l = Some a -> head (l ++ [b]) = Some a.
Proof. by destruct l. Qed.

Lemma vpoint_cell W H rnd p : AStar.vpoint (AStar.cell W H rnd (x p) (y p)) = p.
Proof. by destruct p. Qed.

Lemma gridVertex_inGrid W H rnd v : gridVertex W H rnd v -> inGrid W H (AStar.vpoint v).
Proof. by intros (_ & Hx & Hy & _). Qed.

Lemma chained_zero origin s k : chained origin s 0 k -> k = s.
Proof. by inversion 1. Qed.

Lemma chained_succ origin s n k :
  chained origin s (S n) k ->
  k ≠ s /\ exists u, origin !! k = Some (Some u) /\ chained origin s n (AStar.vkey u).
Proof. inversion 1; eauto. Qed.

Section Backtrace.
Import AStar.
Variables (W H : Z) (rnd : nat -> Q) (sv : Vertex) (st : search).
Hypothesis start_vertex : gridVertex W H rnd sv.
Hypothesis invariant : searchInv W H rnd sv st.

Lemma searchInv_init : searchInv W H rnd sv (initSearch sv)
/\ frontierClosed W H rnd [] (initSearch sv).
Proof.
split.
- split; simpl.
+ done.
+ intros en Hen. apply list_elem_of_singleton in Hen as ->. simpl.
split; [done|]. by rewrite lookup_singleton_eq.
+ by rewrite !lookup_singleton_eq.
+ intros k. destruct (decide (k = vkey sv)) as [->|Hne].
* by rewrite !lookup_singleton_eq.
* by rewrite !lookup_singleton_ne.
+ intros k c [<- <-]%lookup_singleton_Some. split_and!.
* done.
* apply costUnit_zero.
* by exists sv.
* exists 0%nat. constructor.
+ intros k u [_ [=]]%lookup_singleton_Some.
- intros v Hv Hc. right. left. exists (PriorityQueue.mkEntry sv 0). split; [by left|].
simpl. destruct (decide (vkey sv = vkey v)) as [|Hne]; [done|].
simpl in Hc. rewrite lookup_singleton_ne in Hc by done. by destruct Hc.
Qed.

Lemma backtrace_chained n : forall c acc,
gridVertex W H rnd c -> chained (origin st) (vkey sv) n (vkey c) ->
exists trail,
backtrace (S n) (origin st) (Some c) acc = Ok (acc ++ c :: trail)
/\ diagonalPath W H (vpoint <$> rev (c :: trail))
/\ head (vpoint <$> rev (c :: trail)) = Some (vpoint sv)
/\ last (vpoint <$> rev (c :: trail)) = Some (vpoint c).
Proof.
induction n as [|n IH]; intros c acc Hc Hch.
- apply chained_zero in Hch as Heq. symmetry in Heq. exists []. cbn [backtrace]. rewrite <- Heq.
rewrite (proj2 (si_start _ _ _ _ _ invariant)).
rewrite (gridVertex_key_inj W H rnd _ _ start_vertex Hc Heq).
split_and!; try done. simpl. split; [|done]. by apply (gridVertex_inGrid W H rnd).
- apply chained_succ in Hch as (Hk & u & Ho & Hch').
destruct (si_origin _ _ _ _ _ invariant _ _ Ho) as (Hu & (v & Hv & Hvk) & _).
destruct (neighbour_gridVertex W H rnd _ _ Hu Hv) as [Hgv Hdiag].
rewrite (gridVertex_key_inj W H rnd _ _ Hgv Hc Hvk) in Hdiag.
destruct (IH u (acc ++ [c]) Hu Hch') as (trail & Hbt & Hpath & Hhead & Hlast).
exists (u :: trail). change (rev (c :: u :: trail)) with (rev (u :: trail) ++ [c]).
rewrite fmap_app. split_and!.
+ change (backtrace (S (S n)) (origin st) (Some c) acc)
with (backtrace (S n) (origin st)
(match origin st !! vkey c with Some o => o | None => None end) (acc ++ [c])).
rewrite Ho, Hbt. by rewrite <- app_assoc.
+ apply diagonalPath_snoc with (vpoint u); try done. by apply (gridVertex_inGrid W H rnd).
+ by apply head_snoc.
+ apply last_snoc.
Qed.

End Backtrace.

Lemma find_same W H rnd p k :
  inGrid W H p -> AStar.find (S k) (AStar.new W H rnd) p p = Ok [p].
Proof.
  intros [Hx Hy]. unfold AStar.find, AStar.runSearch. rewrite getVertex_new.
  rewrite !bool_decide_true by done. cbn [mbind outcome_bind].
  set (pv := AStar.cell W H rnd (x p) (y p)).
  change (AStar.searchLoop (S k) (AStar.new W H rnd) (Some pv) (AStar.initSearch pv))
    with (if AStar.sameVertex pv (Some pv)
          then Ok (AStar.ByBreak,
                   AStar.mkSearch (PriorityQueue.mkQueue [] 0) {[AStar.vkey pv := 0%Q]}
                     {[AStar.vkey pv := None]})
          else match AStar.adjacencies (AStar.new W H rnd) !! AStar.vkey pv with
               | None => TypeError
               | Some vs =>
                   s2 ← AStar.relaxAll (Some pv) pv
                          (AStar.mkSearch (PriorityQueue.mkQueue [] 0) {[AStar.vkey pv := 0%Q]}
                             {[AStar.vkey pv := None]}) vs;
                   AStar.searchLoop k (AStar.new W H rnd) (Some pv) s2
               end).
  unfold AStar.sameVertex. rewrite bool_decide_true by done. cbn [mbind outcome_bind].
  cbn [AStar.backtrace AStar.origin]. rewrite lookup_singleton_eq, backtrace_None.
  simpl. by destruct p.
Qed.

(** C2 (as amended).  For draws of [Math.random] that are not negative and
    [start] and [end] within the bounds of the grid, [find] returns when
    either [start] and [end] are the same point, or the grid is at least
    two cells wide and two cells high and the coordinate sums of [start]
    and of [end] are both even.  The sequence it returns begins at [start],
    ends at [end], every point of it lies within the bounds and every two
    consecutive points differ by exactly (±1, ±1). *)
Theorem find_diagonal_path (W H : Z) (rnd : nat -> Q) (start end_ : Point) :
  (forall i, (0 <= rnd i)%Q) ->
  inGrid W H start -> inGrid W H end_ ->
  start = end_
  \/ (2 <= W /\ 2 <= H
      /\ Z.even (x start + y start) = true /\ Z.even (x end_ + y end_) = true) ->
  exists fuel0 path,
    (forall k, AStar.find (fuel0 + k) (AStar.new W H rnd) start end_ = Ok path)
    /\ head path = Some start /\ last path = Some end_
    /\ diagonalPath W H path.
Proof.
  intros Hrnd Hs He [<-|(Hwide & Htall & Hse & Hee)].
  { exists 1%nat, [start]. split; [intros k; by apply find_same|]. simpl. done. }
  set (sv := AStar.cell W H rnd (x start) (y start)).
  set (ev := AStar.cell W H rnd (x end_) (y end_)).
  destruct Hs as [Hsx Hsy], He as [Hex Hey].
  assert (gridVertex W H rnd sv) as Hsv by by apply gridVertex_cell.
  assert (gridVertex W H rnd ev) as Hev by by apply gridVertex_cell.
  destruct (searchInv_init W H rnd sv Hsv) as [Hinv0 Hcl0].
  destruct (searchLoop_total W H rnd Hrnd sv ev _ _ _ (AStar.initSearch sv)
              Hinv0 Hcl0 eq_refl eq_refl eq_refl)
    as (f1 & ex & st' & Hloop & Hinv' & Hend).
  assert (is_Some (AStar.costs st' !! AStar.vkey ev)) as [c Hc].
  { destruct Hend as [|[Hcl Hq]]; [done|].
    apply (diagClosed_connected W H (fun cx cy => is_Some (AStar.costs st' !! (cx, cy)))
             (x start) (y start) (x end_) (y end_)); try done.
    - intros cx cy dx dy [cc Hcc] Hdx Hdy Hbx Hby.
      destruct (si_costs _ _ _ _ _ Hinv' _ _ Hcc) as (_ & _ & (v & Hv & Hvk) & _).
      destruct (Hcl v Hv) as [Hin|[(en & Hen & _)|Hall]].
      + rewrite Hvk. eauto.
      + by apply elem_of_nil in Hin.
      + rewrite Hq in Hen. by apply elem_of_nil in Hen.
      + unfold AStar.vkey, key, AStar.vpoint in Hvk. simpl in Hvk. injection Hvk as Hvx Hvy.
        apply (Hall (AStar.cell W H rnd (cx + dx) (cy + dy))).
        apply generateAdjacencies_elem. exists dx, dy. subst cx cy. done.
    - destruct (si_start _ _ _ _ _ Hinv') as [H0 _]. by eexists. }
  destruct (si_costs _ _ _ _ _ Hinv' _ _ Hc) as (_ & _ & _ & n & Hch).
  destruct (backtrace_chained W H rnd sv st' Hsv Hinv' n ev [] Hev Hch)
    as (trail & Hbt & Hpath & Hhead & Hlast).
  exists (f1 + S n)%nat, (AStar.vpoint <$> rev (ev :: trail)). split.
  - intros k. unfold AStar.find, AStar.runSearch. rewrite !getVertex_new.
    rewrite !bool_decide_true by done. cbn [mbind outcome_bind]. fold sv ev.
rewrite (searchLoop_le f1 (f1 + S n + k) _ _ _ _ ltac:(lia) Hloop). cbn [mbind outcome_bind].
by rewrite (backtrace_le (S n) (f1 + S n + k) _ _ _ _ ltac:(lia) Hbt).
  - unfold sv, ev in Hhead, Hlast. rewrite vpoint_cell in Hhead, Hlast. done.
Qed.

Lemma find_diagonal_path_witness :
  exists fuel0 path,
    (forall k, AStar.find (fuel0 + k) (AStar.new 3 3 zeroDraws) (mkPoint 0 0) (mkPoint 2 2)
               = Ok path)
    /\ head path = Some (mkPoint 0 0) /\ last path = Some (mkPoint 2 2)
    /\ diagonalPath 3 3 path.
Proof.
  apply (find_diagonal_path 3 3 zeroDraws (mkPoint 0 0) (mkPoint 2 2)).
  - intros i. unfold zeroDraws. apply Qle_refl.
  - split; simpl; lia.
  - split; simpl; lia.
  - right. split_and!; [lia|lia|reflexivity|reflexivity].
Defined.

(** C2 does not hold as stated.  In a grid of two by two cells, (0,1) and
    (1,0) are within bounds and have the same, odd, coordinate sum, and
    [find] throws: the constructor stores adjacency lists only for cells
    whose coordinates are both even or both odd.  In a grid three cells
    wide and one cell high, (0,0) and (2,0) are within bounds and both have
    an even coordinate sum, and [find] returns [(2,0)] alone, which does not
    begin at the start. *)
Lemma find_fails_within_colour :
  (forall k, AStar.find (S k) (AStar.new 2 2 zeroDraws) (mkPoint 0 1) (mkPoint 1 0)
             = TypeError)
  /\ AStar.find 5 (AStar.new 3 1 zeroDraws) (mkPoint 0 0) (mkPoint 2 0) = Ok [mkPoint 2 0].
Proof.
  split; [intros k|]; by vm_compute.
Qed.

(** * Further properties of the sources *)

(** ** helpers.ts: evensInRange *)

Ltac zdiv := Z.to_euclidean_division_equations; lia.

Lemma even_rem_cases s :
  (Z.even s = true /\ Z.rem s 2 = 0)
  \/ (Z.even s = false /\ (Z.rem s 2 = 1 /\ 0 < s \/ Z.rem s 2 = -1 /\ s < 0)).
Proof.
  rewrite Zeven_mod. destruct (Z.eqb_spec (s mod 2) 0) as [Hz|Hz]; [left|right];
    (split; [done|]); zdiv.
Qed.

Lemma count_evens (n : nat) : forall s,
  Z.of_nat (length (List.filter Z.even (seqZ s (Z.of_nat n))))
  = (Z.of_nat n + (if Z.even s then 1 else 0)) / 2.
Proof.
  induction n as [|n IH]; intros s.
  - simpl. by destruct (Z.even s).
  - rewrite Nat2Z.inj_succ, seqZ_cons by lia. rewrite Z.pred_succ. cbn [List.filter].
    replace (Z.succ s) with (s + 1) by lia.
    assert (Z.even (s + 1) = negb (Z.even s)) as Hs
      by (rewrite Z.even_add; by destruct (Z.even s)).
    destruct (Z.even s) eqn:He; cbn [length];
      rewrite ?Nat2Z.inj_succ, IH, Hs; simpl negb; cbv iota; zdiv.
Qed.

(** For integers [start] and [end] of magnitude at most [2^51], where
    the differences, sums and the halving of the expression are exact in
    doubles, and a range that is not inverted, [evensInRange(start, end)]
    is the number of even integers from [start] to [end], except that it
    counts one too many when [start] is negative and odd ([start % 2] is
    then -1, not 1). *)
Theorem evensInRange_count (start end_ : Z) :
  Z.abs start <= 2 ^ 51 -> Z.abs end_ <= 2 ^ 51 ->
  start <= end_ + 1 ->
  evensInRange start end_
  = Z.of_nat (length (evensBetween start end_))
    + (if (start <? 0) && Z.odd start then 1 else 0).
Proof.
  intros _ _ Hle. unfold evensBetween.
  replace (end_ - start + 1) with (Z.of_nat (Z.to_nat (end_ - start + 1))) by lia.
  rewrite count_evens. rewrite Z2Nat.id by lia. unfold evensInRange.
  rewrite <- Z.negb_even.
  destruct (even_rem_cases start) as [[-> ->]|[-> [[-> Hs]|[-> Hs]]]]; simpl negb.
  all: destruct (Z.ltb_spec start 0); simpl andb; cbv iota; try lia; zdiv.
Qed.

Lemma evensInRange_count_witness :
  evensInRange (-3) 4
  = Z.of_nat (length (evensBetween (-3) 4)) + (if (-3 <? 0) && Z.odd (-3) then 1 else 0).
Proof. apply (evensInRange_count (-3) 4); lia. Defined.

(** ** helpers.ts: unique *)

Lemma unique_acc_spec {T} `{Nullish T} (comparison : T -> T -> bool) (ary : list T) :
  forall uniqAry,
  exists kept,
    unique_acc comparison uniqAry ary = uniqAry ++ kept
    /\ sublist kept ary
    /\ (forall el, el ∈ ary ->
          el ∈ kept
          \/ exists el2, el2 ∈ uniqAry ++ kept /\ comparison el el2 = true
                         /\ nullish el2 = false)
    /\ (forall i j a b, (i < j)%nat -> (length uniqAry <= j)%nat ->
          (uniqAry ++ kept) !! i = Some a -> (uniqAry ++ kept) !! j = Some b ->
          comparison b a = true ->
          exists i' n, (i' <= i)%nat /\ (uniqAry ++ kept) !! i' = Some n
                       /\ comparison b n = true /\ nullish n = true).
Proof.
  induction ary as [|el rest IH]; intros uniqAry; simpl.
  - exists []. rewrite app_nil_r. split_and!; [done|done| |].
    + intros el Hel. by apply elem_of_nil in Hel.
    + intros i j a b Hij Hj _ Hb. apply lookup_lt_Some in Hb. lia.
  - pose proof (find_first (fun el2 => comparison el el2) uniqAry) as Hfind.
    destruct (match List.find (fun el2 => comparison el el2) uniqAry with
              | Some found => nullish found
              | None => true
              end) eqn:Htest.
    + destruct (IH (uniqAry ++ [el])) as (kept & Hrun & Hsub & Hall & Hpair).
      rewrite <- app_assoc in Hrun, Hall, Hpair. simpl in Hrun, Hall, Hpair.
      exists (el :: kept). split_and!; [done|by apply sublist_skip|..].
      * intros el' [->|Hel']%elem_of_cons; [left; by left|].
        destruct (Hall el' Hel') as [?|?]; [left; by right|by right].
      * intros i j a b Hij Hj Ha Hb Hrel.
        destruct (decide (j = length uniqAry)) as [->|Hne].
        -- rewrite lookup_app_r in Hb by lia. rewrite Nat.sub_diag in Hb. injection Hb as <-.
           rewrite lookup_app_l in Ha by lia.
           destruct (List.find (fun el2 => comparison el el2) uniqAry) as [found|].
           ++ destruct Hfind as (i' & Hi' & Hc & Hmin).
              exists i', found. split_and!; [|by apply lookup_app_l_Some|done|done].
              destruct (le_lt_dec i' i) as [|Hlt]; [done|].
              specialize (Hmin i a Hlt Ha). simpl in Hmin. congruence.
           ++ apply list_elem_of_lookup_2 in Ha. specialize (Hfind a Ha). simpl in Hfind.
              congruence.
        -- apply (Hpair i j a b); try done. rewrite length_app. simpl. lia.
    + destruct (List.find (fun el2 => comparison el el2) uniqAry) as [found|]; [|done].
      destruct Hfind as (i' & Hi' & Hc & _).
      destruct (IH uniqAry) as (kept & Hrun & Hsub & Hall & Hpair).
      exists kept. split_and!; [done|by apply sublist_cons|..|done].
      intros el' [->|Hel']%elem_of_cons; [|by apply Hall].
      right. exists found. split_and!; [|done|done].
      apply elem_of_app. left. by eapply list_elem_of_lookup_2.
Qed.

(** [unique] keeps a subsequence of [ary].  An element is dropped only
    when [comparison] relates it to an element that was kept and is not
    [null].  A kept element can be related to one kept before it only
    when the first kept element it is related to is [null]; so for an
    array without [null] no kept element is related to an earlier one. *)
Theorem unique_spec {T} `{Nullish T} (comparison : T -> T -> bool) (ary : list T) :
  sublist (unique ary comparison) ary
  /\ (forall el, el ∈ ary ->
        el ∈ unique ary comparison
        \/ exists el2, el2 ∈ unique ary comparison /\ comparison el el2 = true
                       /\ nullish el2 = false)
  /\ (forall i j a b, (i < j)%nat ->
        unique ary comparison !! i = Some a -> unique ary comparison !! j = Some b ->
        comparison b a = true ->
        exists i' n, (i' <= i)%nat /\ unique ary comparison !! i' = Some n
                     /\ comparison b n = true /\ nullish n = true)
  /\ ((forall el, el ∈ ary -> nullish el = false) ->
      forall i j a b, (i < j)%nat ->
        unique ary comparison !! i = Some a -> unique ary comparison !! j = Some b ->
        comparison b a = false).
Proof.
  unfold unique. destruct (unique_acc_spec comparison ary []) as (kept & -> & Hsub & Hall & Hpair).
  simpl in *.
  assert (forall i j a b, (i < j)%nat -> kept !! i = Some a -> kept !! j = Some b ->
            comparison b a = true ->
            exists i' n, (i' <= i)%nat /\ kept !! i' = Some n
                         /\ comparison b n = true /\ nullish n = true) as Hrel.
  { intros i j a b Hij. apply Hpair; [done|lia]. }
  split_and!; [done|done|done|].
  intros Hnone i j a b Hij Ha Hb. destruct (comparison b a) eqn:Hc; [|done].
  destruct (Hrel i j a b Hij Ha Hb Hc) as (i' & n & _ & Hn & _ & Hnull).
  rewrite Hnone in Hnull; [done|].
  apply list_elem_of_lookup_2 in Hn. by eapply elem_of_sublist.
Qed.

(** Two [null]s are both kept, whatever the comparison: the earlier one is
    found, and the found [null] passes the [== null] test. *)
Lemma unique_keeps_nulls (comparison : option Z -> option Z -> bool) :
  unique [None; None] comparison = [None; None].
Proof. unfold unique. simpl. by destruct (comparison None None). Qed.

(** ** PriorityQueue: what [insert] keeps *)

Section QueueOrder.
Import PriorityQueue.
Context {T : Type}.

Lemma ascending_app (l1 l2 : list (PQueueEntry T)) :
ascending (l1 ++ l2)
<-> ascending l1 /\ ascending l2
/\ forall a b, a ∈ l1 -> b ∈ l2 -> (priority a <= priority b)%Q.
Proof.
induction l1 as [|e l1 IH]; simpl.
- split; [|tauto]. intros H. split_and!; [done|done|]. intros a b Ha. by apply elem_of_nil in Ha.
- rewrite IH, Forall_app, !Forall_forall. split.
+ intros [[H1 H2] (H3 & H4 & H5)]. split_and!; try done.
intros a b [->|Ha]%elem_of_cons Hb; auto.
+ intros ([H1 H2] & H3 & H4). split_and!; try done.
* intros b Hb. apply H4; [by left|done].
* intros a b Ha Hb. apply H4; [by right|done].
Qed.

Lemma gtb_gt (a b : Q) : gtb a b = true <-> (b < a)%Q.
Proof.
unfold gtb. rewrite negb_true_iff, <- not_true_iff_false, Qle_bool_iff. split.
- apply Qnot_le_lt.
- apply Qlt_not_le.
Qed.

Lemma gtb_le (a b : Q) : gtb a b = false <-> (a <= b)%Q.
Proof. unfold gtb. by rewrite negb_false_iff, Qle_bool_iff. Qed.

(** Where the loop of [insert] stops: at the first entry with a greater
priority. *)
Lemma insertIdx_found (q : list (PQueueEntry T)) prio i :
Exists (fun e => gtb (priority e) prio = true) q ->
exists l1 e l2, q = l1 ++ e :: l2
/\ Forall (fun e' => gtb (priority e') prio = false) l1
/\ gtb (priority e) prio = true
/\ insertIdx q prio i = (i + List.length l1)%nat.
Proof.
intros Hex. revert i. induction q as [|e q IH]; intros i; [by apply Exists_nil in Hex|].
simpl. destruct (gtb (priority e) prio) eqn:He.
- exists [], e, q. split_and!; try done; simpl; lia.
- apply Exists_cons in Hex as [Hex|Hex]; [congruence|].
destruct (IH Hex (S i)) as (l1 & e' & l2 & -> & Hl1 & He' & Hidx).
exists (e :: l1), e', l2. split_and!; try done.
+ by constructor.
+ rewrite Hidx. simpl. lia.
Qed.

(** The place of a new entry: right before the first entry of greater
priority, and at the head of the queue when there is none. *)
Lemma insert_place (pq : t T) d prio :
(exists l1 e l2, queue pq = l1 ++ e :: l2
/\ Forall (fun e' => (priority e' <= prio)%Q) l1 /\ (prio < priority e)%Q
/\ queue (insert pq d prio) = l1 ++ mkEntry d prio :: e :: l2)
\/ (Forall (fun e' => (priority e' <= prio)%Q) (queue pq)
/\ queue (insert pq d prio) = mkEntry d prio :: queue pq).
Proof.
destruct (decide (Exists (fun e => gtb (priority e) prio = true) (queue pq))) as [Hex|Hno].
- left. destruct (insertIdx_found _ prio 0 Hex) as (l1 & e & l2 & Hq & Hl1 & He & Hidx).
exists l1, e, l2. split_and!; [done| |by apply gtb_gt|].
+ eapply Forall_impl; [exact Hl1|]. intros e'. apply gtb_le.
+ unfold insert, splice. cbn [queue]. rewrite Hidx, Hq. simpl.
rewrite take_app_length, drop_app_length. done.
- right. apply not_Exists_Forall in Hno; [|intros e; apply _].
assert (Forall (fun e => gtb (priority e) prio = false) (queue pq)) as Hall.
{ eapply Forall_impl; [exact Hno|]. intros e He. simpl in He. by destruct (gtb _ _). }
split; [|by apply insert_front].
eapply Forall_impl; [exact Hall|]. intros e. apply gtb_le.
Qed.

End QueueOrder.

(** [insert] keeps the priorities of an ascending queue ascending exactly
    when some queued priority is greater than the new one, or none differs
    from it (an empty queue included): otherwise the new entry goes to the
    head, in front of a smaller priority. *)
Theorem insert_ascending_iff {T} (pq : PriorityQueue.t T) (d : T) (prio : Q) :
  ascending (PriorityQueue.queue pq) ->
  ascending (PriorityQueue.queue (PriorityQueue.insert pq d prio))
  <-> (Exists (fun e => (prio < PriorityQueue.priority e)%Q) (PriorityQueue.queue pq)
       \/ Forall (fun e => (PriorityQueue.priority e == prio)%Q) (PriorityQueue.queue pq)).
Proof.
  intros Hasc. destruct (insert_place pq d prio)
    as [(l1 & e & l2 & Hq & Hl1 & He & ->)|[Hall ->]].
  - rewrite Hq in *. split; [intros _; left|intros _].
    { apply Exists_app. right. by left. }
    apply ascending_app in Hasc as (H1 & H2 & H3).
    apply ascending_app. split_and!; [done| |].
    + simpl in *. destruct H2 as [H2 H2']. split_and!; try done.
      constructor; [by apply Qlt_le_weak|].
      eapply Forall_impl; [exact H2|]. intros e' He'. simpl in *.
      eapply Qle_trans; [|exact He']. by apply Qlt_le_weak.
    + intros a b Ha [->|Hb]%elem_of_cons.
      * simpl. rewrite Forall_forall in Hl1. by apply Hl1.
      * by apply H3.
  - simpl. split.
    + intros [Hhead _]. right. rewrite Forall_forall in Hall, Hhead |- *.
      intros e He. simpl in *. apply Qle_antisym; auto.
    + intros [Hex|Heq].
      * exfalso. rewrite Exists_exists in Hex. destruct Hex as (e & He & Hlt).
        rewrite Forall_forall in Hall. apply (Qlt_not_le _ _ Hlt). by apply Hall.
      * split; [|done]. eapply Forall_impl; [exact Heq|]. intros e He. simpl in *.
        rewrite He. apply Qle_refl.
Qed.

Section QueueContent.
Import PriorityQueue.
Context {T : Type}.

Lemma drain_queue (q : list (PQueueEntry T)) : forall n,
drain (List.length q) (mkQueue q n) = data <$> q.
Proof.
induction q as [|e q IH]; intros n; [done|].
simpl. f_equal. apply IH.
Qed.

Lemma insertAll_queue (items : list (T * Q)) : forall pq : t T,
queue (fold_left (fun pq it => insert pq it.1 it.2) items pq)
≡ₚ queue pq ++ ((fun it => mkEntry it.1 it.2) <$> items).
Proof.
induction items as [|it items IH]; intros pq; simpl.
- by rewrite app_nil_r.
- rewrite IH. destruct (insert_split pq it.1 it.2) as (l1 & l2 & -> & ->).
rewrite <- !app_assoc. simpl. f_equiv.
by rewrite <- Permutation_middle.
Qed.

End QueueContent.

(** However the priorities are chosen, [insert] and [dequeue] lose and
    duplicate nothing: dequeuing until the queue is empty returns the
    inserted items, each as often as it was inserted, and [length] counts
    them. *)
Theorem dequeueAll_insertAll {T} (items : list (T * Q)) :
  PriorityQueue.dequeueAll (PriorityQueue.insertAll items) ≡ₚ items.*1
  /\ PriorityQueue.length (PriorityQueue.insertAll items) = length items.
Proof.
  assert (forall pq : PriorityQueue.t T,
            PriorityQueue.length pq = length (PriorityQueue.queue pq) ->
            PriorityQueue.dequeueAll pq = PriorityQueue.data <$> PriorityQueue.queue pq) as Hdrain.
  { intros [q n]. simpl. intros ->. unfold PriorityQueue.dequeueAll. simpl. apply drain_queue. }
  assert (PriorityQueue.length (PriorityQueue.insertAll items)
          = length (PriorityQueue.queue (PriorityQueue.insertAll items))) as Hlen.
  { unfold PriorityQueue.insertAll. destruct items as [|it items] using rev_ind; [done|].
    by rewrite fold_left_app. }
  pose proof (insertAll_queue items PriorityQueue.new) as Hperm. simpl in Hperm.
  fold (PriorityQueue.insertAll items) in Hperm.
  split.
  - rewrite Hdrain by done. rewrite Hperm. rewrite <- list_fmap_compose. done.
  - rewrite Hlen, Hperm. by rewrite length_fmap.
Qed.

Lemma insert_ascending_iff_witness :
  ascending (PriorityQueue.queue
               (PriorityQueue.insert (PriorityQueue.insertAll [(1%nat, 2%Q)]) 2%nat 1%Q))
  <-> (Exists (fun e => (1 < PriorityQueue.priority e)%Q)
         (PriorityQueue.queue (PriorityQueue.insertAll [(1%nat, 2%Q)]))
       \/ Forall (fun e => (PriorityQueue.priority e == 1)%Q)
            (PriorityQueue.queue (PriorityQueue.insertAll [(1%nat, 2%Q)]))).
Proof.
  apply (insert_ascending_iff (PriorityQueue.insertAll [(1%nat, 2%Q)]) 2%nat 1%Q).
  simpl. split; constructor.
Defined.

(** ** AStar: the adjacency table *)

Section AdjacencyTable.
Import AStar.
Variables (W H : Z) (rnd : nat -> Q).

Lemma adjacencies_lookup (cx cy : Z) :
adjacencies (new W H rnd) !! (cx, cy)
= if bool_decide (0 <= cx < W /\ 0 <= cy < H /\ Z.even cx = Z.even cy)
then Some (generateAdjacencies (cell W H rnd) (cell W H rnd cx cy) W H)
else None.
Proof.
unfold new. cbn [adjacencies]. rewrite !fill_lookup. cbn [fst snd]. rewrite lookup_empty.
assert (Z.even cx = false -> cx <> 0) as Hx0 by (intros Hx ->; done).
assert (Z.even cy = false -> cy <> 0) as Hy0 by (intros Hy ->; done).
repeat case_bool_decide; try done; exfalso;
repeat match goal with
| Hs : context [_ ∈ stepRange _ _] |- _ =>
rewrite !stepRange_parity, ?Z.sub_0_r, ?Z.even_sub in Hs
end;
destruct (Z.even cx) eqn:Hx, (Z.even cy) eqn:Hy; simpl in *;
try specialize (Hx0 eq_refl); try specialize (Hy0 eq_refl); intuition (lia || congruence).
Qed.

Lemma adjacencies_lookup_vkey (v : Vertex) :
adjacencies (new W H rnd) !! vkey v
= if bool_decide (0 <= vx v < W /\ 0 <= vy v < H /\ Z.even (vx v) = Z.even (vy v))
then Some (generateAdjacencies (cell W H rnd) (cell W H rnd (vx v) (vy v)) W H)
else None.
Proof. apply adjacencies_lookup. Qed.

End AdjacencyTable.

(** The constructor stores an adjacency list exactly for the cells inside
    the grid whose coordinates are both even or both odd, and the list of
    such a cell holds exactly the vertices of the grid one diagonal move
    away from it. *)
Theorem adjacencies_spec (W H : Z) (rnd : nat -> Q) (cx cy : Z) :
  (is_Some (AStar.adjacencies (AStar.new W H rnd) !! (cx, cy))
   <-> 0 <= cx < W /\ 0 <= cy < H /\ Z.even cx = Z.even cy)
  /\ forall vs v, AStar.adjacencies (AStar.new W H rnd) !! (cx, cy) = Some vs ->
       (v ∈ vs
        <-> exists dx dy, (dx = 1 \/ dx = -1) /\ (dy = 1 \/ dy = -1)
              /\ v = AStar.cell W H rnd (cx + dx) (cy + dy)
              /\ 0 <= cx + dx < W /\ 0 <= cy + dy < H).
Proof.
  rewrite adjacencies_lookup. split.
  - case_bool_decide; [by split|]. split; [by intros [? ?]|done].
  - intros vs v. case_bool_decide; [|done]. intros [= <-].
    by rewrite generateAdjacencies_elem.
Qed.

(** Every vertex that an adjacency list holds has an adjacency list of its
    own, and that list holds the owner of the first: the search never
    reaches a vertex without neighbours to iterate over, and every move can
    be taken back. *)
Theorem adjacencies_symmetric (W H : Z) (rnd : nat -> Q) (ku : Key)
    (vs : list AStar.Vertex) (v : AStar.Vertex) :
  AStar.adjacencies (AStar.new W H rnd) !! ku = Some vs -> v ∈ vs ->
  exists us u, AStar.adjacencies (AStar.new W H rnd) !! AStar.vkey v = Some us
               /\ u ∈ us /\ AStar.vkey u = ku.
Proof.
  destruct ku as [cx cy]. rewrite adjacencies_lookup. case_bool_decide as Hin; [|done].
  intros [= <-] (dx & dy & Hdx & Hdy & -> & Hx & Hy)%generateAdjacencies_elem.
  destruct Hin as (Hcx & Hcy & Hpar). cbn in Hx, Hy.
  unfold AStar.vkey, key, AStar.vpoint. cbn [AStar.vx AStar.vy AStar.cell x y].
  rewrite adjacencies_lookup. rewrite bool_decide_eq_true_2.
  2: { split; [done|]. split; [done|]. rewrite !Z.even_add, Hpar.
       destruct Hdx as [-> | ->], Hdy as [-> | ->]; done. }
  eexists _, (AStar.cell W H rnd cx cy). split; [reflexivity|]. split; [|done].
  apply generateAdjacencies_elem. exists (- dx), (- dy). cbn.
  split; [lia|]. split; [lia|]. split; [f_equal; lia|]. lia.
Qed.

(** ** AStar: points outside the grid *)

Lemma runSearch_start_outside W H rnd fuel start end_ :
  ~ inGrid W H start ->
  AStar.runSearch fuel (AStar.new W H rnd) start end_ = TypeError.
Proof.
  intros Hout. unfold AStar.runSearch. rewrite !getVertex_new.
  destruct (decide (0 <= x start < W)) as [Hx|Hx].
  - rewrite (bool_decide_eq_true_2 (0 <= x start < W)) by done.
    rewrite (bool_decide_eq_false_2 (0 <= y start < H)) by (intros Hy; apply Hout; by split).
    cbn [mbind outcome_bind]. by case_bool_decide.
  - by rewrite (bool_decide_eq_false_2 (0 <= x start < W)).
Qed.

(** [find] throws a [TypeError] for every start point outside the grid,
    whatever the end point is: [grid[x]] is undefined, or [grid[x][y]] is
    and [startV.key()] is called on it. *)
Theorem find_start_outside (W H : Z) (rnd : nat -> Q) (fuel : nat) (start end_ : Point) :
  ~ inGrid W H start ->
  AStar.find fuel (AStar.new W H rnd) start end_ = TypeError.
Proof.
  intros Hout. unfold AStar.find. by rewrite runSearch_start_outside.
Qed.

(** In a grid at least two cells wide and high, [find] throws a
    [TypeError] for every end point outside the grid, whatever the start
    point is: no best-effort path is returned.  With [endV] undefined the
    first neighbour of the start vertex makes [manhattanDistance] read
    [b.x] of [undefined]. *)
Theorem find_end_outside (W H : Z) (rnd : nat -> Q) (fuel : nat) (start end_ : Point) :
  2 <= W -> 2 <= H -> ~ inGrid W H end_ ->
  AStar.find (S fuel) (AStar.new W H rnd) start end_ = TypeError.
Proof.
  intros Hwide Htall Hout. unfold AStar.find.
  destruct (decide (inGrid W H start)) as [[Hsx Hsy]|Hs];
    [|by rewrite runSearch_start_outside].
  unfold AStar.runSearch. rewrite !getVertex_new.
  rewrite !(bool_decide_eq_true_2 (0 <= x start < W)) by done.
  rewrite !(bool_decide_eq_true_2 (0 <= y start < H)) by done.
  cbn [mbind outcome_bind].
  case_bool_decide as Hex; [|done]. cbn [mbind outcome_bind].
  rewrite bool_decide_eq_false_2 by (intros Hey; apply Hout; by split).
  set (sv := AStar.cell W H rnd (x start) (y start)).
  assert (AStar.searchLoop (S fuel) (AStar.new W H rnd) None (AStar.initSearch sv) = TypeError)
    as ->; [|done].
  change (AStar.searchLoop (S fuel) (AStar.new W H rnd) None (AStar.initSearch sv))
    with (match AStar.adjacencies (AStar.new W H rnd) !! AStar.vkey sv with
          | None => TypeError
          | Some vs =>
              s2 ← AStar.relaxAll None sv
                     (AStar.mkSearch (PriorityQueue.mkQueue [] 0) {[AStar.vkey sv := 0%Q]}
                        {[AStar.vkey sv := None]}) vs;
              AStar.searchLoop fuel (AStar.new W H rnd) None s2
          end).
  rewrite adjacencies_lookup_vkey. cbn [AStar.vx AStar.vy sv AStar.cell].
  case_bool_decide as Hpar; [|done].
  destruct (AStar.generateAdjacencies _ _ _ _) as [|v vs] eqn:Hvs.
  - exfalso.
    assert (AStar.cell W H rnd (x start + (if decide (x start + 1 < W) then 1 else -1))
              (y start + (if decide (y start + 1 < H) then 1 else -1))
            ∈ AStar.generateAdjacencies (AStar.cell W H rnd)
                (AStar.cell W H rnd (x start) (y start)) W H) as Hin.
    { apply generateAdjacencies_elem. eexists _, _. split_and!; [| |reflexivity|..];
        cbn; repeat case_decide; auto; lia. }
    rewrite Hvs in Hin. by apply elem_of_nil in Hin.
  - assert (v ∈ AStar.generateAdjacencies (AStar.cell W H rnd)
                  (AStar.cell W H rnd (x start) (y start)) W H) as Hv
      by (rewrite Hvs; by left).
    apply generateAdjacencies_elem in Hv as (dx & dy & Hdx & Hdy & -> & _).
    cbn [AStar.relaxAll]. unfold AStar.relax. cbn [AStar.costs].
    rewrite lookup_singleton_eq.
    rewrite lookup_singleton_ne; [done|].
    unfold sv, AStar.vkey, key, AStar.vpoint. cbn. intros [= ? ?]. lia.
Qed.

Lemma adjacencies_symmetric_witness :
  exists us u, AStar.adjacencies (AStar.new 2 2 zeroDraws)
               !! AStar.vkey (AStar.cell 2 2 zeroDraws 1 1) = Some us
               /\ u ∈ us /\ AStar.vkey u = (0, 0).
Proof.
  apply (adjacencies_symmetric 2 2 zeroDraws (0, 0) [AStar.cell 2 2 zeroDraws 1 1]).
  - by vm_compute.
  - by left.
Defined.

Lemma find_start_outside_witness :
  AStar.find 5 (AStar.new 3 3 zeroDraws) (mkPoint 0 3) (mkPoint 2 2) = TypeError.
Proof.
  apply (find_start_outside 3 3 zeroDraws 5 (mkPoint 0 3) (mkPoint 2 2)).
  unfold inGrid. simpl. lia.
Defined.

Lemma find_end_outside_witness :
  AStar.find 5 (AStar.new 3 3 zeroDraws) (mkPoint 0 0) (mkPoint 2 4) = TypeError.
Proof.
  apply (find_end_outside 3 3 zeroDraws 4 (mkPoint 0 0) (mkPoint 2 4)); [lia|lia|].
  unfold inGrid. simpl. lia.
Defined.

(** ** AStar: the returned path is simple *)

Lemma chained_fun origin s n : forall m k,
  chained origin s n k -> chained origin s m k -> n = m.
Proof.
  induction n as [|n IH]; intros m k Hn Hm.
  - apply chained_zero in Hn as ->. destruct m as [|m]; [done|].
    by apply chained_succ in Hm as [? _].
  - apply chained_succ in Hn as (Hk & u & Hu & Hn). destruct m as [|m].
    + by apply chained_zero in Hm.
    + apply chained_succ in Hm as (_ & u' & Hu' & Hm). rewrite Hu in Hu'.
      injection Hu' as <-. f_equal. by eapply IH.
Qed.

(** The backtrace visits no key twice: the keys it passes are fewer and
    fewer steps away from the start. *)
Lemma backtrace_simple origin s n : forall c acc,
  origin !! s = Some None -> chained origin s n (AStar.vkey c) ->
  exists trail,
    AStar.backtrace (S n) origin (Some c) acc = Ok (acc ++ c :: trail)
    /\ NoDup (AStar.vkey <$> c :: trail)
    /\ Forall (fun u => exists m, (m < n)%nat /\ chained origin s m (AStar.vkey u)) trail.
Proof.
  induction n as [|n IH]; intros c acc Hs Hch.
  - apply chained_zero in Hch as Heq. exists []. cbn [AStar.backtrace]. rewrite Heq, Hs.
    split_and!; [done| |done]. apply NoDup_singleton.
  - apply chained_succ in Hch as Hch'. destruct Hch' as (Hk & u & Ho & Hch').
    destruct (IH u (acc ++ [c]) Hs Hch') as (trail & Hbt & Hnd & Hall).
    exists (u :: trail). split_and!.
    + change (AStar.backtrace (S (S n)) origin (Some c) acc)
        with (AStar.backtrace (S n) origin
                (match origin !! AStar.vkey c with Some o => o | None => None end)
                (acc ++ [c])).
      rewrite Ho, Hbt. by rewrite <- app_assoc.
    + rewrite fmap_cons. apply NoDup_cons. split; [|done].
      intros (u' & Hku & [->|Hu']%elem_of_cons)%list_elem_of_fmap.
      * rewrite Hku in Hch. pose proof (chained_fun _ _ _ _ _ Hch Hch'). lia.
      * rewrite Forall_forall in Hall. destruct (Hall u' Hu') as (m & Hm & Hchm).
        rewrite Hku in Hch. pose proof (chained_fun _ _ _ _ _ Hch Hchm). lia.
    + constructor; [by exists n; split; [lia|]|].
      eapply Forall_impl; [exact Hall|]. intros u' (m & Hm & Hchm). exists m. split; [lia|done].
Qed.


Lemma diagonal_parity p q :
  diagonal p q -> Z.even (x q + y q) = Z.even (x p + y p).
Proof.
  intros [Hx Hy].
  assert (exists dx dy, (dx = 1 \/ dx = -1) /\ (dy = 1 \/ dy = -1)
                        /\ x q = x p + dx /\ y q = y p + dy) as (dx & dy & Hdx & Hdy & -> & ->).
  { exists (x q - x p), (y q - y p). lia. }
  replace (x p + dx + (y p + dy)) with (x p + y p + (dx + dy)) by lia.
  rewrite Z.even_add. destruct Hdx as [-> | ->], Hdy as [-> | ->]; simpl;
    by destruct (Z.even (x p + y p)).
Qed.

Lemma diagonalPath_parity W H l p b :
  diagonalPath W H l -> head l = Some p -> Z.even (x p + y p) = b ->
  Forall (fun q => Z.even (x q + y q) = b) l.
Proof.
  revert p. induction l as [|a l IH]; intros p Hl Hp Hev; [done|].
  injection Hp as ->. destruct Hl as (_ & Hnext & Hrest). constructor; [done|].
  destruct l as [|q l]; [done|]. apply (IH q); [done|done|].
  by rewrite (diagonal_parity p q).
Qed.

(** A diagonal path moves one column per step. *)
Lemma diagonalPath_span W H l p q :
  diagonalPath W H l -> head l = Some p -> last l = Some q ->
  Z.abs (x q - x p) + 1 <= Z.of_nat (length l).
Proof.
  revert p. induction l as [|a l IH]; intros p Hl Hp Hq; [done|].
  injection Hp as ->. destruct Hl as (_ & Hnext & Hrest).
  destruct l as [|b l].
  - injection Hq as ->. simpl. lia.
  - rewrite last_cons_cons in Hq. specialize (IH b Hrest eq_refl Hq).
    destruct Hnext as [Hx _]. cbn [length] in *. lia.
Qed.

Section FindPath.
Import AStar.
Variables (W H : Z) (rnd : nat -> Q).
Hypothesis rnd_nonneg : forall i, (0 <= rnd i)%Q.
Hypothesis wide : 2 <= W.
Hypothesis tall : 2 <= H.

(** Between two cells of even coordinate sum, in a grid at least two cells
wide and high, [find] returns a simple diagonal path. *)
Lemma find_path start end_ :
inGrid W H start -> inGrid W H end_ ->
Z.even (x start + y start) = true -> Z.even (x end_ + y end_) = true ->
exists fuel0 path,
(forall k, find (fuel0 + k) (new W H rnd) start end_ = Ok path)
/\ head path = Some start /\ last path = Some end_
/\ diagonalPath W H path /\ NoDup (key <$> path).
Proof.
intros Hs He Hse Hee.
set (sv := cell W H rnd (x start) (y start)).
set (ev := cell W H rnd (x end_) (y end_)).
destruct Hs as [Hsx Hsy], He as [Hex Hey].
assert (gridVertex W H rnd sv) as Hsv by by apply gridVertex_cell.
assert (gridVertex W H rnd ev) as Hev by by apply gridVertex_cell.
destruct (searchInv_init W H rnd sv Hsv) as [Hinv0 Hcl0].
destruct (searchLoop_total W H rnd rnd_nonneg sv ev _ _ _ (initSearch sv)
Hinv0 Hcl0 eq_refl eq_refl eq_refl)
as (f1 & ex & st' & Hloop & Hinv' & Hend).
assert (is_Some (costs st' !! vkey ev)) as [c Hc].
{ destruct Hend as [|[Hcl Hq]]; [done|].
apply (diagClosed_connected W H (fun cx cy => is_Some (costs st' !! (cx, cy)))
(x start) (y start) (x end_) (y end_)); try done.
- intros cx cy dx dy [cc Hcc] Hdx Hdy Hbx Hby.
destruct (si_costs _ _ _ _ _ Hinv' _ _ Hcc) as (_ & _ & (v & Hv & Hvk) & _).
destruct (Hcl v Hv) as [Hin|[(en & Hen & _)|Hall]].
+ rewrite Hvk. eauto.
+ by apply elem_of_nil in Hin.
+ rewrite Hq in Hen. by apply elem_of_nil in Hen.
+ unfold vkey, key, vpoint in Hvk. simpl in Hvk. injection Hvk as Hvx Hvy.
apply (Hall (cell W H rnd (cx + dx) (cy + dy))).
apply generateAdjacencies_elem. exists dx, dy. subst cx cy. done.
- destruct (si_start _ _ _ _ _ Hinv') as [H0 _]. by eexists. }
destruct (si_costs _ _ _ _ _ Hinv' _ _ Hc) as (_ & _ & _ & n & Hch).
destruct (backtrace_chained W H rnd sv st' Hsv Hinv' n ev [] Hev Hch)
as (trail & Hbt & Hpath & Hhead & Hlast).
destruct (backtrace_simple (origin st') (vkey sv) n ev []
(proj2 (si_start _ _ _ _ _ Hinv')) Hch) as (trail' & Hbt' & Hnd & _).
rewrite Hbt in Hbt'. injection Hbt' as <-.
exists (f1 + S n)%nat, (vpoint <$> rev (ev :: trail)). split_and!.
- intros k. unfold find, runSearch. rewrite !getVertex_new.
rewrite !bool_decide_true by done. cbn [mbind outcome_bind]. fold sv ev.
rewrite (searchLoop_le f1 (f1 + S n + k) _ _ _ _ ltac:(lia) Hloop). cbn [mbind outcome_bind].
by rewrite (backtrace_le (S n) (f1 + S n + k) _ _ _ _ ltac:(lia) Hbt).
- unfold sv in Hhead. by rewrite vpoint_cell in Hhead.
- unfold ev in Hlast. by rewrite vpoint_cell in Hlast.
- done.
- rewrite <- list_fmap_compose.
change (key ∘ vpoint) with vkey. rewrite <- (Permutation_rev (ev :: trail)). done.
Qed.

End FindPath.

(** Under the conditions of a complete search, the path [find] returns
    visits no point twice, and all its points have an even coordinate
    sum. *)
Theorem find_simple_path (W H : Z) (rnd : nat -> Q) (start end_ : Point) :
  (forall i, (0 <= rnd i)%Q) -> 2 <= W -> 2 <= H ->
  inGrid W H start -> inGrid W H end_ ->
  Z.even (x start + y start) = true -> Z.even (x end_ + y end_) = true ->
  exists fuel0 path,
    (forall k, AStar.find (fuel0 + k) (AStar.new W H rnd) start end_ = Ok path)
    /\ NoDup path
    /\ Forall (fun p => Z.even (x p + y p) = true) path
    /\ Z.abs (x end_ - x start) + 1 <= Z.of_nat (length path).
Proof.
  intros Hrnd Hwide Htall Hs He Hse Hee.
  destruct (find_path W H rnd Hrnd Hwide Htall start end_ Hs He Hse Hee)
    as (fuel0 & path & Hrun & Hhead & Hlast & Hdiag & Hnd).
  exists fuel0, path. split_and!; [done| | |].
  - by apply NoDup_fmap_1 in Hnd.
  - by eapply diagonalPath_parity.
  - by eapply diagonalPath_span.
Qed.

Lemma find_simple_path_witness :
  exists fuel0 path,
    (forall k, AStar.find (fuel0 + k) (AStar.new 3 3 zeroDraws) (mkPoint 0 0) (mkPoint 2 2)
               = Ok path)
    /\ NoDup path
    /\ Forall (fun p => Z.even (x p + y p) = true) path
    /\ Z.abs (x (mkPoint 2 2) - x (mkPoint 0 0)) + 1 <= Z.of_nat (length path).
Proof.
  apply (find_simple_path 3 3 zeroDraws (mkPoint 0 0) (mkPoint 2 2)).
  - intros i. unfold zeroDraws. apply Qle_refl.
  - lia.
  - lia.
  - split; simpl; lia.
  - split; simpl; lia.
  - reflexivity.
  - reflexivity.
Defined.

(** ** index.ts: the points that [run] searches between *)

Lemma Qfloor_half (n : Z) : Qfloor (inject_Z n / 2) = n / 2.
Proof. unfold Qfloor, Qdiv, Qmult, Qinv, inject_Z. simpl. by rewrite Z.mul_1_r. Qed.

Lemma Qceiling_half (n : Z) : Qceiling (inject_Z n / 2) = (n + 1) / 2.
Proof.
  unfold Qceiling. replace (- (inject_Z n / 2))%Q with (inject_Z (- n) / 2)%Q.
  - rewrite Qfloor_half. zdiv.
  - unfold Qdiv, Qmult, Qopp, inject_Z. simpl. f_equal. lia.
Qed.

(** [Math.floor(Math.random() * k)] for an integer [k]: one of
    [0 .. k - 1] when [k] is positive, 0 when [k] is 0, and one of
    [k .. 0] when [k] is negative. *)
Lemma Qfloor_draw (r : Q) (k : Z) :
  isDraw r ->
  (0 < k -> 0 <= Qfloor (r * inject_Z k) < k)
  /\ (k = 0 -> Qfloor (r * inject_Z k) = 0)
  /\ (k < 0 -> k <= Qfloor (r * inject_Z k) <= 0).
Proof.
  intros [H0 H1].
  assert (forall (a : Z) (b : Q), (inject_Z a <= b)%Q -> a <= Qfloor b) as Hlow.
  { intros a b Hab. rewrite <- (Qfloor_Z a). by apply Qfloor_resp_le. }
  assert (forall (a : Z) (b : Q), (b < inject_Z a)%Q -> Qfloor b < a) as Hup.
  { intros a b Hab. rewrite Zlt_Qlt. eapply Qle_lt_trans; [apply Qfloor_le|done]. }
  assert (forall (a : Z) (b : Q), (b <= inject_Z a)%Q -> Qfloor b <= a) as Hup'.
  { intros a b Hab. rewrite <- (Qfloor_Z a). by apply Qfloor_resp_le. }
  split; [|split].
  - intros Hk. assert (0 < inject_Z k)%Q as HkQ
      by (change 0%Q with (inject_Z 0); by rewrite <- Zlt_Qlt).
    split.
    + apply Hlow. change (inject_Z 0) with 0%Q. nra.
    + apply Hup. nra.
  - intros ->. rewrite Qmult_0_r. done.
  - intros Hk. assert (inject_Z k < 0)%Q as HkQ
      by (change 0%Q with (inject_Z 0); by rewrite <- Zlt_Qlt).
    split.
    + apply Hlow. nra.
    + apply Hup'. change (inject_Z 0) with 0%Q. nra.
Qed.

Lemma mainStart_facts (nodesWide nodesHigh : Z) (r : Q) :
  1 <= nodesWide -> 3 <= nodesHigh -> isDraw r ->
  inGrid nodesWide nodesHigh (mainStart nodesHigh r)
  /\ x (mainStart nodesHigh r) = 0
  /\ Z.even (y (mainStart nodesHigh r)) = true
  /\ nodesHigh <= 2 * y (mainStart nodesHigh r).
Proof.
  intros Hw Hh Hr. unfold mainStart, inGrid. cbn [x y].
  rewrite !Qceiling_half.
  set (half := (nodesHigh + 1) / 2).
  set (E := evensInRange half (nodesHigh - 1)).
  assert (0 < E) as HE by (unfold E, evensInRange, half; zdiv).
  destruct (Qfloor_draw r E Hr) as [Hf _]. specialize (Hf HE).
  set (f := Qfloor (r * inject_Z E)) in *.
  assert ((half + 1) / 2 * 2 + 2 * (E - 1) <= nodesHigh - 1) as Hmax
    by (unfold E, evensInRange, half; zdiv).
  assert (nodesHigh <= 2 * ((half + 1) / 2 * 2)) as Hmin by (unfold half; zdiv).
  split_and!; try lia; try done.
  replace ((half + 1) / 2 * 2 + f * 2) with (2 * ((half + 1) / 2 + f)) by lia.
  by rewrite Z.even_mul.
Qed.

(** In a map at least three nodes high, the start point of the main path
    lies in the first column of the grid and in its lower half, and its
    row is even. *)
Theorem mainStart_spec (nodesWide nodesHigh : Z) (r : Q) :
  1 <= nodesWide -> 3 <= nodesHigh -> isDraw r ->
  inGrid nodesWide nodesHigh (mainStart nodesHigh r)
  /\ x (mainStart nodesHigh r) = 0
  /\ Z.even (y (mainStart nodesHigh r)) = true
  /\ nodesHigh <= 2 * y (mainStart nodesHigh r).
Proof. apply mainStart_facts. Qed.

Lemma mainStart_spec_witness :
  inGrid 30 10 (mainStart 10 (1 # 2))
  /\ x (mainStart 10 (1 # 2)) = 0
  /\ Z.even (y (mainStart 10 (1 # 2))) = true
  /\ 10 <= 2 * y (mainStart 10 (1 # 2)).
Proof.
  apply (mainStart_spec 30 10 (1 # 2)); [lia|lia|]. split; [unfold Qle|unfold Qlt]; simpl; lia.
Defined.

Lemma mainStart_not_inGrid (nodesWide nodesHigh : Z) (r : Q) :
  nodesHigh <= 2 -> ~ inGrid nodesWide nodesHigh (mainStart nodesHigh r).
Proof.
  intros Hh. unfold mainStart, inGrid. cbn [x y]. rewrite !Qceiling_half.
  set (half := (nodesHigh + 1) / 2).
  destruct (decide (nodesHigh <= 0)) as [Hneg|Hpos]; [lia|].
  assert (evensInRange half (nodesHigh - 1) = 0) as ->.
  { unfold evensInRange, half. assert (nodesHigh = 1 \/ nodesHigh = 2) as [-> | ->] by lia; done. }
  rewrite Qmult_0_r. change (Qfloor 0) with 0.
  unfold half. assert (nodesHigh = 1 \/ nodesHigh = 2) as [-> | ->] by lia; zdiv.
Qed.

Lemma rem2_even (n : Z) : (Z.rem n 2 =? 0) = Z.even n.
Proof.
  rewrite Zeven_mod. destruct (Z.eqb_spec (n mod 2) 0), (Z.eqb_spec (Z.rem n 2) 0); try done; zdiv.
Qed.

Lemma mainEnd_facts (nodesWide nodesHigh : Z) (r : Q) :
  1 <= nodesWide -> 2 <= nodesHigh -> isDraw r ->
  inGrid nodesWide nodesHigh (mainEnd nodesWide nodesHigh r)
  /\ x (mainEnd nodesWide nodesHigh r) = nodesWide - 1
  /\ Z.even (x (mainEnd nodesWide nodesHigh r) + y (mainEnd nodesWide nodesHigh r)) = true
  /\ y (mainEnd nodesWide nodesHigh r) <= (nodesHigh - 1) / 2 + 1.
Proof.
  intros Hw Hh Hr. unfold mainEnd, inGrid. cbn [x y].
  rewrite Qfloor_half, rem2_even.
  set (m := (nodesHigh - 1) / 2).
  set (E := evensInRange 0 m).
  assert (0 < E /\ 2 * (E - 1) <= m) as [HE Hmax] by (unfold E, evensInRange, m; simpl; zdiv).
  destruct (Qfloor_draw r E Hr) as [Hf _]. specialize (Hf HE).
  set (f := Qfloor (r * inject_Z E)) in *.
  assert (m + 1 <= nodesHigh - 1) as Hm by (unfold m; zdiv).
  split_and!; try done; try (destruct (Z.even nodesWide); lia).
  replace (nodesWide - 1 + (f * 2 + (if Z.even nodesWide then 1 else 0)))
    with (nodesWide + (if Z.even nodesWide then 0 else -1) + 2 * f)
    by (destruct (Z.even nodesWide); lia).
  rewrite !Z.even_add, Z.even_mul. simpl. by destruct (Z.even nodesWide).
Qed.

(** In a map at least two nodes high, the end point of the main path lies
    in the last column of the grid, not below the row after the middle one,
    and its coordinate sum is even. *)
Theorem mainEnd_spec (nodesWide nodesHigh : Z) (r : Q) :
  1 <= nodesWide -> 2 <= nodesHigh -> isDraw r ->
  inGrid nodesWide nodesHigh (mainEnd nodesWide nodesHigh r)
  /\ x (mainEnd nodesWide nodesHigh r) = nodesWide - 1
  /\ Z.even (x (mainEnd nodesWide nodesHigh r) + y (mainEnd nodesWide nodesHigh r)) = true
  /\ y (mainEnd nodesWide nodesHigh r) <= (nodesHigh - 1) / 2 + 1.
Proof. apply mainEnd_facts. Qed.

Lemma mainEnd_spec_witness :
  inGrid 30 10 (mainEnd 30 10 (1 # 2))
  /\ x (mainEnd 30 10 (1 # 2)) = 30 - 1
  /\ Z.even (x (mainEnd 30 10 (1 # 2)) + y (mainEnd 30 10 (1 # 2))) = true
  /\ y (mainEnd 30 10 (1 # 2)) <= (10 - 1) / 2 + 1.
Proof.
  apply (mainEnd_spec 30 10 (1 # 2)); [lia|lia|]. split; [unfold Qle|unfold Qlt]; simpl; lia.
Defined.

Lemma subIdx_facts (len : Z) (r1 r2 : Q) :
  15 <= len -> isDraw r1 -> isDraw r2 ->
  let s := subStartIdx len r1 in
  let e := subEndIdx len s r2 in
  0 <= s < len /\ 0 <= e < len
  /\ (16 <= len -> s ≠ e)
  /\ (30 <= len -> 15 <= (e - s) mod len <= len - 15).
Proof.
  intros Hlen Hr1 Hr2. cbv zeta. unfold subStartIdx, subEndIdx.
  destruct (Qfloor_draw r1 len Hr1) as [Hs _]. specialize (Hs ltac:(lia)).
  set (s := Qfloor (r1 * inject_Z len)) in *.
  destruct (Qfloor_draw r2 (len - 30) Hr2) as (Hpos & Hzero & Hneg).
  set (f := Qfloor (r2 * inject_Z (len - 30))) in *.
  assert (0 <= f + 15 <= 15 /\ len - 15 <= f + 15 \/ 15 <= f + 15 <= len - 15) as Hoff.
  { destruct (Z.lt_trichotomy (len - 30) 0) as [Hlt|[Heq|Hgt]].
    - specialize (Hneg Hlt). lia.
    - specialize (Hzero Heq). lia.
    - specialize (Hpos Hgt). lia. }
  assert (0 <= s + (f + 15) < 2 * len) as Hsum by lia.
  rewrite Z.rem_mod_nonneg by lia.
  destruct (decide (s + (f + 15) < len)) as [Hsmall|Hbig].
  - rewrite (Z.mod_small (s + (f + 15))) by lia.
    split_and!; try lia.
    intros Hl. replace (s + (f + 15) - s) with (f + 15) by lia.
    rewrite Z.mod_small by lia. lia.
  - assert ((s + (f + 15)) mod len = s + (f + 15) - len) as ->.
    { symmetry. apply (Z.mod_unique _ _ 1); lia. }
    split_and!; try lia.
    intros Hl. replace (s + (f + 15) - len - s) with (f + 15 + -1 * len) by lia.
    rewrite Z.mod_add by lia. rewrite Z.mod_small by lia. lia.
Qed.

(** For a main path of at least 15 points both ends of the sub path are
    indices of the path.  They differ when the path has at least 16 points,
    and they are at least 15 steps apart, in both directions round the
    path, when it has at least 30. *)
Theorem subIdx_spec (len : Z) (r1 r2 : Q) :
  15 <= len -> isDraw r1 -> isDraw r2 ->
  let s := subStartIdx len r1 in
  let e := subEndIdx len s r2 in
  0 <= s < len /\ 0 <= e < len
  /\ (16 <= len -> s ≠ e)
  /\ (30 <= len -> 15 <= (e - s) mod len <= len - 15).
Proof. apply subIdx_facts. Qed.

Lemma subIdx_spec_witness :
  let s := subStartIdx 40 (1 # 2) in
  let e := subEndIdx 40 s (1 # 2) in
  0 <= s < 40 /\ 0 <= e < 40
  /\ (16 <= 40 -> s ≠ e)
  /\ (30 <= 40 -> 15 <= (e - s) mod 40 <= 40 - 15).
Proof.
  apply (subIdx_spec 40 (1 # 2) (1 # 2)); [lia| |]; (split; [unfold Qle|unfold Qlt]; simpl; lia).
Defined.

(** ** index.ts: run *)


Lemma stageLoop_more rnd numPortraits fuel k : forall steps w cur cps r,
  stageLoop rnd numPortraits fuel steps w cur cps = Ok r ->
  stageLoop rnd numPortraits (fuel + k) steps w cur cps = Ok r.
Proof.
  induction fuel as [|fuel IH]; intros steps w cur cps r; cbn [stageLoop Nat.add]; [done|].
  destruct ((0 <? length cur)%nat || (0 <? length cps)%nat); [|done].
  destruct (mapNodes _ _ _ _ _) as [s mapped]. apply IH.
Qed.

Lemma stage_more rnd numPortraits fuel k start end_ reg r :
  stage rnd numPortraits fuel start end_ reg = Ok r ->
  stage rnd numPortraits (fuel + k) start end_ reg = Ok r.
Proof.
  unfold stage. destruct (reg !! key start); [|done]. destruct (reg !! key end_); [|done].
  apply stageLoop_more.
Qed.



(** In a map fewer than three nodes high [run] throws a [TypeError],
    whatever [Math.random()] draws: the start point of the main path is
    (0, 2) or lies in a grid without rows, outside the grid in both cases,
    and [find] calls [startV.key()] on [undefined] or reads [grid[x][y]] of
    an undefined column. *)
Theorem run_low_map_throws (fuel : nat) (numPortraits nodesWide nodesHigh : Z)
    (rnd : nat -> Q) :
  nodesHigh <= 2 ->
  run fuel numPortraits nodesWide nodesHigh rnd = TypeError.
Proof.
  intros Hh. unfold run. cbv zeta. unfold AStar.find.
  rewrite runSearch_start_outside; [done|]. by apply mainStart_not_inGrid.
Qed.

Lemma run_low_map_throws_witness : run 5 100 20 2 zeroDraws = TypeError.
Proof. apply (run_low_map_throws 5 100 20 2 zeroDraws). lia. Defined.

(** ** MapNode: hasAncestor and getAncestors *)

(** When no chain of parents that starts at a node has more than [n]
    nodes, [hasAncestor(key)] and [getAncestors()] return within a
    recursion depth of [n], and [hasAncestor(key)] is [true] exactly when
    [getAncestors()] contains [key]. *)
Theorem hasAncestor_getAncestors (reg : gmap Key MapNode.t) (n : nat) (this k : Key) :
  heightLe n (parentsOf reg) this ->
  exists b l,
    hasAncestor_fuel n reg this k = Ok b
    /\ getAncestors_fuel n reg this = Ok l
    /\ (b = true <-> k ∈ l).
Proof.
  intros Hh.
  destruct (hasAncestor_fuel_spec reg n this k Hh) as (b & Hb & Hanc).
  destruct (getAncestors_fuel_spec reg n this Hh) as (l & Hl & Hin).
  exists b, l. split; [done|]. split; [done|]. by rewrite Hanc, Hin.
Qed.

Lemma hasAncestor_getAncestors_witness :
  exists b l,
    hasAncestor_fuel 3 chainNodes (2, 2) (0, 0) = Ok b
    /\ getAncestors_fuel 3 chainNodes (2, 2) = Ok l
    /\ (b = true <-> (0, 0) ∈ l).
Proof.
  apply (hasAncestor_getAncestors chainNodes 3 (2, 2) (0, 0)).
  vm_compute. repeat constructor.
Defined.

Section Rootless.
Variable reg : gmap Key MapNode.t.
Variable S : list Key.
Hypothesis S_rootless : rootless reg S.

Lemma rootless_parents a :
a ∈ S -> exists p ps, parentsOf reg a = p :: ps /\ p ∈ S.
Proof.
intros Ha. unfold rootless in S_rootless. rewrite Forall_forall in S_rootless.
destruct (S_rootless a Ha) as [Hne Hall].
destruct (parentsOf reg a) as [|p ps]; [done|].
exists p, ps. split; [done|]. by apply Forall_cons in Hall as [? _].
Qed.

Lemma hasAncestor_fuel_rootless fuel : forall this k,
this ∈ S -> k ∉ S -> hasAncestor_fuel fuel reg this k = OutOfFuel.
Proof.
induction fuel as [|fuel IH]; intros this k Hthis Hk; [done|].
cbn [hasAncestor_fuel]. destruct (rootless_parents this Hthis) as (p & ps & Hps & Hp).
unfold parentsOf in Hps. rewrite Hps. cbn [anyParent].
rewrite bool_decide_eq_false_2 by (intros ->; done).
by rewrite IH.
Qed.

Lemma getAncestors_fuel_rootless fuel : forall this,
this ∈ S -> getAncestors_fuel fuel reg this = OutOfFuel.
Proof.
induction fuel as [|fuel IH]; intros this Hthis; [done|].
cbn [getAncestors_fuel]. destruct (rootless_parents this Hthis) as (p & ps & Hps & Hp).
unfold parentsOf in Hps. rewrite Hps. cbn [collectParents].
by rewrite IH.
Qed.

End Rootless.

(** On a node whose chains of parents never end (it lies in a set of nodes
    that all have parents, all of them in the set, as the nodes of a cycle
    of parents do) the recursion of [getAncestors()] is unbounded, and so
    is that of [hasAncestor(key)] for a key outside the set: no recursion
    depth suffices for an answer. *)
Theorem ancestors_unbounded (reg : gmap Key MapNode.t) (S : list Key) (this k : Key)
    (fuel : nat) :
  rootless reg S -> this ∈ S -> k ∉ S ->
  hasAncestor_fuel fuel reg this k = OutOfFuel
  /\ getAncestors_fuel fuel reg this = OutOfFuel.
Proof.
  intros HS Hthis Hk. split.
  - by apply (hasAncestor_fuel_rootless reg S).
  - by apply (getAncestors_fuel_rootless reg S).
Qed.

Lemma ancestors_unbounded_witness :
  hasAncestor_fuel 1000 loopNodes (0, 0) (5, 5) = OutOfFuel
  /\ getAncestors_fuel 1000 loopNodes (0, 0) = OutOfFuel.
Proof.
  apply (ancestors_unbounded loopNodes [(0, 0); (1, 1)] (0, 0) (5, 5) 1000).
  - unfold rootless. repeat constructor; by vm_compute.
  - by left.
  - apply (bool_decide_unpack _). by vm_compute.
Defined.

(** ** index.ts: populateTransitions *)

Lemma equals_key p q : equals p q = true <-> key p = key q.
Proof.
  unfold equals, key. rewrite andb_true_iff, !Z.eqb_eq. split.
  - by intros [-> ->].
  - by intros [= -> ->].
Qed.

Lemma existsb_equals ary q :
  existsb (fun p => equals p q) ary = true <-> key q ∈ key <$> ary.
Proof.
  rewrite existsb_exists, list_elem_of_fmap. split.
  - intros (p & Hp & Heq). exists p. split; [symmetry; by apply equals_key|by apply list_elem_of_In].
  - intros (p & Heq & Hp). exists p. split; [by apply list_elem_of_In|]. by apply equals_key.
Qed.

Lemma pushPoint_keys ary q k :
  k ∈ key <$> pushPoint ary q <-> k ∈ key <$> ary \/ k = key q.
Proof.
  unfold pushPoint. destruct (existsb _ ary) eqn:Hex.
  - apply existsb_equals in Hex. split; [auto|]. by intros [?| ->].
  - rewrite fmap_app, elem_of_app. simpl. by rewrite list_elem_of_singleton.
Qed.

Lemma pushPoint_NoDup ary q : NoDup (key <$> ary) -> NoDup (key <$> pushPoint ary q).
Proof.
  intros Hnd. unfold pushPoint. destruct (existsb _ ary) eqn:Hex; [done|].
  rewrite fmap_app. apply NoDup_app. split; [done|]. split; [|apply NoDup_singleton].
  intros k Hk ->%list_elem_of_singleton.
  apply existsb_equals in Hk. by rewrite Hex in Hk.
Qed.

Lemma listed_keys (T : Transitions) k1 k2 :
  listed T k1 k2 <-> exists ps, T !! k1 = Some ps /\ k2 ∈ key <$> ps.
Proof.
  unfold listed. split.
  - intros (ps & pt & Hps & Hpt & <-). exists ps. split; [done|]. by apply list_elem_of_fmap_2.
  - intros (ps & Hps & (pt & -> & Hpt)%list_elem_of_fmap). by exists ps, pt.
Qed.

Section PopulateAny.
Variable pathNodes : list Point.

(** One iteration of the loop: the entry of the point at index [i] gains
the keys of its two neighbours on the path. *)
Lemma populateStep_keys T i pi :
pathNodes !! i = Some pi ->
exists ary,
populateStep pathNodes T i = <[key pi := ary]> T
/\ (forall k, k ∈ key <$> ary
<-> k ∈ key <$> default [] (T !! key pi)
\/ (exists q, key q = k
/\ (pathNodes !! S i = Some q \/ exists j, i = S j /\ pathNodes !! j = Some q)))
/\ (NoDup (key <$> default [] (T !! key pi)) -> NoDup (key <$> ary)).
Proof.
intros Hi. unfold populateStep. rewrite Hi. eexists. split; [done|].
destruct (pathNodes !! S i) as [next|] eqn:Hnext; destruct i as [|j];
try destruct (pathNodes !! j) as [prev|] eqn:Hprev.
all: split; [intros k; rewrite ?pushPoint_keys|intros Hnd; repeat apply pushPoint_NoDup; done].
all: split; [intros H; decompose [or] H; subst; eauto 10|].
all: intros [?|(q & Hq & [Hn|(j' & Hj' & Hp)])]; auto; simplify_eq; auto.
Qed.

Lemma populate_prefix (n : nat) : forall T,
(n <= length pathNodes)%nat ->
let T' := fold_left (populateStep pathNodes) (seq 0 n) T in
(forall k1 k2, listed T' k1 k2 <-> listed T k1 k2 \/ addedBy pathNodes n k1 k2)
/\ (forall k, is_Some (T' !! k)
<-> is_Some (T !! k) \/ exists i p, (i < n)%nat /\ pathNodes !! i = Some p /\ key p = k)
/\ ((forall k ps, T !! k = Some ps -> NoDup (key <$> ps)) ->
forall k ps, T' !! k = Some ps -> NoDup (key <$> ps)).
Proof.
induction n as [|n IH]; intros T Hn; cbv zeta.
- simpl. split_and!; [| |done].
+ intros k1 k2. split; [auto|]. intros [?|(i & ? & ? & Hi & _)]; [done|lia].
+ intros k. split; [auto|]. intros [?|(i & ? & Hi & _)]; [done|lia].
- rewrite seq_S, fold_left_app. cbn [fold_left Nat.add].
destruct (IH T ltac:(lia)) as (Hlisted & Hentry & Hnd).
set (Tn := fold_left (populateStep pathNodes) (seq 0 n) T) in *.
destruct (lookup_lt_is_Some_2 pathNodes n ltac:(lia)) as [pn Hpn].
destruct (populateStep_keys Tn n pn Hpn) as (ary & -> & Hary & Hnd').
split_and!.
+ intros k1 k2. rewrite listed_keys. destruct (decide (k1 = key pn)) as [->|Hne].
* rewrite lookup_insert_eq. split.
-- intros (ps & [= <-] & Hk2). apply Hary in Hk2 as [Hold|(q & Hq & Hcase)].
++ destruct (Tn !! key pn) as [old|] eqn:Hold'; simpl in Hold;
[|by apply elem_of_nil in Hold].
assert (listed Tn (key pn) k2) as Hl by (apply listed_keys; eauto).
apply Hlisted in Hl as [?|(i & p & q & Hi & Hrest)]; [by left|].
right. exists i, p, q. split; [lia|done].
++ right. exists n, pn, q. split; [lia|]. done.
-- intros Hcase. exists ary. split; [done|]. apply Hary.
assert (listed Tn (key pn) k2
\/ exists q, key q = k2
/\ (pathNodes !! S n = Some q
\/ exists j, n = S j /\ pathNodes !! j = Some q)) as [Hl|Hnew].
{ destruct Hcase as [Hl|(i & p & q & Hi & Hp & Hkp & Hkq & Hcase)].
- left. apply Hlisted. by left.
- destruct (decide (i = n)) as [->|Hin].
+ right. exists q. done.
+ left. apply Hlisted. right. exists i, p, q. split; [lia|done]. }
++ left. apply listed_keys in Hl as (ps & -> & Hk2). done.
++ by right.
* rewrite lookup_insert_ne by done. rewrite <- listed_keys, Hlisted.
split; (intros [?|(i & p & q & Hi & Hp & Hkp & Hrest)]; [by left|right]).
-- exists i, p, q. split; [lia|done].
-- exists i, p, q. split; [|done].
destruct (decide (i = n)) as [->|]; [|lia]. rewrite Hpn in Hp. by simplify_eq.
+ intros k. rewrite lookup_insert_is_Some, Hentry. split.
* intros [<-|[_ [?|(i & p & Hi & Hrest)]]].
-- right. exists n, pn. split; [lia|done].
-- by left.
-- right. exists i, p. split; [lia|done].
* intros [?|(i & p & Hi & Hp & Hk)].
-- destruct (decide (key pn = k)); auto.
-- destruct (decide (key pn = k)); [auto|]. right. split; [done|]. right.
exists i, p. split; [|done].
destruct (decide (i = n)) as [->|]; [|lia]. rewrite Hpn in Hp. by simplify_eq.
+ intros HT k ps. specialize (Hnd HT). rewrite lookup_insert. case_decide.
* intros [= <-]. apply Hnd'. destruct (Tn !! key pn) as [old|] eqn:Hold; simpl.
-- by eapply Hnd.
-- constructor.
* apply Hnd.
Qed.

Lemma addedBy_adjacentIn k1 k2 :
addedBy pathNodes (length pathNodes) k1 k2 <-> adjacentIn pathNodes k1 k2.
Proof.
split.
- intros (i & p & q & Hi & Hp & Hkp & Hkq & [Hq|(j & -> & Hq)]).
+ exists i, p, q. auto.
+ exists j, q, p. auto.
- intros (i & p & q & Hp & Hq & [[Hkp Hkq]|[Hkp Hkq]]).
+ exists i, p, q. apply lookup_lt_Some in Hp as Hi. auto 10.
+ exists (S i), q, p. apply lookup_lt_Some in Hq as Hi. split; [done|].
split; [done|]. split; [done|]. split; [done|]. right. eauto.
Qed.

Lemma populateTransitions_facts T :
(forall k1 k2, listed (populateTransitions pathNodes T) k1 k2
<-> listed T k1 k2 \/ adjacentIn pathNodes k1 k2)
/\ (forall k, is_Some (populateTransitions pathNodes T !! k)
<-> is_Some (T !! k) \/ k ∈ key <$> pathNodes)
/\ ((forall k ps, T !! k = Some ps -> NoDup (key <$> ps)) ->
forall k ps, populateTransitions pathNodes T !! k = Some ps -> NoDup (key <$> ps)).
Proof.
destruct (populate_prefix (length pathNodes) T ltac:(lia)) as (Hlisted & Hentry & Hnd).
unfold populateTransitions. split_and!; [| |done].
- intros k1 k2. by rewrite Hlisted, addedBy_adjacentIn.
- intros k. rewrite Hentry. split; (intros [?|Hin]; [by left|right]).
+ destruct Hin as (i & p & _ & Hp & <-). apply list_elem_of_fmap_2.
by eapply list_elem_of_lookup_2.
+ apply list_elem_of_fmap in Hin as (p & -> & (i & Hi)%list_elem_of_lookup).
exists i, p. apply lookup_lt_Some in Hi as Hlt. done.
Qed.

End PopulateAny.

(** [populateTransitions(pathNodes, transitions)], for any path and any
    table: afterwards the entry of a key lists a key exactly when it did
    before or points with the two keys follow one another in the path; a
    key has an entry exactly when it had one or is the key of a point of
    the path; and entries that listed no key twice still list none
    twice. *)
Theorem populateTransitions_spec (pathNodes : list Point) (T : Transitions) :
  (forall k1 k2, listed (populateTransitions pathNodes T) k1 k2
                 <-> listed T k1 k2 \/ adjacentIn pathNodes k1 k2)
  /\ (forall k, is_Some (populateTransitions pathNodes T !! k)
                <-> is_Some (T !! k) \/ k ∈ key <$> pathNodes)
  /\ ((forall k ps, T !! k = Some ps -> NoDup (key <$> ps)) ->
      forall k ps, populateTransitions pathNodes T !! k = Some ps -> NoDup (key <$> ps)).
Proof. apply populateTransitions_facts. Qed.

Lemma tableOf_facts (pathsNodes : list (list Point)) :
  (forall k1 k2, listed (tableOf pathsNodes) k1 k2
                 <-> exists pathNodes, pathNodes ∈ pathsNodes /\ adjacentIn pathNodes k1 k2)
  /\ (forall k, is_Some (tableOf pathsNodes !! k)
                <-> exists pathNodes, pathNodes ∈ pathsNodes /\ k ∈ key <$> pathNodes)
  /\ (forall k ps, tableOf pathsNodes !! k = Some ps -> NoDup (key <$> ps)).
Proof.
  unfold tableOf.
  assert (forall T,
            let T' := fold_left (fun T pathNodes => populateTransitions pathNodes T) pathsNodes T in
            (forall k1 k2, listed T' k1 k2
               <-> listed T k1 k2
                   \/ exists pathNodes, pathNodes ∈ pathsNodes /\ adjacentIn pathNodes k1 k2)
            /\ (forall k, is_Some (T' !! k)
                  <-> is_Some (T !! k)
                      \/ exists pathNodes, pathNodes ∈ pathsNodes /\ k ∈ key <$> pathNodes)
            /\ ((forall k ps, T !! k = Some ps -> NoDup (key <$> ps)) ->
                forall k ps, T' !! k = Some ps -> NoDup (key <$> ps))) as Hgen.
  { induction pathsNodes as [|pn rest IH]; intros T; cbv zeta; cbn [fold_left].
    - split_and!; [| |done].
      + intros k1 k2. split; [auto|]. intros [?|(? & Hin & _)]; [done|by apply elem_of_nil in Hin].
      + intros k. split; [auto|]. intros [?|(? & Hin & _)]; [done|by apply elem_of_nil in Hin].
    - destruct (populateTransitions_facts pn T) as (H1 & H2 & H3).
      destruct (IH (populateTransitions pn T)) as (H1' & H2' & H3').
      split_and!.
      + intros k1 k2. rewrite H1', H1. split.
        * intros [[?|?]|(p & Hp & Hadj)]; [by left|right..].
          -- exists pn. split; [by left|done].
          -- exists p. split; [by right|done].
        * intros [?|(p & [->|Hp]%elem_of_cons & Hadj)]; [by left; left|by left; right|].
          right. by exists p.
      + intros k. rewrite H2', H2. split.
        * intros [[?|?]|(p & Hp & Hin)]; [by left|right..].
          -- exists pn. split; [by left|done].
          -- exists p. split; [by right|done].
        * intros [?|(p & [->|Hp]%elem_of_cons & Hin)]; [by left; left|by left; right|].
          right. by exists p.
      + intros HT. by apply H3', H3. }
  destruct (Hgen ∅) as (H1 & H2 & H3). split_and!.
  - intros k1 k2. rewrite H1. split; [|auto].
    intros [(ps & pt & Hps & _)|?]; [|done]. by rewrite lookup_empty in Hps.
  - intros k. rewrite H2. split; [|auto].
    intros [[? Hk]|?]; [|done]. by rewrite lookup_empty in Hk.
  - apply H3. intros k ps Hk. by rewrite lookup_empty in Hk.
Qed.

Lemma adjacentIn_sym pathNodes k1 k2 : adjacentIn pathNodes k1 k2 -> adjacentIn pathNodes k2 k1.
Proof. intros (i & p & q & Hp & Hq & Hcase). exists i, p, q. tauto. Qed.

Lemma adjacentIn_elem pathNodes k1 k2 :
  adjacentIn pathNodes k1 k2 -> k1 ∈ key <$> pathNodes /\ k2 ∈ key <$> pathNodes.
Proof.
  intros (i & p & q & Hp & Hq & Hcase).
  apply list_elem_of_lookup_2 in Hp, Hq.
  destruct Hcase as [[<- <-]|[<- <-]]; split; by apply list_elem_of_fmap_2.
Qed.

(** The table that [run] fills from any list of paths: a key lists
    another exactly when points with the two keys follow one another in one
    of the paths, so the table is symmetric; exactly the keys of the points
    of the paths have an entry, so every listed point has one; and no entry
    lists a key twice. *)
Theorem tableOf_spec (pathsNodes : list (list Point)) :
  (forall k1 k2, listed (tableOf pathsNodes) k1 k2
                 <-> exists pathNodes, pathNodes ∈ pathsNodes /\ adjacentIn pathNodes k1 k2)
  /\ (forall k1 k2, listed (tableOf pathsNodes) k1 k2 -> listed (tableOf pathsNodes) k2 k1)
  /\ (forall k, is_Some (tableOf pathsNodes !! k)
                <-> exists pathNodes, pathNodes ∈ pathsNodes /\ k ∈ key <$> pathNodes)
  /\ wellFormed (tableOf pathsNodes)
  /\ (forall k ps, tableOf pathsNodes !! k = Some ps -> NoDup (key <$> ps)).
Proof.
  destruct (tableOf_facts pathsNodes) as (H1 & H2 & H3). split_and!; try done.
  - intros k1 k2. rewrite !H1. intros (p & Hp & Hadj). exists p. split; [done|].
    by apply adjacentIn_sym.
  - intros k ps p Hps Hp. apply H2.
    assert (listed (tableOf pathsNodes) k (key p)) as Hl by (by exists ps, p).
    apply H1 in Hl as (pn & Hpn & Hadj). exists pn. split; [done|].
    by apply adjacentIn_elem in Hadj as [_ ?].
Qed.

Lemma tableOf_wellFormed (pathsNodes : list (list Point)) : wellFormed (tableOf pathsNodes).
Proof.
  destruct (tableOf_facts pathsNodes) as (H1 & H2 & H3).
  intros k ps p Hps Hp. apply H2.
  assert (listed (tableOf pathsNodes) k (key p)) as Hl by (by exists ps, p).
  apply H1 in Hl as (pn & Hpn & Hadj). exists pn. split; [done|].
  by apply adjacentIn_elem in Hadj as [_ ?].
Qed.

(** On the table filled from any list of paths, [canReachEnd] never
    throws for a start key that lies on one of the paths (or is the end
    key): it returns, [true] exactly when the table has a path from the
    start key to the end key that enters no key of the initial history, and
    with the history as it was when it returns [false]. *)
Theorem canReachEnd_on_paths (pathsNodes : list (list Point)) (s e : Key) (h : list Key) :
  (s = e \/ exists pathNodes, pathNodes ∈ pathsNodes /\ s ∈ key <$> pathNodes) ->
  exists b h',
    canReachEnd s e (tableOf pathsNodes) h = Ok (b, h')
    /\ (b = true <-> route (tableOf pathsNodes) h s e)
    /\ (b = false -> h' = h).
Proof.
  intros Hs. unfold canReachEnd.
  destruct (canReachEnd_fuel_spec (tableOf pathsNodes) e (tableOf_wellFormed pathsNodes)
              (size (tableOf pathsNodes) + 2) s h) as (b & h' & Hrun & Hb & Hh').
  { destruct Hs as [?|Hs]; [by left|right]. by apply (tableOf_facts pathsNodes). }
  { pose proof (unvisited_le_size (tableOf pathsNodes) (h ++ [s])). lia. }
  exists b, h'. split; [done|]. split; [|done]. by rewrite Hb, found_iff_route.
Qed.

Lemma canReachEnd_on_paths_witness :
  exists b h',
    canReachEnd (0, 2) (2, 2) (tableOf [detourMain; detourSub]) [] = Ok (b, h')
    /\ (b = true <-> route (tableOf [detourMain; detourSub]) [] (0, 2) (2, 2))
    /\ (b = false -> h' = []).
Proof.
  apply (canReachEnd_on_paths [detourMain; detourSub] (0, 2) (2, 2) []).
  right. exists detourMain. split; [by left|]. by left.
Defined.

(** ** index.ts: nodesFromTransitions, the shape of the graph *)

Lemma pushNew_NoDup a l : NoDup l -> NoDup (MapNode.pushNew a l).
Proof.
  intros Hnd. unfold MapNode.pushNew. destruct (existsb _ l) eqn:Hex; [done|].
  apply NoDup_app. split; [done|]. split; [|apply NoDup_singleton].
  intros k Hk ->%list_elem_of_singleton.
  assert (existsb (fun k' => bool_decide (k' = a)) l = true) as Habs.
  { apply existsb_exists. exists a. split; [by apply list_elem_of_In|by apply bool_decide_eq_true]. }
  by rewrite Hex in Habs.
Qed.

Lemma pushNew_nonempty a l : MapNode.pushNew a l ≠ [].
Proof.
  intros Hnil. assert (a ∈ MapNode.pushNew a l) as Ha by (apply pushNew_elem; by left).
  rewrite Hnil in Ha. by apply elem_of_nil in Ha.
Qed.

Lemma anc_mono P P' a d :
  (forall k p, p ∈ P k -> p ∈ P' k) -> anc P a d -> anc P' a d.
Proof.
  intros Hsub. induction 1 as [a c Hp|a p c Hp _ IH].
  - apply anc_parent. by apply Hsub.
  - apply anc_step with p; [by apply Hsub|done].
Qed.

Lemma parentsOf_linkNodes c t refs k :
  parentsOf (linkNodes c t refs) k
  = if decide (k = t) then MapNode.pushNew c (parentsOf refs k) else parentsOf refs k.
Proof. unfold parentsOf. by destruct (deref_linkNodes c t refs k) as (_ & _ & _ & -> & _). Qed.

Lemma childrenOf_linkNodes c t refs k :
  childrenOf (linkNodes c t refs) k
  = if decide (k = c) then MapNode.pushNew t (childrenOf refs k) else childrenOf refs k.
Proof. unfold childrenOf. by destruct (deref_linkNodes c t refs k) as (_ & _ & _ & _ & ->). Qed.

Lemma parentsOf_linkNodes_sub c t refs k p :
  p ∈ parentsOf refs k -> p ∈ parentsOf (linkNodes c t refs) k.
Proof.
  intros Hp. rewrite parentsOf_linkNodes. case_decide; [|done]. apply pushNew_elem. by right.
Qed.

Section Rooted.
Variables (s e : Key).

Lemma rooted_ensureNode pt refs : rooted s e refs -> rooted s e (ensureNode pt refs).
Proof.
assert (forall k, parentsOf (ensureNode pt refs) k = parentsOf refs k) as HP
by (intros k; unfold parentsOf; by rewrite deref_ensureNode).
assert (forall k, childrenOf (ensureNode pt refs) k = childrenOf refs k) as HC
by (intros k; unfold childrenOf; by rewrite deref_ensureNode).
intros [H1 H2 H3 H4]. split.
- intros k. by rewrite HP, HC.
- by rewrite HP.
- intros c. rewrite HP. intros Hc. apply (anc_ext (parentsOf refs)); [done|]. by apply H3.
- intros Hse. rewrite HC. by apply H4.
Qed.

Lemma pendingOk_ensureNode pt refs q :
pendingOk s e refs q -> pendingOk s e (ensureNode pt refs) q.
Proof. unfold pendingOk, parentsOf. by rewrite deref_ensureNode. Qed.

Lemma pendingOk_linkNodes c t refs q :
pendingOk s e refs q -> pendingOk s e (linkNodes c t refs) q.
Proof.
intros [[->|Hq] He]; split; auto. right. rewrite parentsOf_linkNodes.
case_decide; [apply pushNew_nonempty|done].
Qed.

Lemma rooted_linkNodes c t refs :
rooted s e refs -> pendingOk s e refs c ->
t ≠ c -> ~ anc (parentsOf refs) t c ->
rooted s e (linkNodes c t refs)
/\ (t ≠ e -> pendingOk s e (linkNodes c t refs) t).
Proof.
intros [H1 H2 H3 H4] [Hc Hce] Htc Hanc.
assert (t ≠ s) as Hts.
{ intros ->. destruct Hc as [->|Hc]; [done|]. by apply Hanc, H3. }
assert (anc (parentsOf (linkNodes c t refs)) s t) as Hst.
{ destruct Hc as [->|Hc].
- apply anc_parent. rewrite parentsOf_linkNodes, decide_True by done.
apply pushNew_elem. by left.
- apply anc_step with c.
+ rewrite parentsOf_linkNodes, decide_True by done. apply pushNew_elem. by left.
+ eapply anc_mono; [|by apply H3]. intros k p. apply parentsOf_linkNodes_sub. }
split; [split|].
- intros k. rewrite parentsOf_linkNodes, childrenOf_linkNodes. destruct (H1 k) as [Hck Hpk].
split; case_decide; auto using pushNew_NoDup.
- rewrite parentsOf_linkNodes. by rewrite decide_False by done.
- intros k. rewrite parentsOf_linkNodes. case_decide as Hk; [by subst|].
intros Hne. eapply anc_mono; [|by apply H3]. intros k' p. apply parentsOf_linkNodes_sub.
- intros Hse. rewrite childrenOf_linkNodes. rewrite decide_False; [by apply H4|].
intros <-. by apply Hce.
- intros Hte. split; [|done]. right. rewrite parentsOf_linkNodes, decide_True by done.
apply pushNew_nonempty.
Qed.

End Rooted.

Section BuildRooted.
Variable T : Transitions.
Variables (start end_ : Point).
Hypothesis T_noSelf : noSelf T.

Local Abbreviation s := (key start).
Local Abbreviation e := (key end_).
Local Abbreviation queueOk := (fun refs (q : list Point) => Forall (fun p => pendingOk s e refs (key p)) q).

Lemma linkStep_rooted curr ps b pt b' :
rooted s e (nodeRefs b) -> pendingOk s e (nodeRefs b) curr -> queueOk (nodeRefs b) (currPoints b) ->
T !! curr = Some ps -> pt ∈ ps ->
linkStep end_ T curr b pt = Ok b' ->
rooted s e (nodeRefs b') /\ pendingOk s e (nodeRefs b') curr
/\ queueOk (nodeRefs b') (currPoints b').
Proof.
intros Hro Hcurr Hq Hps Hpt. unfold linkStep.
pose proof (rooted_ensureNode s e pt _ Hro) as Hro1.
pose proof (pendingOk_ensureNode s e pt _ _ Hcurr) as Hcurr1.
assert (queueOk (ensureNode pt (nodeRefs b)) (currPoints b)) as Hq1.
{ eapply Forall_impl; [exact Hq|]. intros p. apply pendingOk_ensureNode. }
set (refs := ensureNode pt (nodeRefs b)) in *.
destruct (hasAncestor refs curr (key pt)) as [[|]| |] eqn:Hanc; simpl; [|idtac|done..].
{ intros [= <-]. done. }
destruct (getAncestors refs curr) as [ancestors| |]; simpl; [|done..].
destruct (canReachEnd _ _ _ _) as [[[|] h']| |] eqn:Hreach; simpl; [| |done..].
2: { intros [= <-]. done. }
intros [= <-]. cbn [nodeRefs currPoints].
destruct (rooted_linkNodes s e curr (key pt) refs Hro1 Hcurr1) as [Hro2 Hnew].
{ by eapply T_noSelf. }
{ by eapply hasAncestor_fuel_false. }
split; [done|]. split; [by apply pendingOk_linkNodes|].
assert (queueOk (linkNodes curr (key pt) refs) (currPoints b)) as Hq2.
{ eapply Forall_impl; [exact Hq1|]. intros p. apply pendingOk_linkNodes. }
destruct (equals pt end_) eqn:Heq; [done|].
apply Forall_app. split; [done|]. constructor; [|done]. apply Hnew.
intros Hk. apply equals_key in Hk. by rewrite Hk in Heq.
Qed.

Lemma linkAll_rooted curr ps transPoints : forall b b',
rooted s e (nodeRefs b) -> pendingOk s e (nodeRefs b) curr -> queueOk (nodeRefs b) (currPoints b) ->
T !! curr = Some ps -> (forall pt, pt ∈ transPoints -> pt ∈ ps) ->
linkAll end_ T curr b transPoints = Ok b' ->
rooted s e (nodeRefs b') /\ queueOk (nodeRefs b') (currPoints b').
Proof.
induction transPoints as [|pt rest IH]; intros b b' Hro Hcurr Hq Hps Hsub; simpl.
- intros [= <-]. done.
- destruct (linkStep end_ T curr b pt) as [b1| |] eqn:Hstep; simpl; [|done..].
destruct (linkStep_rooted curr ps b pt b1) as (Hro1 & Hcurr1 & Hq1); try done.
{ apply Hsub. by left. }
apply IH; try done. intros q Hq'. apply Hsub. by right.
Qed.

Lemma buildLoop_rooted fuel : forall b reg,
graphInv T e (nodeRefs b) ->
rooted s e (nodeRefs b) -> queueOk (nodeRefs b) (currPoints b) ->
buildLoop fuel end_ T b = Ok reg -> rooted s e reg.
Proof.
induction fuel as [|fuel IH]; intros b reg Hinv Hro Hq; simpl; [done|].
destruct (currPoints b) as [|currPoint rest] eqn:Hcp; [by intros [= <-]|].
destruct (nodeRefs b !! key currPoint) as [currNode|] eqn:Hcurr; [|by intros [= <-]].
assert (key (MapNode.pos currNode) = key currPoint) as Hkey by (by eapply Hinv).
rewrite Hkey.
destruct (T !! key currPoint) as [transPoints|] eqn:Hps; [|done].
destruct (linkAll _ _ _ _ _) as [b1| |] eqn:Hlink; simpl; [|done..].
apply Forall_cons in Hq as [Hhead Hq].
destruct (linkAll_inv T end_ T_noSelf (key currPoint) transPoints transPoints
(mkBuild (nodeRefs b) rest) b1) as [Hinv1 _]; try done.
destruct (linkAll_rooted (key currPoint) transPoints transPoints
(mkBuild (nodeRefs b) rest) b1) as [Hro1 Hq1]; try done.
by apply IH.
Qed.

Lemma rooted_init : rooted s e (nodeRefs (initBuild start end_)).
Proof.
assert (forall k, parentsOf (nodeRefs (initBuild start end_)) k = []
/\ childrenOf (nodeRefs (initBuild start end_)) k = []) as Hno.
{ intros k. unfold parentsOf, childrenOf, deref. simpl.
rewrite lookup_insert. case_decide; [done|].
rewrite lookup_singleton. by case_decide. }
split.
- intros k. destruct (Hno k) as [-> ->]. split; constructor.
- apply Hno.
- intros c. by destruct (Hno c) as [-> _].
- intros _. apply Hno.
Qed.

Lemma nodesFromTransitions_rooted fuel reg :
nodesFromTransitions fuel start end_ T = Ok reg -> rooted s e reg.
Proof.
apply buildLoop_rooted.
- by apply graphInv_init.
- apply rooted_init.
- simpl. constructor; [|done]. split; [by left|done].
Qed.

End BuildRooted.

Lemma noSelf_check (T : Transitions) :
  map_Forall (fun k ps => Forall (fun p => key p ≠ k) ps) T -> noSelf T.
Proof.
  intros Hall k ps p Hps Hp. specialize (Hall k ps Hps). rewrite Forall_forall in Hall.
  by apply Hall.
Qed.

(** For a table in which no point lists itself, whenever graph building
    returns: the registry holds the start and the end node; every node is
    stored under the key of its position, with the fields its constructor
    set; a node is a child of another exactly when that one is its parent;
    every link follows a transition of the table and joins nodes of the
    registry; and no parent or child list holds a node twice. *)
Theorem nodesFromTransitions_links (T : Transitions) (start end_ : Point)
    (fuel : nat) (reg : gmap Key MapNode.t) :
  noSelf T ->
  nodesFromTransitions fuel start end_ T = Ok reg ->
  is_Some (reg !! key start) /\ is_Some (reg !! key end_)
  /\ (forall k n, reg !! k = Some n ->
        key (MapNode.pos n) = k /\ MapNode.distSinceFight n = -1 /\ MapNode.isBoss n = false)
  /\ (forall p c, c ∈ childrenOf reg p <-> p ∈ parentsOf reg c)
  /\ (forall p c, c ∈ childrenOf reg p ->
        listed T p c /\ is_Some (reg !! p) /\ is_Some (reg !! c))
  /\ (forall k, NoDup (childrenOf reg k) /\ NoDup (parentsOf reg k)).
Proof.
  intros Hns Hrun.
  destruct (nodesFromTransitions_inv T end_ Hns fuel start reg Hrun) as (Hinv & Hs & He).
  pose proof (nodesFromTransitions_rooted T start end_ Hns fuel reg Hrun) as Hro.
  destruct Hinv as [H1 H2 H3 H4 H5 H6]. split_and!; try done.
  - intros k n Hn. split; [by eapply H5|]. by eapply H6.
  - intros p c Hc. split; [by apply H4|by apply H3].
  - apply Hro.
Qed.

Lemma nodesFromTransitions_links_witness :
  is_Some (chainNodes !! key chainStart) /\ is_Some (chainNodes !! key chainEnd)
  /\ (forall k n, chainNodes !! k = Some n ->
        key (MapNode.pos n) = k /\ MapNode.distSinceFight n = -1 /\ MapNode.isBoss n = false)
  /\ (forall p c, c ∈ childrenOf chainNodes p <-> p ∈ parentsOf chainNodes c)
  /\ (forall p c, c ∈ childrenOf chainNodes p ->
        listed chainTransitions p c /\ is_Some (chainNodes !! p) /\ is_Some (chainNodes !! c))
  /\ (forall k, NoDup (childrenOf chainNodes k) /\ NoDup (parentsOf chainNodes k)).
Proof.
  apply (nodesFromTransitions_links chainTransitions chainStart chainEnd 4 chainNodes).
  - apply noSelf_check. apply (bool_decide_unpack _). by vm_compute.
  - by vm_compute.
Defined.

(** For a table in which no point lists itself, whenever graph building
    returns: the start node has no parent; every node that has a parent
    descends from the start node; and the end node, when it is not the
    start node, has no child. *)
Theorem nodesFromTransitions_ends (T : Transitions) (start end_ : Point)
    (fuel : nat) (reg : gmap Key MapNode.t) :
  noSelf T ->
  nodesFromTransitions fuel start end_ T = Ok reg ->
  parentsOf reg (key start) = []
  /\ (forall c, parentsOf reg c ≠ [] -> anc (parentsOf reg) (key start) c)
  /\ (key start ≠ key end_ -> childrenOf reg (key end_) = []).
Proof.
  intros Hns Hrun.
  destruct (nodesFromTransitions_rooted T start end_ Hns fuel reg Hrun) as [_ H2 H3 H4].
  done.
Qed.

Lemma nodesFromTransitions_ends_witness :
  parentsOf chainNodes (key chainStart) = []
  /\ (forall c, parentsOf chainNodes c ≠ [] -> anc (parentsOf chainNodes) (key chainStart) c)
  /\ (key chainStart ≠ key chainEnd -> childrenOf chainNodes (key chainEnd) = []).
Proof.
  apply (nodesFromTransitions_ends chainTransitions chainStart chainEnd 4 chainNodes).
  - apply noSelf_check. apply (bool_decide_unpack _). by vm_compute.
  - by vm_compute.
Defined.

(** ** index.ts: the range of distSinceFight *)

Section DistRange.
Variable rnd : nat -> Q.
Variable numPortraits : Z.
Hypothesis rnd_below_one : forall i, (rnd i < 1)%Q.

Local Abbreviation roll := (rollFight rnd numPortraits).
Local Abbreviation after := (worldAfter rnd numPortraits).

(** The chance of a fight for a parent 9 steps from the last one:
[0.1*9 + 0.1] is exactly 1 in doubles. *)
Lemma chance_nine :
Double.add (Double.mul Double.tenth (Double.ofZ 9)) Double.tenth
= S754_finite false 4503599627370496 (-52).
Proof. by vm_compute. Qed.

(** The three outcomes of a fight roll for the child of a parent at most
9 steps from the last fight: untouched, a fight, or one step further
than the parent, which the draw allows only when the parent is less
than 9 steps from it. *)
Lemma rollFight_child cur ch w :
0 <= distOf (registry w) cur <= 9 ->
distOf (registry (roll cur ch w)) ch = distOf (registry w) ch
/\ distOf (registry w) ch ≠ -1
\/ distOf (registry (roll cur ch w)) ch = 0
\/ distOf (registry (roll cur ch w)) ch = Z.max (distOf (registry w) cur + 1) 1
/\ distOf (registry w) cur + 1 < 10.
Proof.
intros Hcur. unfold rollFight. fold (distOf (registry w) cur) (distOf (registry w) ch).
destruct ((distOf (registry w) ch =? -1) || (distOf (registry w) cur + 1 <? distOf (registry w) ch))
eqn:Hguard.
2: { left. split; [done|]. apply orb_false_iff in Hguard as [Hm _]. lia. }
destruct (Double.lt _ _) eqn:Hlt.
- right. left. unfold getPortrait, update. cbn [registry cursor].
rewrite distOf_insert, decide_True by done. cbn.
by rewrite deref_insert_eq.
- right. right. unfold update. cbn [registry cursor].
rewrite distOf_insert, decide_True by done. cbn. split; [done|].
destruct (decide (distOf (registry w) cur = 9)) as [Hnine|]; [|lia].
rewrite Hnine, chance_nine in Hlt. unfold Double.lt in Hlt.
apply negb_false_iff, Qle_bool_iff in Hlt. cbn [cursor] in Hlt.
specialize (rnd_below_one (cursor w)).
exfalso. apply (Qlt_irrefl 1). eapply Qle_lt_trans; [|exact rnd_below_one].
eapply Qle_trans; [|exact Hlt]. by vm_compute.
Qed.

Lemma bounded_roll cur ch w B :
bounded w B -> cur ∈ B -> bounded (roll cur ch w) (ch :: B).
Proof.
intros [Hrange Hres] Hcur. specialize (Hres cur Hcur) as Hc.
assert (forall k, k ≠ ch -> distOf (registry (roll cur ch w)) k = distOf (registry w) k) as Hother.
{ intros k Hk. unfold distOf. by rewrite rollFight_other. }
pose proof (Hrange cur) as Hrc.
pose proof (rollFight_child cur ch w ltac:(lia)) as Hch. pose proof (Hrange ch) as Hrch.
split.
- intros k. destruct (decide (k = ch)) as [->|Hk]; [|rewrite Hother by done; apply Hrange].
destruct Hch as [[-> _]|[->|[-> Hlt]]]; lia.
- intros k Hk. destruct (decide (k = ch)) as [->|Hne].
+ destruct Hch as [[-> Hne]|[->|[-> Hlt]]]; lia.
+ rewrite Hother by done. apply elem_of_cons in Hk as [?|Hk]; [done|]. by apply Hres.
Qed.

Lemma bounded_run B vs : forall w,
ordered B vs -> bounded w B ->
(forall k, -1 <= distOf (registry (after w vs)) k <= 9)
/\ (forall k, k ∈ B \/ k ∈ vs.*2 -> 0 <= distOf (registry (after w vs)) k).
Proof.
intros w Hord. revert w. induction Hord as [B|B c ch vs Hc Hord IH]; intros w Hb.
- simpl. destruct Hb as [H1 H2]. split; [done|]. intros k [Hk|Hk]; [by apply H2|].
by apply elem_of_nil in Hk.
- unfold worldAfter. cbn [fold_left fst snd]. fold (after (roll c ch w) vs).
destruct (IH (roll c ch w) (bounded_roll c ch w B Hb Hc)) as [H1 H2].
split; [done|]. intros k Hk. apply H2. rewrite elem_of_cons. rewrite fmap_cons in Hk.
cbn in Hk. rewrite elem_of_cons in Hk. tauto.
Qed.

End DistRange.

(** Staging a registry of freshly constructed nodes, with draws below 1:
    in the world it returns no [distSinceFight] is above 9 (a node 9 steps
    past the last fight makes the fight of its child certain), and every
    node of the steps has one of at least 0, none still being -1. *)
Theorem stage_dist_range (rnd : nat -> Q) (numPortraits : Z) (start end_ : Point)
    (reg : gmap Key MapNode.t) (fuel : nat) :
  (forall i, (rnd i < 1)%Q) ->
  closed reg -> is_Some (reg !! key start) -> is_Some (reg !! key end_) -> fresh reg ->
  (size reg + 2 <= fuel)%nat ->
  exists steps w,
    stage rnd numPortraits fuel start end_ reg = Ok (steps, w)
    /\ (forall k, -1 <= distOf (registry w) k <= 9)
    /\ (forall k, k ∈ concat (nodes steps) -> 0 <= distOf (registry w) k <= 9).
Proof.
  intros Hrnd Hclosed Hs He Hfresh Hfuel.
  destruct (stage_staged rnd numPortraits start end_ reg Hclosed Hs He fuel Hfuel)
    as (steps & Hrun & Hst & Hfirst & _).
  eexists _, _. split; [exact Hrun|]. cbn [registry].
  set (w0 := prepare rnd numPortraits start end_ reg).
  set (visits := pairsOf (childrenOf reg) (concat (nodes steps))).
  assert (ordered [key start] visits) as Hord.
  { apply levelled_ordered; [apply Hst|].
    intros b c Hb Hc. rewrite Hfirst in Hb. by injection Hb as <-. }
  assert (bounded w0 [key start]) as Hb0.
  { split.
    - intros k. unfold w0. rewrite distOf_prepare. repeat case_decide; try lia.
      rewrite fresh_distOf by done. lia.
    - intros k ->%list_elem_of_singleton. unfold w0. rewrite distOf_prepare.
      repeat case_decide; try lia; done. }
  destruct (bounded_run rnd numPortraits Hrnd _ _ w0 Hord Hb0) as [Hrange Hres].
  split; [done|]. intros k Hk. split; [|apply Hrange]. apply Hres.
  apply elem_of_concat in Hk as (b & Hkb & (i & Hi)%list_elem_of_lookup).
  destruct i as [|i].
  - left. rewrite Hfirst in Hi. by injection Hi as <-.
  - right. destruct (st_levelled _ _ _ Hst i b k Hi Hkb) as (bu & u & Hbu & Hu & Hku).
    apply list_elem_of_fmap. exists (u, k). split; [done|].
    apply elem_of_pairsOf. split; [|done].
    apply elem_of_concat. exists bu. split; [done|]. by eapply list_elem_of_lookup_2.
Qed.

Lemma stage_dist_range_witness :
  exists steps w,
    stage zeroDraws 1 5 chainStart chainEnd chainNodes = Ok (steps, w)
    /\ (forall k, -1 <= distOf (registry w) k <= 9)
    /\ (forall k, k ∈ concat (nodes steps) -> 0 <= distOf (registry w) k <= 9).
Proof.
  apply (stage_dist_range zeroDraws 1 chainStart chainEnd chainNodes 5).
  - intros i. unfold zeroDraws, Qlt. simpl. lia.
  - apply closed_check. apply (bool_decide_unpack _). by vm_compute.
  - apply (bool_decide_unpack _). by vm_compute.
  - apply (bool_decide_unpack _). by vm_compute.
  - intros k n Hk.
    apply (map_Forall_lookup_1 (fun _ n => MapNode.distSinceFight n = -1 /\ MapNode.isBoss n = false)
             chainNodes k n); [|done].
    apply (bool_decide_unpack _). by vm_compute.
  - vm_compute. lia.
Defined.

(** ** index.ts: containsPath *)

(** [containsPath] does not tell a path from its reverse: whether the
    segment that is looked for, or any segment of the list, is given from
    [n1] to [n2] or from [n2] to [n1] makes no difference. *)
Theorem containsPath_reverse (ps : list PathSegment) (p : PathSegment) :
  containsPath ps (mkSegment (n2 p) (n1 p)) = containsPath ps p
  /\ containsPath ((fun q => mkSegment (n2 q) (n1 q)) <$> ps) p = containsPath ps p
  /\ (containsPath ps p = true
      <-> exists q, q ∈ ps /\ ((n1 q = n1 p /\ n2 q = n2 p) \/ (n1 q = n2 p /\ n2 q = n1 p))).
Proof.
  assert (forall q, sameSegment (mkSegment (n2 p) (n1 p)) q = sameSegment p q) as Hrev.
  { intros q. unfold sameSegment. cbn.
    by destruct (bool_decide (n1 q = n1 p)), (bool_decide (n2 q = n2 p)),
      (bool_decide (n2 q = n1 p)), (bool_decide (n1 q = n2 p)). }
  assert (forall q, sameSegment p (mkSegment (n2 q) (n1 q)) = sameSegment p q) as Hrev'.
  { intros q. unfold sameSegment. cbn.
    by destruct (bool_decide (n1 q = n1 p)), (bool_decide (n2 q = n2 p)),
      (bool_decide (n2 q = n1 p)), (bool_decide (n1 q = n2 p)). }
  split_and!.
  - unfold containsPath. f_equal. f_equal. f_equal.
    induction ps as [|q ps IH]; [done|]. cbn [List.filter]. by rewrite Hrev, IH.
  - unfold containsPath. f_equal. f_equal.
    induction ps as [|q ps IH]; [done|]. cbn [List.filter fmap list_fmap].
    rewrite Hrev'. destruct (sameSegment p q); cbn [length]; by rewrite IH.
  - rewrite containsPath_occurrences, occurrences_elem. split.
    + intros (q & Hq & Hs). exists q. split; [done|].
      unfold sameSegment in Hs. apply orb_true_iff in Hs as [Hs|Hs];
        apply andb_true_iff in Hs as [H1 H2];
        apply bool_decide_eq_true in H1, H2; auto.
    + intros (q & Hq & Hcase). exists q. split; [done|]. unfold sameSegment.
      apply orb_true_iff. destruct Hcase as [[H1 H2]|[H1 H2]]; [left|right];
        apply andb_true_iff; split; by apply bool_decide_eq_true.
Qed.

(** ** index.ts: buildAnimationSteps as a whole *)

Lemma stageLoop_lengths rnd numPortraits fuel : forall steps w cur cps steps' w',
  stageLoop rnd numPortraits fuel steps w cur cps = Ok (steps', w') ->
  length (paths steps) = length (nodes steps) ->
  length (paths steps') = length (nodes steps').
Proof.
  induction fuel as [|fuel IH]; intros steps w cur cps steps' w'; cbn [stageLoop]; [done|].
  destruct ((0 <? length cur)%nat || (0 <? length cps)%nat).
  - destruct (mapNodes _ _ _ _ _) as [s mapped]. intros Hrun Hlen.
    apply (IH _ _ _ _ _ _ Hrun). cbn [paths nodes]. rewrite !length_app. simpl. lia.
  - by intros [= <- <-].
Qed.

(** [buildAnimationSteps] returns for every table in which no point lists
    itself, every listed point has an entry and [start] has one.  The steps
    hold as many path batches as node batches, the first being [start]
    alone and no path; no node is shown twice; and in the world left behind
    the end node is a boss with [distSinceFight = 0] and no other node is a
    boss. *)
Theorem buildAnimationSteps_returns (rnd : nat -> Q) (numPortraits : Z)
    (T : Transitions) (start end_ : Point) :
  noSelf T -> wellFormed T -> is_Some (T !! key start) ->
  exists fuel0 steps w,
    (forall k, buildAnimationSteps rnd numPortraits (fuel0 + k) start end_ T = Ok (steps, w))
    /\ nodes steps !! 0%nat = Some [key start]
    /\ paths steps !! 0%nat = Some []
    /\ length (paths steps) = length (nodes steps)
    /\ NoDup (concat (nodes steps))
    /\ distOf (registry w) (key end_) = 0
    /\ (forall k, bossOf (registry w) k = bool_decide (k = key end_)).
Proof.
  intros Hns Hwf Hentry.
  destruct (nodesFromTransitions_total T start end_ Hns Hwf Hentry) as (f1 & reg & Hbuild).
  destruct (nodesFromTransitions_inv T end_ Hns (f1 + 0) start reg (Hbuild 0%nat))
    as (Hinv & Hrs & Hre).
  pose proof (graphInv_closed _ _ _ Hinv) as Hclosed.
  pose proof (gi_fresh _ _ _ Hinv) as Hfresh.
  destruct (stage_staged rnd numPortraits start end_ reg Hclosed Hrs Hre
              (size reg + 2) ltac:(lia))
    as (steps & Hstage & Hstaged & Hfirst & Hpaths).
  exists (f1 + size reg + 2)%nat, steps. eexists. split_and!.
  - intros k. unfold buildAnimationSteps.
    replace (f1 + size reg + 2 + k)%nat with (f1 + (size reg + 2 + k))%nat at 1 by lia.
    rewrite Hbuild. cbn [mbind outcome_bind].
    replace (f1 + size reg + 2 + k)%nat with (size reg + 2 + (f1 + k))%nat by lia.
    apply stage_more. exact Hstage.
  - done.
  - done.
  - unfold stage in Hstage. destruct Hrs as [ns Hns']. destruct Hre as [ne Hne'].
    rewrite Hns', Hne' in Hstage. by apply stageLoop_lengths in Hstage.
  - by destruct Hstaged.
  - cbn [registry].
    set (w0 := prepare rnd numPortraits start end_ reg).
    set (visits := pairsOf (childrenOf reg) (concat (nodes steps))).
    assert (ordered [key start] visits) as Hord.
    { apply levelled_ordered; [apply Hstaged|].
      intros b c Hb Hc. rewrite Hfirst in Hb. by injection Hb as <-. }
    destruct (ordered_run rnd numPortraits _ _ w0 Hord
                (resolved_prepare rnd numPortraits start end_ reg Hfresh)) as [_ Hzero].
    specialize (Hzero 0%nat (length visits) (key end_) ltac:(lia)).
    rewrite firstn_all in Hzero. apply Hzero. rewrite take_0. unfold worldAfter. cbn [fold_left].
    unfold w0. rewrite distOf_prepare.
    by case_decide.
  - intros k. cbn [registry]. rewrite worldAfter_boss, bossOf_prepare.
    case_decide as Hk.
    + subst. by rewrite bool_decide_eq_true_2.
    + rewrite bool_decide_eq_false_2 by done. by apply fresh_bossOf.
Qed.

Lemma buildAnimationSteps_returns_witness :
  exists fuel0 steps w,
    (forall k, buildAnimationSteps zeroDraws 1 (fuel0 + k) chainStart chainEnd chainTransitions
               = Ok (steps, w))
    /\ nodes steps !! 0%nat = Some [key chainStart]
    /\ paths steps !! 0%nat = Some []
    /\ length (paths steps) = length (nodes steps)
    /\ NoDup (concat (nodes steps))
    /\ distOf (registry w) (key chainEnd) = 0
    /\ (forall k, bossOf (registry w) k = bool_decide (k = key chainEnd)).
Proof.
  apply (buildAnimationSteps_returns zeroDraws 1 chainTransitions chainStart chainEnd).
  - apply noSelf_check. apply (bool_decide_unpack _). by vm_compute.
  - apply chainTransitions_wellFormed.
  - apply (bool_decide_unpack _). by vm_compute.
Defined.

(** ** index.ts: a main path that is too short *)

(** For a main path of 2 to 14 points there are draws for which the index
    of the end of the sub path is negative: [path[subEndIdx]] is then
    [undefined], and the search for the sub path throws on reading
    [end.x]. *)
Theorem subEndIdx_negative (len : Z) :
  2 <= len <= 14 ->
  exists r1 r2, isDraw r1 /\ isDraw r2
    /\ subEndIdx len (subStartIdx len r1) r2 < 0
    /\ forall path : list Point, getIdx path (subEndIdx len (subStartIdx len r1) r2) = None.
Proof.
  intros Hlen.
  assert (exists r1 r2, isDraw r1 /\ isDraw r2 /\ subEndIdx len (subStartIdx len r1) r2 < 0)
    as (r1 & r2 & Hr1 & Hr2 & Hneg).
  { assert (len = 2 \/ len = 3 \/ len = 4 \/ len = 5 \/ len = 6 \/ len = 7 \/ len = 8
            \/ len = 9 \/ len = 10 \/ len = 11 \/ len = 12 \/ len = 13 \/ len = 14) as Hcases by lia.
    assert (isDraw 0 /\ isDraw (1 # 2) /\ isDraw (31 # 32)) as (H0 & H1 & H2).
    { unfold isDraw, Qle, Qlt. simpl. lia. }
    decompose [or] Hcases; subst len;
      first [ by exists 0%Q, (31 # 32)%Q | by exists (1 # 2)%Q, (31 # 32)%Q ]. }
  exists r1, r2. split_and!; try done.
  intros path. unfold getIdx. by replace (_ <? 0) with true by lia.
Qed.

Lemma subEndIdx_negative_witness :
  exists r1 r2, isDraw r1 /\ isDraw r2
    /\ subEndIdx 10 (subStartIdx 10 r1) r2 < 0
    /\ forall path : list Point, getIdx path (subEndIdx 10 (subStartIdx 10 r1) r2) = None.
Proof. apply (subEndIdx_negative 10). lia. Defined.

(** ** index.ts: runAnimation *)

Section Animation.
Variable steps : AnimationSteps.
Hypothesis batches : length (paths steps) = length (nodes steps).
Variable t0 : Q.

Local Abbreviation n := (Z.of_nat (length (nodes steps))).
Local Abbreviation stepNumAt := (fun time : Q => Z.min (Qfloor ((time - t0) / msPerStep)) n).

Lemma getIdx_batches step :
0 <= step < n ->
is_Some (getIdx (paths steps) step) /\ is_Some (getIdx (nodes steps) step).
Proof.
intros Hstep. unfold getIdx. replace (step <? 0) with false by lia.
split; apply lookup_lt_is_Some_2; lia.
Qed.

Lemma commitAll_ok idxs :
Forall (fun step => 0 <= step < n) idxs ->
commitAll steps idxs = Ok (Committed <$> idxs).
Proof.
induction 1 as [|step idxs Hstep _ IH]; [done|]. cbn [commitAll].
destruct (getIdx_batches step Hstep) as [[? ->] [? ->]]. by rewrite IH.
Qed.

Lemma replay_commits m k rest :
0 <= k -> m + k <= n -> replay n (m + k) rest ->
replay n m ((Committed <$> seqZ m k) ++ rest).
Proof.
intros Hk. revert m. pattern k. apply natlike_ind; [| |done].
- intros m _. by rewrite Z.add_0_r.
- clear k Hk. intros k Hk IH m Hle Hrest.
rewrite seqZ_cons by lia. cbn [fmap list_fmap app replay]. fold (fmap (M := list) Committed).
split; [done|]. split; [lia|]. rewrite Z.pred_succ. apply IH; [lia|].
by replace (Z.succ m + k) with (m + Z.succ k) by lia.
Qed.

Lemma stepNumAt_mono t t' : (t <= t')%Q -> stepNumAt t <= stepNumAt t'.
Proof.
intros Hle. apply Z.min_le_compat_r. apply Qfloor_resp_le.
unfold msPerStep, Qdiv. apply Qmult_le_compat_r; [lra|]. done.
Qed.

(** One frame, at or after the first one: it commits the steps between
the last committed one and the current one, and animates the current
step or completes. *)
Lemma animStep_ok a time m :
default time (animStart a) = t0 -> lastStepCommitted a = m - 1 ->
0 <= m <= stepNumAt time ->
exists evs again,
animStep steps a time
= Ok (mkAnimation (Some t0) (stepNumAt time - 1), evs, again)
/\ (forall rest, (if again then replay n (stepNumAt time) rest else rest = []) ->
replay n m (evs ++ rest))
/\ (again = false <-> n <= Qfloor ((time - t0) / msPerStep))
/\ (again = false -> last evs = Some Completed).
Proof.
intros Hstart Hlast Hm. unfold animStep. rewrite Hstart, Hlast.
set (sn := stepNumAt time) in *.
replace (m - 1 + 1) with m by lia.
assert (sn <= n) as Hsn by apply Z.le_min_r.
assert (commitAll steps (seqZ m (sn - m)) = Ok (Committed <$> seqZ m (sn - m))) as Hcommit.
{ apply commitAll_ok. apply Forall_forall. intros step Hstep%elem_of_seqZ. lia. }
assert (exists committed,
(if bool_decide (sn ≠ m) then
c ← commitAll steps (seqZ m (sn - m)); Ok (c, sn - 1)
else Ok ([], m - 1))
= Ok (committed, sn - 1)
/\ committed = Committed <$> seqZ m (sn - m)) as (committed & -> & ->).
{ case_bool_decide as Hne.
- rewrite Hcommit. eexists. split; [done|done].
- exists []. rewrite Hne, Z.sub_diag. done. }
cbn [mbind outcome_bind].
destruct (Z.ltb_spec sn n) as [Hlt|Hge].
- destruct (getIdx_batches sn ltac:(lia)) as [[? ->] [? ->]].
eexists _, true. split; [done|]. split.
+ intros rest Hrest. rewrite <- app_assoc. apply replay_commits; [lia|lia|].
replace (m + (sn - m)) with sn by lia. cbn [app replay].
assert (sn = Qfloor ((time - t0) / msPerStep)) as Hfloor by (unfold sn in *; lia).
pose proof (Qfloor_le ((time - t0) / msPerStep)) as Hlo.
pose proof (Qlt_floor ((time - t0) / msPerStep)) as Hhi.
rewrite <- Hfloor in Hlo, Hhi. rewrite inject_Z_plus in Hhi.
change (inject_Z 1) with 1%Q in Hhi.
assert ((time - t0) / msPerStep * 1000 == time - t0)%Q as Hx
by (unfold msPerStep; field).
assert (inject_Z sn * 1000 <= time - t0)%Q as Hlo' by lra.
assert (time - t0 < (inject_Z sn + 1) * 1000)%Q as Hhi' by lra.
split; [done|]. split; [done|]. unfold msPerStep, nodeFadeTime, lerp.
split; [apply Qle_shift_div_l; lra|]. split; [apply Qlt_shift_div_r; lra|].
rewrite inject_Z_plus. change (inject_Z 1) with 1%Q.
set (remainingMs := ((inject_Z sn + 1) * 1000 - (time - t0))%Q).
assert (0 < minQ remainingMs 250 /\ minQ remainingMs 250 <= 250)%Q as [Hm0 Hm1].
{ unfold minQ. destruct (Qle_bool remainingMs 250) eqn:Hle.
- apply Qle_bool_iff in Hle. unfold remainingMs in *. split; lra.
- split; lra. }
assert (0 <= (250 - minQ remainingMs 250) / 250 /\ (250 - minQ remainingMs 250) / 250 < 1)%Q
as [Hr0 Hr1].
{ split; [apply Qle_shift_div_l; lra|apply Qlt_shift_div_r; lra]. }
split; [lra|]. split; [lra|]. done.
+ split; [|done]. split; [done|]. intros Hn. unfold sn in Hlt. lia.
- eexists _, false. split; [done|]. split.
+ intros rest ->. rewrite <- app_assoc. apply replay_commits; [lia|lia|].
replace (m + (sn - m)) with sn by lia. cbn [app replay]. split; [lia|done].
+ split; [|intros _; apply last_snoc]. split; [|done]. intros _. unfold sn in Hge. lia.
Qed.

Lemma animate_ok frames : forall a m,
animStart a = Some t0 -> lastStepCommitted a = m - 1 -> 0 <= m ->
Forall (fun t => m <= stepNumAt t) frames -> nondecreasing frames ->
exists evs,
animate steps a frames = Ok evs /\ replay n m evs
/\ (Exists (fun t => n <= Qfloor ((t - t0) / msPerStep)) frames ->
last evs = Some Completed).
Proof.
induction frames as [|time rest IH]; intros a m Hstart Hlast Hm Hall Hnd.
- exists []. split; [done|]. split; [done|]. by intros ?%Exists_nil.
- apply Forall_cons in Hall as [Htime Hall]. destruct Hnd as [Hle Hnd].
destruct (animStep_ok a time m) as (evs & again & Hstep & Hreplay & Hagain & Hlast');
[by rewrite Hstart|done|lia|].
cbn [animate]. rewrite Hstep. cbn [mbind outcome_bind].
destruct again.
+ destruct (IH (mkAnimation (Some t0) (stepNumAt time - 1)) (stepNumAt time))
as (r & Hrun & Hr & Hdone); [done|done|lia| |done|].
{ eapply Forall_impl; [exact Hle|]. intros t' Ht'. by apply stepNumAt_mono. }
rewrite Hrun. cbn [mbind outcome_bind]. exists (evs ++ r).
split; [done|]. split; [by apply Hreplay|].
intros [Hhere|Hlater]%Exists_cons.
* by apply Hagain in Hhere.
* specialize (Hdone Hlater). destruct r as [|e r]; [done|].
rewrite last_app. by rewrite Hdone.
+ exists evs. split; [done|]. split.
* rewrite <- (app_nil_r evs). by apply Hreplay.
* intros _. by apply Hlast'.
Qed.

End Animation.

(** [runAnimation] on steps with as many path batches as node batches, for
    frame times that never decrease: no frame reads a batch that does not
    exist; the steps are committed to the permanent canvases one after the
    other from step 0 on, each once; every frame animates the first step
    that is not yet committed, with [prcComplete] and [alpha] at least 0
    and below 1; and [onComplete] is called by the first frame that comes
    [msPerStep] times the number of steps after the first one, after all
    steps are committed, and no frame follows it. *)
Theorem runAnimation_spec (steps : AnimationSteps) (frames : list Q) :
  length (paths steps) = length (nodes steps) ->
  nondecreasing frames ->
  exists evs,
    runAnimation steps frames = Ok evs
    /\ replay (Z.of_nat (length (nodes steps))) 0 evs
    /\ (forall t0, head frames = Some t0 ->
          Exists (fun t => Z.of_nat (length (nodes steps)) <= Qfloor ((t - t0) / msPerStep))
            frames ->
          last evs = Some Completed).
Proof.
  intros Hlen Hnd. unfold runAnimation. destruct frames as [|t0 rest].
  { exists []. split; [done|]. split; [done|]. by intros t0 [=]. }
  destruct Hnd as [Hle Hnd].
  destruct (animStep_ok steps Hlen t0 (mkAnimation None (-1)) t0 0)
    as (evs & again & Hstep & Hreplay & Hagain & Hlast'); [done|done| |].
  { split; [done|]. apply Z.min_glb; [|lia].
    replace ((t0 - t0) / msPerStep)%Q with ((t0 - t0) / msPerStep)%Q by done.
    assert ((t0 - t0) / msPerStep == 0)%Q as -> by (unfold msPerStep; field). done. }
  cbn [animate]. rewrite Hstep. cbn [mbind outcome_bind].
  set (sn := Z.min (Qfloor ((t0 - t0) / msPerStep)) (Z.of_nat (length (nodes steps)))) in *.
  assert (0 <= sn) as Hsn.
  { unfold sn. apply Z.min_glb; [|lia].
    assert ((t0 - t0) / msPerStep == 0)%Q as -> by (unfold msPerStep; field). done. }
  destruct again.
  - destruct (animate_ok steps Hlen t0 rest (mkAnimation (Some t0) (sn - 1)) sn)
      as (r & Hrun & Hr & Hdone); [done|done|done| |done|].
    { eapply Forall_impl; [exact Hle|]. intros t' Ht'.
      by apply (stepNumAt_mono steps t0). }
    rewrite Hrun. cbn [mbind outcome_bind]. exists (evs ++ r).
    split; [done|]. split; [by apply Hreplay|].
    intros t [= <-] [Hhere|Hlater]%Exists_cons.
    + by apply Hagain in Hhere.
    + specialize (Hdone Hlater). destruct r as [|e r]; [done|].
      rewrite last_app. by rewrite Hdone.
  - exists evs. split; [done|]. split.
    + rewrite <- (app_nil_r evs). by apply Hreplay.
    + intros t [= <-] _. by apply Hlast'.
Qed.

Lemma runAnimation_spec_witness :
  exists evs,
    runAnimation chainSteps [0; 500; 1200; 3100]%Q = Ok evs
    /\ replay (Z.of_nat (length (nodes chainSteps))) 0 evs
    /\ (forall t0, head [0; 500; 1200; 3100]%Q = Some t0 ->
          Exists (fun t => Z.of_nat (length (nodes chainSteps)) <= Qfloor ((t - t0) / msPerStep))
            [0; 500; 1200; 3100]%Q ->
          last evs = Some Completed).
Proof.
  apply (runAnimation_spec chainSteps [0; 500; 1200; 3100]%Q).
  - reflexivity.
  - cbn [nondecreasing]. repeat split;
      repeat (first [apply List.Forall_nil | apply List.Forall_cons; [unfold Qle; simpl; lia|]]).
Defined.
